(** * The omegaUp i18n linter (stuff/i18n_linter.py)

    A shallow embedding of [I18nLinter] and of the Python library calls it
    relies on, followed by the properties of the parse, merge, check, emit
    and drift-detection pipeline.

    Conventions of the embedding:
    - a Python [str] is the list of its Unicode code points, a [bytes]
      object the list of its octets;
    - a Python [dict] is an association list in insertion order
      ([dset] overwrites in place or appends);
    - a function that may raise returns a [result];
    - the contents callback is a total function from paths to bytes: no call
      to it sits inside a [try] block, so an exception it raises aborts the
      whole run and nothing of the linter is observable. *)

From Stdlib Require Import String Ascii List NArith ZArith Bool Lia.
From Stdlib Require Import Permutation Sorting.Sorted.
Import ListNotations.
Local Open Scope N_scope.

Ltac Zify.zify_post_hook ::= Z.to_euclidean_division_equations.

(** ** Strings and bytes *)

Abbreviation char := N (only parsing).
Abbreviation str := (list N) (only parsing).
Abbreviation byte := N (only parsing).
Abbreviation bytes := (list N) (only parsing).

(** An ASCII literal of the source, as a [str]. *)
Definition lit (s : string) : str := map N_of_ascii (list_ascii_of_string s).

Definition LF : char := 10.
Definition QUOTE : char := 34.
Definition BACKSLASH : char := 92.

Fixpoint str_eqb (a b : str) : bool :=
  match a, b with
  | [], [] => true
  | x :: a', y :: b' => (x =? y) && str_eqb a' b'
  | _, _ => false
  end.

(** Comparison of two [str] as Python does it: lexicographic on code
    points. *)
Fixpoint str_leb (a b : str) : bool :=
  match a, b with
  | [], _ => true
  | _ :: _, [] => false
  | x :: a', y :: b' =>
      if x <? y then true else if y <? x then false else str_leb a' b'
  end.

(** [str.startswith] and [str.endswith]. *)
Fixpoint startswith (s p : str) {struct p} : bool :=
  match p, s with
  | [], _ => true
  | x :: p', y :: s' => (x =? y) && startswith s' p'
  | _ :: _, [] => false
  end.

Definition endswith (s p : str) : bool := startswith (rev s) (rev p).

(** [Py_UNICODE_ISSPACE]: the code points that [str.strip()] removes and
    that [\s] matches in a [str] pattern. *)
Definition isspace (c : char) : bool :=
  ((0x09 <=? c) && (c <=? 0x0D)) || ((0x1C <=? c) && (c <=? 0x20))
  || (c =? 0x85) || (c =? 0xA0) || (c =? 0x1680)
  || ((0x2000 <=? c) && (c <=? 0x200A))
  || (c =? 0x2028) || (c =? 0x2029) || (c =? 0x202F) || (c =? 0x205F)
  || (c =? 0x3000).

Fixpoint lstrip (s : str) : str :=
  match s with
  | c :: r => if isspace c then lstrip r else s
  | [] => []
  end.

Definition rstrip (s : str) : str := rev (lstrip (rev s)).

(** [s.strip()] *)
Definition strip (s : str) : str := rstrip (lstrip s).

(** [s.replace(old, new)] for a one-character [old]. *)
Definition replace1 (old : char) (new : str) (s : str) : str :=
  flat_map (fun c => if c =? old then new else [c]) s.

(** [s.replace(old, new)] for the two-character [old = a b]: occurrences
    are taken from the left and do not overlap. *)
Fixpoint replace2 (a b : char) (new : str) (s : str) : str :=
  match s with
  | [] => []
  | x :: t =>
      match t with
      | y :: r =>
          if (x =? a) && (y =? b) then new ++ replace2 a b new r
          else x :: replace2 a b new t
      | [] => [x]
      end
  end.

(** [sep.join(parts)] *)
Fixpoint join (sep : str) (parts : list str) : str :=
  match parts with
  | [] => []
  | [p] => p
  | p :: rest => p ++ sep ++ join sep rest
  end.

(** [data.split(b'\n')]: always at least one element. *)
Fixpoint split_on (sep : byte) (data : bytes) : list bytes :=
  match data with
  | [] => [[]]
  | b :: r =>
      if b =? sep then [] :: split_on sep r
      else match split_on sep r with
           | first :: others => (b :: first) :: others
           | [] => [[b]]
           end
  end.

(** ** The UTF-8 codec ([bytes.decode('utf-8')], [str.encode('utf-8')]) *)

Definition is_cont (b : byte) : bool := (0x80 <=? b) && (b <=? 0xBF).
Definition is_surrogate (c : char) : bool := (0xD800 <=? c) && (c <=? 0xDFFF).

Definition encode_char (c : char) : option bytes :=
  if c <? 0x80 then Some [c]
  else if c <? 0x800 then Some [0xC0 + c / 64; 0x80 + c mod 64]
  else if c <? 0x10000 then
    if is_surrogate c then None
    else Some [0xE0 + c / 4096; 0x80 + (c / 64) mod 64; 0x80 + c mod 64]
  else if c <? 0x110000 then
    Some [0xF0 + c / 262144; 0x80 + (c / 4096) mod 64;
          0x80 + (c / 64) mod 64; 0x80 + c mod 64]
  else None.

(** [s.encode('utf-8')]; [None] stands for [UnicodeEncodeError]. *)
Fixpoint encode (s : str) : option bytes :=
  match s with
  | [] => Some []
  | c :: r =>
      match encode_char c, encode r with
      | Some a, Some b => Some (a ++ b)
      | _, _ => None
      end
  end.

(** [b.decode('utf-8')] (strict); [None] stands for [UnicodeDecodeError].
    Over-long forms, surrogates and code points above U+10FFFF are
    rejected. *)
Fixpoint decode (b : bytes) : option str :=
  match b with
  | [] => Some []
  | b0 :: r0 =>
      if b0 <? 0x80 then option_map (cons b0) (decode r0)
      else if b0 <? 0xC2 then None
      else if b0 <? 0xE0 then
        match r0 with
        | b1 :: r1 =>
            if is_cont b1
            then option_map (cons ((b0 - 0xC0) * 64 + (b1 - 0x80))) (decode r1)
            else None
        | _ => None
        end
      else if b0 <? 0xF0 then
        match r0 with
        | b1 :: b2 :: r2 =>
            let c := (b0 - 0xE0) * 4096 + (b1 - 0x80) * 64 + (b2 - 0x80) in
            if is_cont b1 && is_cont b2 && (0x800 <=? c) && negb (is_surrogate c)
            then option_map (cons c) (decode r2)
            else None
        | _ => None
        end
      else if b0 <? 0xF5 then
        match r0 with
        | b1 :: b2 :: b3 :: r3 =>
            let c := (b0 - 0xF0) * 262144 + (b1 - 0x80) * 4096
                     + (b2 - 0x80) * 64 + (b3 - 0x80) in
            if is_cont b1 && is_cont b2 && is_cont b3
               && (0x10000 <=? c) && (c <? 0x110000)
            then option_map (cons c) (decode r3)
            else None
        | _ => None
        end
      else None
  end.

(** ** Dictionaries in insertion order *)

Abbreviation dict V := (list (str * V)) (only parsing).

Fixpoint dget {V} (k : str) (d : dict V) : option V :=
  match d with
  | [] => None
  | (k', v) :: r => if str_eqb k k' then Some v else dget k r
  end.

(** [d[k] = v] *)
Fixpoint dset {V} (k : str) (v : V) (d : dict V) : dict V :=
  match d with
  | [] => [(k, v)]
  | (k', v') :: r =>
      if str_eqb k k' then (k, v) :: r else (k', v') :: dset k v r
  end.

Definition dkeys {V} (d : dict V) : list str := map fst d.

(** [k in d] *)
Definition dmem {V} (k : str) (d : dict V) : bool :=
  existsb (str_eqb k) (dkeys d).

(** [d.update(other)] *)
Definition dupdate {V} (d other : dict V) : dict V :=
  fold_left (fun acc kv => dset (fst kv) (snd kv) acc) other d.

(** [d[k]] on a [collections.defaultdict(str)]: a missing key yields the
    empty string and is inserted. *)
Definition dd_getitem (k : str) (d : dict str) : str * dict str :=
  match dget k d with
  | Some v => (v, d)
  | None => ([], dset k [] d)
  end.

(** A translation table: key -> language -> text.  The inner mappings
    are the [defaultdict(str)] objects built by the parser and the
    merger. *)
Abbreviation table := (dict (dict str)) (only parsing).

(** [strings[key][lang]] read by the emitters, for [key] among
    [strings.keys()]. *)
Definition getitem2 (strings : table) (key lang : str) : str :=
  match dget key strings with
  | Some values => fst (dd_getitem lang values)
  | None => []
  end.

(** [outer[key][lang] = v] where a missing [key] first receives
    [empty]. *)
Definition setitem2 (key lang v : str) (strings : table) : table :=
  match dget key strings with
  | Some values => dset key (dset lang v values) strings
  | None => dset key (dset lang v []) strings
  end.

(** [sorted(keys)]: a stable sort for [str_leb]. *)
Fixpoint insert_sorted (k : str) (l : list str) : list str :=
  match l with
  | [] => [k]
  | h :: t => if str_leb k h then k :: l else h :: insert_sorted k t
  end.

Definition sorted (l : list str) : list str := fold_right insert_sorted [] l.

(** ** Results and diagnostics *)

(** The text of a diagnostic.  [WithRepr p a] stands for the f-string
    [f'{p}{a!r}'], [DecodeErrorText b] for [str(exc)] of the
    [UnicodeDecodeError] raised on [b]. *)
Inductive text :=
| Plain (s : str)
| WithRepr (prefix arg : str)
| DecodeErrorText (b : bytes).

Record Diagnostic := mkDiagnostic {
  message : text;
  filename : str;
  lineno : option N;
  line : option str
}.

(** The exceptions that leave the linter.  [fixable = None] means that the
    keyword was not passed to [LinterException]. *)
Inductive exn :=
| LinterException (msg : str) (fixable : option bool)
                  (diagnostics : list Diagnostic)
| UnboundLocalError (name : str)
| UnicodeDecodeError
| UnicodeEncodeError
| KeyError (k : str)
| JSONDecodeError.

Inductive result (A : Type) :=
| Ok (a : A)
| Raise (e : exn).
Arguments Ok {A} a.
Arguments Raise {A} e.

Definition bind {A B} (r : result A) (f : A -> result B) : result B :=
  match r with
  | Ok a => f a
  | Raise e => Raise e
  end.

Notation "x <- r ;; k" := (bind r (fun x => k))
  (at level 61, r at next level, right associativity).

(** ** Class constants (lines 27-37) *)

Definition _JS_TEMPLATES_PATH : str := lit "frontend/www/js/omegaup".
Definition _TEMPLATES_PATH : str := lit "frontend/templates".
Definition _BADGES_PATH : str := lit "frontend/badges".
Definition _LANGS : list str := [lit "en"; lit "es"; lit "pt"].

(** [os.path.join(a, b)] (POSIX). *)
Definition path_join (a b : str) : str :=
  if startswith b (lit "/") then b
  else match a with
       | [] => b
       | _ => if endswith a (lit "/") then a ++ b else a ++ lit "/" ++ b
       end.

(** ['%s/%s.lang' % (_TEMPLATES_PATH, lang)] *)
Definition lang_path (lang : str) : str :=
  _TEMPLATES_PATH ++ lit "/" ++ lang ++ lit ".lang".
Definition ts_path (lang : str) : str :=
  _JS_TEMPLATES_PATH ++ lit "/lang." ++ lang ++ lit ".ts".
Definition json_path (lang : str) : str :=
  _JS_TEMPLATES_PATH ++ lit "/lang." ++ lang ++ lit ".json".

(** ** [_unescape] (lines 18-20) and [json.dumps] *)

Definition _unescape (s : str) : str :=
  replace2 BACKSLASH 110 [LF] (replace2 BACKSLASH QUOTE [QUOTE] s).

Definition hexdigit (d : N) : char := if d <? 10 then 48 + d else 87 + d.

(** ['\\u{0:04x}'.format(n)] *)
Definition u_escape (n : N) : str :=
  [BACKSLASH; 117; hexdigit ((n / 4096) mod 16); hexdigit ((n / 256) mod 16);
   hexdigit ((n / 16) mod 16); hexdigit (n mod 16)].

(** One character of [json.encoder.encode_basestring_ascii]. *)
Definition json_escape_char (c : char) : str :=
  if c =? QUOTE then [BACKSLASH; QUOTE]
  else if c =? BACKSLASH then [BACKSLASH; BACKSLASH]
  else if c =? 10 then [BACKSLASH; 110]
  else if c =? 13 then [BACKSLASH; 114]
  else if c =? 9 then [BACKSLASH; 116]
  else if c =? 12 then [BACKSLASH; 102]
  else if c =? 8 then [BACKSLASH; 98]
  else if (0x20 <=? c) && (c <=? 0x7E) then [c]
  else if c <? 0x10000 then u_escape c
  else
    let n := c - 0x10000 in
    u_escape (N.lor 0xD800 (N.land (N.shiftr n 10) 0x3FF))
    ++ u_escape (N.lor 0xDC00 (N.land n 0x3FF)).

(** [json.dumps(s)] for a [str]. *)
Definition json_dumps_str (s : str) : str :=
  [QUOTE] ++ flat_map json_escape_char s ++ [QUOTE].

(** Items sorted by key, as [sort_keys=True] does. *)
Fixpoint insert_item (kv : str * str) (l : list (str * str)) :=
  match l with
  | [] => [kv]
  | h :: t => if str_leb (fst kv) (fst h) then kv :: l
              else h :: insert_item kv t
  end.

Definition sorted_items (l : list (str * str)) : list (str * str) :=
  fold_right insert_item [] l.

(** The text of an object whose items are given in output order, with
    [indent='\t']. *)
Definition json_object_text (items : list (str * str)) : str :=
  match items with
  | [] => lit "{}"
  | _ =>
      lit "{" ++ [LF; 9]
      ++ join ([44; LF; 9])
           (map (fun kv => json_dumps_str (fst kv) ++ lit ": "
                           ++ json_dumps_str (snd kv)) items)
      ++ [LF] ++ lit "}"
  end.

(** [json.dumps(d, sort_keys=True, indent='\t')] for a [Dict[str, str]]. *)
Definition json_dumps_map (d : dict str) : str :=
  json_object_text (sorted_items d).

(** ** The emitters (lines 43-83) *)

Definition _generate_typescript (lang : str) (strings : table) : str :=
  join [LF]
    ([lit "// generated by stuff/i18n.py. DO NOT EDIT.";
      lit "const translations: { [key: string]: string; } = {"]
     ++ map (fun key => lit "  " ++ key ++ lit ": "
                        ++ json_dumps_str (_unescape (getitem2 strings key lang))
                        ++ lit ",")
            (sorted (dkeys strings))
     ++ [lit "};" ++ [LF]; lit "export {translations as default};"]).

Definition _generate_json (lang : str) (strings : table) : str :=
  let json_map :=
    fold_left (fun m key => dset key (_unescape (getitem2 strings key lang)) m)
              (sorted (dkeys strings)) [] in
  json_dumps_map json_map.

Definition _generate_sorted (lang : str) (strings : table) : str :=
  concat (map (fun key => key ++ lit " = " ++ [QUOTE]
                          ++ replace1 QUOTE [BACKSLASH; QUOTE]
                               (getitem2 strings key lang)
                          ++ [QUOTE; LF])
              (sorted (dkeys strings))).

(** ** [_pseudoloc] (lines 85-95) *)

(** [str.maketrans(x, y)] (the characters of [x] are distinct here) and
    [s.translate(table)]. *)
Definition maketrans (x y : str) : list (char * char) := combine x y.

Fixpoint table_get (c : char) (t : list (char * char)) : option char :=
  match t with
  | [] => None
  | (x, y) :: r => if c =? x then Some y else table_get c r
  end.

Definition translate (t : list (char * char)) (s : str) : str :=
  map (fun c => match table_get c t with Some d => d | None => c end) s.

(** The class [[a-zA-Z0-9_-]]. *)
Definition is_ident (c : char) : bool :=
  ((97 <=? c) && (c <=? 122)) || ((65 <=? c) && (c <=? 90))
  || ((48 <=? c) && (c <=? 57)) || (c =? 95) || (c =? 45).

Fixpoint take_ident (s : str) : str :=
  match s with
  | c :: r => if is_ident c then c :: take_ident r else []
  | [] => []
  end.

Fixpoint skip_ident (s : str) : str :=
  match s with
  | c :: r => if is_ident c then skip_ident r else s
  | [] => []
  end.

(** A match of [%\([a-zA-Z0-9_-]+\)] at the head of [s]: the matched text.
    The greedy [+] takes the whole run of identifier characters; a shorter
    run is followed by an identifier character, never by the closing
    parenthesis, so backtracking finds nothing more. *)
Definition match_placeholder (s : str) : option str :=
  match s with
  | a :: b :: c :: r =>
      if (a =? 37) && (b =? 40) && is_ident c then
        match skip_ident r with
        | d :: _ =>
            if d =? 41 then Some (a :: b :: c :: take_ident r ++ [d])
            else None
        | [] => None
        end
      else None
  | _ => None
  end.

(** [re.split(r'(%\([a-zA-Z0-9_-]+\))', s)]: the texts between the
    successive leftmost matches, alternating with the matches themselves.
    [skip] counts the characters of the current match still to be passed
    over. *)
Fixpoint re_split_from (skip : nat) (s : str) : list str :=
  match s with
  | [] => [[]]
  | c :: r =>
      match skip with
      | S n => re_split_from n r
      | O =>
          match match_placeholder s with
          | Some tok => [] :: tok :: re_split_from (List.length tok - 1) r
          | None =>
              match re_split_from 0 r with
              | first :: others => (c :: first) :: others
              | [] => [[c]]
              end
          end
      end
  end.

Definition re_split_placeholder (s : str) : list str := re_split_from 0 s.

Definition _pseudoloc (original : str) : str :=
  let table := maketrans (lit "elsot") (lit "31507") in
  let tokens := re_split_placeholder original in
  let tokens :=
    map (fun token =>
           if startswith token (lit "%(") && endswith token (lit ")")
           then token
           else translate table token) tokens in
  lit "(" ++ concat tokens ++ lit ")".

(** ** The two patterns of the parser (lines 131 and 134) *)

(** A match of [\s+=\s+] at the head of [s]: what follows the match.  Both
    [\s+] take their whole run of white space: after a shorter first run
    comes a space, not [=], and the second run is greedy. *)
Definition match_sep (s : str) : option str :=
  match s with
  | c :: r =>
      if isspace c then
        match lstrip r with
        | e :: w :: r' =>
            if (e =? 61) && isspace w then Some (lstrip r') else None
        | _ => None
        end
      else None
  | [] => None
  end.

(** The leftmost match of [\s+=\s+] in [s]: the text before it and the
    text after it. *)
Fixpoint find_sep (s : str) : option (str * str) :=
  match match_sep s with
  | Some rest => Some ([], rest)
  | None =>
      match s with
      | [] => None
      | c :: r =>
          match find_sep r with
          | Some (k, v) => Some (c :: k, v)
          | None => None
          end
      end
  end.

(** [re.compile(r'\s+=\s+').split(s, 1)] *)
Definition re_split_sep (s : str) : list str :=
  match find_sep s with
  | Some (k, v) => [k; v]
  | None => [s]
  end.

(** Membership in the starred group of the value pattern (any
    character but a quote, or a backslash followed by a quote): every quote
    follows a backslash. *)
Fixpoint payload_ok (p : str) : bool :=
  match p with
  | [] => true
  | x :: t =>
      if x =? QUOTE then false
      else match t with
           | y :: r => if (x =? BACKSLASH) && (y =? QUOTE) then payload_ok r
                       else payload_ok t
           | [] => true
           end
  end.

(** The [match] of the value pattern (a quote, the starred group captured
    as group 1, a quote, between [^] and [$]): group 1 of the match.  [$]
    matches at the end or before a final line feed; both ends are anchored,
    so the group is everything between the outer quotes. *)
Definition match_value (value : str) : option str :=
  let v := match rev value with
           | c :: r => if c =? LF then rev r else value
           | [] => value
           end in
  match v with
  | q :: t =>
      match rev t with
      | q' :: m =>
          if (q =? QUOTE) && (q' =? QUOTE) && payload_ok (rev m)
          then Some (rev m) else None
      | [] => None
      end
  | [] => None
  end.

(** ** [_get_translated_strings] (lines 117-150) *)

(** The locals that the loop over the lines updates; [row = None] while
    the variable is unbound. *)
Record pstate := mkPstate {
  p_strings : table;
  p_diagnostics : list Diagnostic;
  p_row : option str
}.

(** The [except] clause: it reads [row], which is bound only once some
    line has been decoded. *)
Definition on_exception (st : pstate) (exc : text) (file : str) (n : N)
  : result pstate :=
  match p_row st with
  | None => Raise (UnboundLocalError (lit "row"))
  | Some row =>
      Ok (mkPstate (p_strings st)
            (p_diagnostics st
             ++ [mkDiagnostic exc file (Some (n + 1)) (Some (strip row))])
            (p_row st))
  end.

(** The body of the loop over the lines of one file. *)
Definition parse_line (lang file : str) (st : pstate) (n : N) (l : bytes)
  : result pstate :=
  match decode l with
  | None => on_exception st (DecodeErrorText l) file n
  | Some row =>
      let st := mkPstate (p_strings st) (p_diagnostics st) (Some row) in
      match re_split_sep (strip row) with
      | [key; value] =>
          let strings :=
            if dmem key (p_strings st) then p_strings st
            else dset key [] (p_strings st) in
          let st := mkPstate strings (p_diagnostics st) (p_row st) in
          match match_value value with
          | None =>
              on_exception st (WithRepr (lit "Invalid line ") (strip row))
                file n
          | Some g =>
              Ok (mkPstate
                    (setitem2 key lang
                       (replace2 BACKSLASH QUOTE [QUOTE] g) strings)
                    (p_diagnostics st) (p_row st))
          end
      | _ =>
          on_exception st
            (Plain (lit "not enough values to unpack (expected 2, got 1)"))
            file n
      end
  end.

Fixpoint parse_lines (lang file : str) (st : pstate) (n : N)
  (lines : list bytes) : result pstate :=
  match lines with
  | [] => Ok st
  | l :: rest =>
      st' <- parse_line lang file st n l ;;
      parse_lines lang file st' (n + 1) rest
  end.

(** [contents_callback(filename).split(b'\n')[:-1]] *)
Definition file_lines (content : bytes) : list bytes :=
  removelast (split_on 10 content).

Fixpoint parse_files (contents_callback : str -> bytes) (langs : list str)
  (st : pstate) : result pstate :=
  match langs with
  | [] => Ok st
  | lang :: rest =>
      let file := lang_path lang in
      st' <- parse_lines lang file st 0 (file_lines (contents_callback file)) ;;
      parse_files contents_callback rest st'
  end.

(** The local set [languages] of the source is filled and never read; it
    is left out. *)
Definition _get_translated_strings (contents_callback : str -> bytes)
  : result table :=
  st <- parse_files contents_callback _LANGS (mkPstate [] [] None) ;;
  match p_diagnostics st with
  | _ :: _ =>
      Raise (LinterException (lit "Invalid i18n files") (Some false)
               (p_diagnostics st))
  | [] =>
      Ok (filter (fun kv => negb (startswith (fst kv) (lit "badge_")))
            (p_strings st))
  end.

(** [d[k]] on a plain [dict]. *)
Definition getitem {V} (k : str) (d : dict V) : result V :=
  match dget k d with
  | Some v => Ok v
  | None => Raise (KeyError k)
  end.

(** [linters.MultipleResults(new_contents, original_contents, labels)] *)
Record MultipleResults := mkMultipleResults {
  new_contents : dict bytes;
  original_contents : dict bytes;
  labels : list str
}.

Section Host.

(** What the host provides: the order in which a freshly built [set] with
    the given elements is iterated, the names of the directories that
    [os.scandir(_BADGES_PATH)] yields, and [json.loads] on the documents of
    the auxiliary description format (language code -> field -> text). *)
Variable set_iter : list str -> list str.
Variable scandir_dirs : list str.
Variable json_loads : str -> result (dict (dict str)).

(** ** [_add_badges_entries] (lines 97-115) *)

Definition badge_key_name (alias : str) : str :=
  lit "badge_" ++ alias ++ lit "_name".
Definition badge_key_desc (alias : str) : str :=
  lit "badge_" ++ alias ++ lit "_description".

Fixpoint add_badge_langs (key_name key_desc : str) (contents : dict (dict str))
  (langs : list str) (strings : table) : result table :=
  match langs with
  | [] => Ok strings
  | lang :: rest =>
      entry <- getitem lang contents ;;
      name <- getitem (lit "name") entry ;;
      let strings := setitem2 key_name lang name strings in
      entry <- getitem lang contents ;;
      desc <- getitem (lit "description") entry ;;
      let strings := setitem2 key_desc lang desc strings in
      add_badge_langs key_name key_desc contents rest strings
  end.

Fixpoint add_badges (contents_callback : str -> bytes) (aliases : list str)
  (strings : table) : result table :=
  match aliases with
  | [] => Ok strings
  | alias :: rest =>
      let file :=
        path_join (path_join _BADGES_PATH alias) (lit "localizations.json") in
      match decode (contents_callback file) with
      | None => Raise UnicodeDecodeError
      | Some doc =>
          contents <- json_loads doc ;;
          strings' <- add_badge_langs (badge_key_name alias)
                        (badge_key_desc alias) contents _LANGS strings ;;
          add_badges contents_callback rest strings'
      end
  end.

Definition _add_badges_entries (contents_callback : str -> bytes)
  : result table :=
  add_badges contents_callback scandir_dirs [].

(** ** [_check_missing_entries] (lines 152-176) *)

(** [languages.difference(list(values.keys()))], in iteration order. *)
Definition missing_languages (languages : list str) (values : dict str)
  : list str :=
  set_iter (filter (fun l => negb (dmem l values)) languages).

Definition missing_diagnostic (key lang : str) : Diagnostic :=
  mkDiagnostic (WithRepr (lit "Missing entry: ") key)
    (path_join _TEMPLATES_PATH (lang ++ lit ".lang")) None None.

(** The body of the loop, for a key that misses no language. *)
Definition add_pseudo (key : str) (values : dict str) : dict str :=
  if str_eqb key (lit "locale") then dset (lit "pseudo") (lit "pseudo") values
  else
    let '(en, values) := dd_getitem (lit "en") values in
    dset (lit "pseudo") (_pseudoloc en) values.

(** The loop over [strings.items()]: the inner mappings are updated in
    place, the diagnostics are appended. *)
Fixpoint check_items (languages : list str) (items : table)
  (diagnostics : list Diagnostic) : table * list Diagnostic :=
  match items with
  | [] => ([], diagnostics)
  | (key, values) :: rest =>
      match missing_languages languages values with
      | (_ :: _) as missing =>
          let '(rest', ds) :=
            check_items languages rest
              (diagnostics ++ map (missing_diagnostic key) missing) in
          ((key, values) :: rest', ds)
      | [] =>
          let '(rest', ds) := check_items languages rest diagnostics in
          ((key, add_pseudo key values) :: rest', ds)
      end
  end.

(** The table as the call leaves it, and the outcome of the call. *)
Definition _check_missing_entries (strings : table) (languages : list str)
  : table * result unit :=
  let '(strings', diagnostics) := check_items languages strings [] in
  (strings',
   match diagnostics with
   | _ :: _ =>
       Raise (LinterException (lit "There are missing items in some files")
                None diagnostics)
   | [] => Ok tt
   end).

(** What the loop does with one entry: the diagnostics it appends and
    the entry it leaves. *)
Definition entry_diagnostics (languages : list str) (kv : str * dict str)
  : list Diagnostic :=
  map (missing_diagnostic (fst kv))
      (missing_languages languages (snd kv)).

Definition entry_checked (languages : list str) (kv : str * dict str)
  : str * dict str :=
  match missing_languages languages (snd kv) with
  | [] => (fst kv, add_pseudo (fst kv) (snd kv))
  | _ :: _ => kv
  end.

(** ** Drift detection (lines 178-220) *)

(** The message printed on [sys.stderr] is not part of the model. *)
Definition _generate_content_entry (maps : dict bytes * dict bytes)
  (path : str) (new_content : str) (contents_callback : str -> bytes)
  : result (dict bytes * dict bytes) :=
  let original_content := contents_callback path in
  match decode original_content with
  | None => Raise UnicodeDecodeError
  | Some text =>
      if negb (str_eqb text new_content) then
        match encode new_content with
        | None => Raise UnicodeEncodeError
        | Some b =>
            Ok (dset path b (fst maps), dset path original_content (snd maps))
        end
      else Ok maps
  end.

(** The (path, rendering) pairs of one language, in the order of the
    three calls. *)
Definition artifacts_of (strings : table) (language : str)
  : list (str * str) :=
  [ (lang_path language, _generate_sorted language strings);
    (ts_path language, _generate_typescript language strings);
    (json_path language, _generate_json language strings) ].

Definition artifacts (strings : table) : list (str * str) :=
  flat_map (artifacts_of strings) (_LANGS ++ [lit "pseudo"]).

Fixpoint content_entries (contents_callback : str -> bytes)
  (pairs : list (str * str)) (maps : dict bytes * dict bytes)
  : result (dict bytes * dict bytes) :=
  match pairs with
  | [] => Ok maps
  | (path, new_content) :: rest =>
      maps' <- _generate_content_entry maps path new_content
                 contents_callback ;;
      content_entries contents_callback rest maps'
  end.

Definition _generate_new_contents (strings : table)
  (contents_callback : str -> bytes) : result (dict bytes * dict bytes) :=
  content_entries contents_callback (artifacts strings) ([], []).

(** ** [run_all] (lines 222-236) *)

Definition run_all (contents_callback : str -> bytes)
  : result MultipleResults :=
  strings <- _get_translated_strings contents_callback ;;
  badges <- _add_badges_entries contents_callback ;;
  let strings := dupdate strings badges in
  let '(strings, checked) := _check_missing_entries strings _LANGS in
  _ <- checked ;;
  maps <- _generate_new_contents strings contents_callback ;;
  Ok (mkMultipleResults (fst maps) (snd maps) [lit "i18n"]).

End Host.

(** ** Reference definitions used by the statements *)

(** The substitution table of the transform, spelled out. *)
Definition subst_char (c : char) : char :=
  if c =? 101 then 51        (* e -> 3 *)
  else if c =? 108 then 49   (* l -> 1 *)
  else if c =? 115 then 53   (* s -> 5 *)
  else if c =? 111 then 48   (* o -> 0 *)
  else if c =? 116 then 55   (* t -> 7 *)
  else c.

(** [t] is exactly one placeholder token: a percent sign, an opening
    parenthesis, one or more identifier characters, a closing
    parenthesis. *)
Definition is_placeholder (t : str) : bool :=
  match t with
  | a :: b :: c :: r =>
      (a =? 37) && (b =? 40) && is_ident c && str_eqb (skip_ident r) [41]
  | _ => false
  end.

(** A placeholder token starts [s]. *)
Definition token_prefix (s tok : str) : Prop :=
  is_placeholder tok = true /\ exists rest, s = tok ++ rest.

(** [segs] is the split of a string at its successive leftmost placeholder
    tokens, the tokens retained: a text in which no token starts, then the
    token, then the split of what follows it. *)
Inductive split_at_tokens : str -> list str -> Prop :=
| split_none (t : str) :
    (forall pre post tok, t = pre ++ post -> ~ token_prefix post tok) ->
    split_at_tokens t [t]
| split_token (t tok rest : str) (segs : list str) :
    is_placeholder tok = true ->
    (forall pre post tok',
       t = pre ++ post -> post <> [] ->
       ~ token_prefix (post ++ tok ++ rest) tok') ->
    split_at_tokens rest segs ->
    split_at_tokens (t ++ tok ++ rest) (t :: tok :: segs).

(** The guard of the loop of [_pseudoloc]. *)
Definition looks_like_token (t : str) : bool :=
  startswith t (lit "%(") && endswith t (lit ")").

(** The transform as the specification words it: a segment is kept when
    it is exactly a placeholder token and substituted otherwise. *)
Definition pseudoloc_by_pattern (original : str) : str :=
  lit "(" ++
  concat (map (fun t => if is_placeholder t then t else map subst_char t)
              (re_split_placeholder original))
  ++ lit ")".

(** [_unescape] as one pass from the left: backslash-quote becomes a quote,
    backslash-n a line feed. *)
Fixpoint unescape_once (s : str) : str :=
  match s with
  | [] => []
  | x :: t =>
      match t with
      | y :: r =>
          if (x =? BACKSLASH) && (y =? QUOTE) then QUOTE :: unescape_once r
          else if (x =? BACKSLASH) && (y =? 110) then LF :: unescape_once r
          else x :: unescape_once t
      | [] => [x]
      end
  end.

(** A line is well formed when it decodes, splits in two and its value
    matches the pattern; it then contributes the pair (key, stored
    value). *)
Definition row_entry (row : str) : option (str * str) :=
  match re_split_sep (strip row) with
  | [key; value] =>
      match match_value value with
      | Some g => Some (key, replace2 BACKSLASH QUOTE [QUOTE] g)
      | None => None
      end
  | _ => None
  end.

Definition line_entry (l : bytes) : option (str * str) :=
  match decode l with
  | Some row => row_entry row
  | None => None
  end.

(** A decoded line fails the key/value split or the quoted-value
    pattern. *)
Definition row_fails (row : str) : bool :=
  match row_entry row with
  | Some _ => false
  | None => true
  end.

(** The diagnostic of line number [n] (from 0) of [file], if its text
    [row] fails. *)
Definition row_diagnostic (file : str) (n : N) (row : str)
  : list Diagnostic :=
  match re_split_sep (strip row) with
  | [_; value] =>
      match match_value value with
      | Some _ => []
      | None =>
          [mkDiagnostic (WithRepr (lit "Invalid line ") (strip row)) file
             (Some (n + 1)) (Some (strip row))]
      end
  | _ =>
      [mkDiagnostic
         (Plain (lit "not enough values to unpack (expected 2, got 1)"))
         file (Some (n + 1)) (Some (strip row))]
  end.

Fixpoint file_diagnostics (file : str) (n : N) (lines : list bytes)
  : list Diagnostic :=
  match lines with
  | [] => []
  | l :: rest =>
      match decode l with
      | Some row => row_diagnostic file n row
      | None => []
      end ++ file_diagnostics file (n + 1) rest
  end.

(** One diagnostic per failing line, file after file and line after
    line. *)
Definition expected_diagnostics (contents_callback : str -> bytes)
  : list Diagnostic :=
  flat_map (fun lang =>
              file_diagnostics (lang_path lang) 0
                (file_lines (contents_callback (lang_path lang))))
           _LANGS.

(** What one decoded line does to the table. *)
Definition row_strings (lang row : str) (strings : table) : table :=
  match re_split_sep (strip row) with
  | [key; value] =>
      let strings := if dmem key strings then strings
                     else dset key [] strings in
      match match_value value with
      | Some g =>
          setitem2 key lang (replace2 BACKSLASH QUOTE [QUOTE] g) strings
      | None => strings
      end
  | _ => strings
  end.

Fixpoint lines_strings (lang : str) (lines : list bytes) (strings : table)
  : table :=
  match lines with
  | [] => strings
  | l :: rest =>
      lines_strings lang rest
        match decode l with
        | Some row => row_strings lang row strings
        | None => strings
        end
  end.

(** The table built from the source files, before the auxiliary keys are
    removed. *)
Definition parsed_strings (contents_callback : str -> bytes) : table :=
  fold_left (fun strings lang =>
               lines_strings lang
                 (file_lines (contents_callback (lang_path lang))) strings)
            _LANGS [].

(** [strings[key][lang]] when both are present. *)
Definition lookup2 (strings : table) (key lang : str) : option str :=
  match dget key strings with
  | Some values => dget lang values
  | None => None
  end.

(** A line fails: it decodes and its text fails the split or the
    pattern. *)
Definition line_fails (l : bytes) : bool :=
  match decode l with
  | Some row => row_fails row
  | None => false
  end.

(** All the lines of the language source files. *)
Definition source_lines (contents_callback : str -> bytes) : list bytes :=
  flat_map (fun lang => file_lines (contents_callback (lang_path lang)))
           _LANGS.

(** The line of [key] in the sorted rendering, without its line feed. *)
Definition sorted_row (lang : str) (strings : table) (key : str) : str :=
  key ++ lit " = " ++ [QUOTE]
  ++ replace1 QUOTE [BACKSLASH; QUOTE] (getitem2 strings key lang)
  ++ [QUOTE].

(** The source files that hold the sorted rendering of [strings]. *)
Definition encoded (s : str) : bytes :=
  match encode s with
  | Some b => b
  | None => []
  end.

Definition rendered_sources (strings : table) (path : str) : bytes :=
  match find (fun lang => str_eqb path (lang_path lang)) _LANGS with
  | Some lang => encoded (_generate_sorted lang strings)
  | None => []
  end.

(** The keys and values that the sorted source format can carry. *)

(** Some [=] of [k] has a white-space character directly before it and a
    white-space character, or the end of [k], directly after it. *)
Fixpoint has_spaced_eq (k : str) : bool :=
  match k with
  | w :: t =>
      match t with
      | e :: r =>
          (isspace w && (e =? 61)
           && match r with [] => true | x :: _ => isspace x end)
          || has_spaced_eq t
      | [] => false
      end
  | [] => false
  end.

Definition encodable (s : str) : bool :=
  forallb (fun c => match encode_char c with Some _ => true | None => false end)
          s.

Definition plain_value (v : str) : bool :=
  forallb (fun c => negb (c =? LF)) v.

(** A key that its line of the sorted rendering carries: it is not empty,
    has no white space at either end, holds no line feed and no spaced
    [=], and does not begin with badge_. *)
Definition round_trip_key (k : str) : bool :=
  negb (str_eqb k []) && str_eqb (strip k) k && plain_value k
  && negb (has_spaced_eq k) && negb (startswith k (lit "badge_")).

Definition str_eq_dec : forall a b : str, {a = b} + {a <> b} :=
  list_eq_dec N.eq_dec.

Definition text_eq_dec (x y : text) : {x = y} + {x <> y}.
Proof. repeat decide equality. Defined.

Definition Diagnostic_eq_dec (x y : Diagnostic) : {x = y} + {x <> y}.
Proof. repeat decide equality. Defined.

(** ** Sample inputs *)

Definition sample_table : table :=
  [ (lit "hi",
     [(lit "en", lit "Hi!"); (lit "es", lit "Hola"); (lit "pt", lit "Oi")]);
    (lit "locale",
     [(lit "en", lit "en"); (lit "es", lit "es"); (lit "pt", lit "pt")]) ].

Definition sample_checked : table :=
  fst (_check_missing_entries (fun l => l) sample_table _LANGS).

Definition sample_incomplete : table :=
  [ (lit "greeting", [(lit "en", lit "Hello"); (lit "es", lit "Hola")]) ].

(** A table with a text stored with escapes (backslash-quote twice and
    backslash-n) and a text with a character outside ASCII. *)
Definition escaped_table : table :=
  [ (lit "b_key", [(lit "en", lit "A" ++ [241] ++ lit "o")]);
    (lit "a_key",
     [(lit "en",
       lit "say " ++ [BACKSLASH; QUOTE] ++ lit "hi" ++ [BACKSLASH; QUOTE]
       ++ [BACKSLASH; 110])]) ].

(** A table whose keys hold white space and [=]. *)
Definition spaced_key_table : table :=
  [ (lit "j k",
     [(lit "en", lit "x"); (lit "es", lit "y"); (lit "pt", lit "z")]);
    (lit "e =f",
     [(lit "en", lit "u = v"); (lit "es", lit "v"); (lit "pt", lit "w")]) ].

(** A table whose text for en holds a line feed. *)
Definition newline_table : table :=
  [ (lit "x",
     [(lit "en", lit "a" ++ [LF] ++ lit "b"); (lit "es", lit "c");
      (lit "pt", lit "d")]) ].

(** The bytes of a source line [key = QUOTE value QUOTE] (ASCII). *)
Definition kv_line (key value : str) : bytes :=
  key ++ lit " = " ++ [QUOTE] ++ value ++ [QUOTE; LF].

(** A contents callback over the three language source files; every
    other path is empty. *)
Definition sources (en es pt : bytes) (path : str) : bytes :=
  if str_eqb path (lang_path (lit "en")) then en
  else if str_eqb path (lang_path (lit "es")) then es
  else if str_eqb path (lang_path (lit "pt")) then pt
  else [].

(** The key k twice in the file of en. *)
Definition duplicate_sources : str -> bytes :=
  sources (kv_line (lit "k") (lit "a") ++ kv_line (lit "k") (lit "b")) [] [].

(** The key badge_x twice in the file of en. *)
Definition duplicate_badge_sources : str -> bytes :=
  sources (kv_line (lit "badge_x") (lit "a")
           ++ kv_line (lit "badge_x") (lit "b")) [] [].

(** A well-formed line followed by a line without separator. *)
Definition bad_line_sources : str -> bytes :=
  sources (kv_line (lit "a") (lit "x") ++ lit "oops" ++ [LF]) [] [].

(** A well-formed line followed by a line that is not UTF-8. *)
Definition undecodable_sources : str -> bytes :=
  sources (kv_line (lit "a") (lit "x") ++ [255; LF]) [] [].

(** Source files with a stale auxiliary key, and one item x of the
    auxiliary source. *)
Definition stale_badge_sources : str -> bytes :=
  sources (kv_line (lit "hi") (lit "Hi!")
           ++ kv_line (lit "badge_x_name") (lit "stale"))
          (kv_line (lit "hi") (lit "Hola"))
          (kv_line (lit "hi") (lit "Oi")).

Definition sample_badge : dict (dict str) :=
  [ (lit "en", [(lit "name", lit "X"); (lit "description", lit "An x")]);
    (lit "es", [(lit "name", lit "X"); (lit "description", lit "Una x")]);
    (lit "pt", [(lit "name", lit "X"); (lit "description", lit "Um x")]) ].

(** Every artifact on disk is empty, or is the single byte 0xFF. *)
Definition empty_disk (path : str) : bytes := [].
Definition corrupt_disk (path : str) : bytes := [255].

(** ** Tactics *)

(** Case analysis on the comparisons of the goal, and the comparisons of
    the context as inequalities. *)
Ltac cmp_cases :=
  repeat match goal with
         | |- context [?a <? ?b] => destruct (N.ltb_spec a b); try lia
         | |- context [?a <=? ?b] => destruct (N.leb_spec a b); try lia
         end.

Ltac cmp_hyps :=
  repeat match goal with
         | H : _ && _ = true |- _ => apply andb_true_iff in H as [? ?]
         | H : negb _ = true |- _ => apply negb_true_iff in H
         | H : _ && _ = false |- _ => apply andb_false_iff in H
         | H : (_ <? _) = true |- _ => apply N.ltb_lt in H
         | H : (_ <? _) = false |- _ => apply N.ltb_ge in H
         | H : (_ <=? _) = true |- _ => apply N.leb_le in H
         | H : (_ <=? _) = false |- _ => apply N.leb_gt in H
         end.

(** ** Further definitions *)

(** [os.path.join(_BADGES_PATH, alias, 'localizations.json')] *)
Definition badge_path (alias : str) : str :=
  path_join (path_join _BADGES_PATH alias) (lit "localizations.json").

(** The document of an item holds, for [lang], the two fields. *)
Definition badge_fields (contents : dict (dict str)) (lang name desc : str)
  : Prop :=
  exists entry,
    dget lang contents = Some entry
    /\ dget (lit "name") entry = Some name
    /\ dget (lit "description") entry = Some desc.

(** A document of the auxiliary format without the pt entry. *)
Definition two_language_badge : dict (dict str) :=
  [(lit "en", [(lit "name", lit "X"); (lit "description", lit "An x")]);
   (lit "es", [(lit "name", lit "X"); (lit "description", lit "Una x")])].

(** A table with two complete entries followed by an incomplete one. *)
Definition mixed_table : table := sample_table ++ sample_incomplete.

Definition hi_values : dict str :=
  [(lit "en", lit "Hi!"); (lit "es", lit "Hola"); (lit "pt", lit "Oi")].

(** The files as they are once the replacement contents [new] have been
    written over the contents that [contents_callback] gave. *)
Definition overlay (new : dict bytes) (contents_callback : str -> bytes)
  : str -> bytes :=
  fun path =>
    match dget path new with
    | Some b => b
    | None => contents_callback path
    end.

(** The two maps that the drift detection gives for the checked sample
    table when every artifact on disk is empty. *)
Definition sample_drift : dict bytes * dict bytes :=
  match _generate_new_contents sample_checked empty_disk with
  | Ok maps => maps
  | Raise _ => ([], [])
  end.

(** The result of a run on the sample sources with one badge x. *)
Definition sample_run : MultipleResults :=
  match run_all (fun l => l) [lit "x"] (fun _ => Ok sample_badge)
          stale_badge_sources with
  | Ok res => res
  | Raise _ => mkMultipleResults [] [] []
  end.

(** * Properties *)

(** ** Strings *)

Lemma str_eqb_eq (a b : str) : str_eqb a b = true <-> a = b.
Proof.
  revert b; induction a as [|x a IH]; intros [|y b]; simpl;
    try (split; (discriminate || reflexivity)).
  rewrite andb_true_iff, N.eqb_eq, IH.
  split; [intros [-> ->]; reflexivity | intros H; injection H; auto].
Qed.

Lemma str_eqb_refl (a : str) : str_eqb a a = true.
Proof. apply str_eqb_eq; reflexivity. Qed.

Lemma str_eqb_neq (a b : str) : str_eqb a b = false <-> a <> b.
Proof.
  rewrite <- str_eqb_eq. destruct (str_eqb a b); split; congruence.
Qed.

Lemma startswith_app (p s : str) : startswith (p ++ s) p = true.
Proof. induction p; simpl; [reflexivity | now rewrite N.eqb_refl]. Qed.

Lemma startswith_prefix (s p : str) :
  startswith s p = true -> exists r, s = p ++ r.
Proof.
  revert s; induction p as [|x p IH]; intros s H; simpl in *.
  - now exists s.
  - destruct s as [|y s]; [discriminate|].
    apply andb_true_iff in H as [E H]. apply N.eqb_eq in E; subst y.
    destruct (IH _ H) as [r ->]. now exists r.
Qed.

Lemma endswith_app (s p : str) : endswith (s ++ p) p = true.
Proof. unfold endswith. rewrite rev_app_distr. apply startswith_app. Qed.

(** ** The placeholder pattern and the split *)

Lemma take_skip_ident (s : str) : take_ident s ++ skip_ident s = s.
Proof.
  induction s as [|c s IH]; simpl; [reflexivity|].
  destruct (is_ident c); simpl; [now rewrite IH | reflexivity].
Qed.

Lemma skip_ident_take (s t : str) :
  skip_ident s = 41 :: t -> skip_ident (take_ident s ++ [41]) = [41].
Proof.
  induction s as [|c s IH]; simpl; [discriminate|].
  destruct (is_ident c) eqn:E; simpl.
  - rewrite E. exact IH.
  - reflexivity.
Qed.

Lemma match_placeholder_spec (s tok : str) :
  match_placeholder s = Some tok ->
  is_placeholder tok = true /\ exists rest, s = tok ++ rest.
Proof.
  unfold match_placeholder.
  destruct s as [|a [|b [|c r]]]; try discriminate.
  destruct ((a =? 37) && (b =? 40) && is_ident c) eqn:G; [|discriminate].
  destruct (skip_ident r) as [|d t] eqn:K; [discriminate|].
  destruct (d =? 41) eqn:D; [|discriminate].
  intros H; injection H as <-. apply N.eqb_eq in D; subst d.
  split.
  - unfold is_placeholder. rewrite G, (skip_ident_take _ _ K). reflexivity.
  - exists t. simpl. rewrite <- app_assoc. simpl. rewrite <- K.
    now rewrite take_skip_ident.
Qed.

Lemma re_split_from_skipn (n : nat) (s : str) :
  re_split_from n s = re_split_from 0 (skipn n s).
Proof.
  revert n; induction s as [|c r IH]; intros [|n]; simpl; try reflexivity.
  apply IH.
Qed.

Lemma re_split_from_0_cons (c : char) (r : str) :
  re_split_from 0 (c :: r) =
  match match_placeholder (c :: r) with
  | Some tok => [] :: tok :: re_split_from (List.length tok - 1) r
  | None => match re_split_from 0 r with
            | first :: others => (c :: first) :: others
            | [] => [[c]]
            end
  end.
Proof. reflexivity. Qed.

Lemma re_split_from_nonempty (n : nat) (s : str) : re_split_from n s <> [].
Proof.
  revert n; induction s as [|c r IH]; intros n; [simpl; discriminate|].
  destruct n; [|simpl; apply IH].
  rewrite re_split_from_0_cons.
  destruct (match_placeholder (c :: r)); [discriminate|].
  destruct (re_split_from 0 r); discriminate.
Qed.

Lemma skip_ident_app (r x rest : str) :
  skip_ident r = 41 :: x -> skip_ident (r ++ rest) = 41 :: x ++ rest.
Proof.
  induction r as [|c r IH]; simpl; [discriminate|].
  destruct (is_ident c); [exact IH|].
  intros H. injection H as -> ->. reflexivity.
Qed.

Lemma match_placeholder_none (s tok : str) :
  match_placeholder s = None -> ~ token_prefix s tok.
Proof.
  intros M [P [rest E]]. subst s. unfold is_placeholder in P.
  destruct tok as [|a [|b [|c r]]]; try discriminate.
  apply andb_true_iff in P as [G K]. apply str_eqb_eq in K.
  cbn [app] in M. unfold match_placeholder in M. rewrite G in M.
  rewrite (skip_ident_app r [] rest K) in M.
  change (41 =? 41) with true in M. discriminate.
Qed.

Lemma split_cons_char (c : char) (r first : str) (others : list str) :
  match_placeholder (c :: r) = None ->
  split_at_tokens r (first :: others) ->
  split_at_tokens (c :: r) ((c :: first) :: others).
Proof.
  intros M H. inversion H as [t N|t tok rest segs P N S]; subst.
  - apply split_none. intros [|x pre] post tok E.
    + simpl in E. subst post. now apply match_placeholder_none.
    + simpl in E. injection E as _ E. now apply (N pre post tok).
  - change (c :: first ++ tok ++ rest) with ((c :: first) ++ tok ++ rest).
    apply split_token; try assumption.
    intros [|x pre] post tok' E NE.
    + simpl in E. subst post. now apply match_placeholder_none.
    + simpl in E. injection E as _ E. now apply (N pre post tok').
Qed.

Lemma split_concat (s : str) (segs : list str) :
  split_at_tokens s segs -> concat segs = s.
Proof.
  induction 1 as [t N|t tok rest segs P N S IH]; simpl.
  - apply app_nil_r.
  - now rewrite IH.
Qed.

Lemma re_split_sound_len (n : nat) (s : str) :
  (List.length s <= n)%nat -> split_at_tokens s (re_split_placeholder s).
Proof.
  unfold re_split_placeholder.
  revert s; induction n as [|n IH]; intros s Hn.
  - destruct s; [|simpl in Hn; lia]. simpl. apply split_none.
    intros pre post tok E [P [rest E']].
    symmetry in E. apply app_eq_nil in E as [_ ->].
    destruct tok; [discriminate | discriminate].
  - destruct s as [|c r].
    { simpl. apply split_none. intros pre post tok E [P [rest E']].
      symmetry in E. apply app_eq_nil in E as [_ ->].
      destruct tok; discriminate. }
    simpl in Hn. rewrite re_split_from_0_cons.
    destruct (match_placeholder (c :: r)) as [tok|] eqn:M.
    + destruct (match_placeholder_spec _ _ M) as [P [rest E]].
      destruct tok as [|c' tok]; [discriminate|].
      simpl in E. injection E as <- ->.
      rewrite re_split_from_skipn.
      replace (skipn (List.length (c :: tok) - 1) (tok ++ rest)) with rest.
      2:{ simpl. rewrite Nat.sub_0_r. rewrite skipn_app, skipn_all, Nat.sub_diag.
          reflexivity. }
      change (c :: tok ++ rest) with ([] ++ (c :: tok) ++ rest).
      apply split_token; [assumption| |].
      * intros pre post tok' E NE. symmetry in E.
        apply app_eq_nil in E as [_ E]. contradiction.
      * apply IH. rewrite length_app in Hn. lia.
    + pose proof (IH r ltac:(lia)) as S.
      destruct (re_split_from 0 r) as [|first others] eqn:R.
      { now apply re_split_from_nonempty in R. }
      now apply split_cons_char.
Qed.

Lemma re_split_sound (s : str) : split_at_tokens s (re_split_placeholder s).
Proof. apply (re_split_sound_len (List.length s)). lia. Qed.

Lemma translate_subst (s : str) :
  translate (maketrans (lit "elsot") (lit "31507")) s = map subst_char s.
Proof.
  unfold translate. apply map_ext. intros c. unfold subst_char.
  change (maketrans (lit "elsot") (lit "31507"))
    with [(101, 51); (108, 49); (115, 53); (111, 48); (116, 55)].
  cbn [table_get].
  repeat (match goal with |- context [?x =? ?y] => destruct (x =? y) end;
          [reflexivity|]).
  reflexivity.
Qed.

Lemma placeholder_looks_like_token (t : str) :
  is_placeholder t = true -> looks_like_token t = true.
Proof.
  unfold is_placeholder, looks_like_token.
  destruct t as [|a [|b [|c r]]]; try discriminate.
  rewrite !andb_true_iff, !N.eqb_eq, str_eqb_eq.
  intros [[[-> ->] _] K].
  split; [reflexivity|].
  rewrite <- (take_skip_ident r), K.
  change (37 :: 40 :: c :: take_ident r ++ [41])
    with ((37 :: 40 :: c :: take_ident r) ++ lit ")").
  apply endswith_app.
Qed.

(** C1 (as amended).  For every input, the list of segments is the split
    of the input at its successive leftmost placeholder tokens, the tokens
    retained, and its concatenation is the input; the output is the
    concatenation, between one pair of parentheses, of the images of the
    segments, where a segment that starts with a percent sign and an
    opening parenthesis and ends with a closing parenthesis is kept (every
    segment that is exactly a placeholder token is such a segment) and any
    other segment has e, l, s, o, t replaced by 3, 1, 5, 0, 7 in each of
    its characters, every other character being unchanged; the output is
    the one the pattern test would give whenever every kept segment is
    exactly a placeholder token. *)
Theorem C1_pseudoloc_segments (original : str) :
  let segs := re_split_placeholder original in
  split_at_tokens original segs /\ concat segs = original
  /\ _pseudoloc original =
       lit "(" ++ concat (map (fun t => if looks_like_token t then t
                                        else map subst_char t) segs)
       ++ lit ")"
  /\ (forall t, is_placeholder t = true -> looks_like_token t = true)
  /\ (forall c, subst_char c =
                if c =? 101 then 51 else if c =? 108 then 49
                else if c =? 115 then 53 else if c =? 111 then 48
                else if c =? 116 then 55 else c)
  /\ ((forall t, In t segs -> looks_like_token t = true ->
                 is_placeholder t = true) ->
      _pseudoloc original = pseudoloc_by_pattern original).
Proof.
  intros segs. pose proof (re_split_sound original) as S.
  assert (_pseudoloc original =
          lit "(" ++ concat (map (fun t => if looks_like_token t then t
                                           else map subst_char t) segs)
          ++ lit ")") as E.
  { unfold _pseudoloc. fold segs. do 3 f_equal.
    apply map_ext. intros t. unfold looks_like_token.
    now rewrite translate_subst. }
  split; [exact S|]. split; [now apply split_concat|]. split; [exact E|].
  split; [apply placeholder_looks_like_token|]. split; [reflexivity|].
  intros H. rewrite E. unfold pseudoloc_by_pattern. fold segs.
  do 3 f_equal. apply map_ext_in. intros t Ht.
  destruct (looks_like_token t) eqn:L.
  - now rewrite (H t Ht L).
  - destruct (is_placeholder t) eqn:P; [|reflexivity].
    apply placeholder_looks_like_token in P. congruence.
Qed.

(** C1 as stated fails: the text [%(the test)] holds no placeholder token
    (a space is not an identifier character), so it is one segment that
    is not a placeholder token, yet none of its characters is
    substituted. *)
Lemma C1_counterexample :
  ~ (forall original, _pseudoloc original = pseudoloc_by_pattern original).
Proof.
  intros H. specialize (H (lit "%(the test)")). vm_compute in H. discriminate.
Qed.

(** ** Dictionaries *)

Lemma dget_dset_eq {V} (k : str) (v : V) (d : dict V) :
  dget k (dset k v d) = Some v.
Proof.
  induction d as [|[k' v'] d IH]; simpl.
  - now rewrite str_eqb_refl.
  - destruct (str_eqb k k') eqn:E; simpl.
    + now rewrite str_eqb_refl.
    + now rewrite E.
Qed.

Lemma dget_dset_neq {V} (k k' : str) (v : V) (d : dict V) :
  k' <> k -> dget k' (dset k v d) = dget k' d.
Proof.
  intros N. induction d as [|[k2 v2] d IH]; simpl.
  - apply str_eqb_neq in N. now rewrite N.
  - destruct (str_eqb k k2) eqn:E; simpl.
    + apply str_eqb_eq in E; subst k2.
      apply str_eqb_neq in N. now rewrite N.
    + destruct (str_eqb k' k2); [reflexivity | exact IH].
Qed.

Lemma dmem_dget {V} (k : str) (d : dict V) :
  dmem k d = true <-> exists v, dget k d = Some v.
Proof.
  unfold dmem, dkeys. induction d as [|[k' v'] d IH]; simpl.
  - split; [discriminate | intros [v H]; discriminate].
  - destruct (str_eqb k k'); simpl; [|exact IH].
    split; [intros _; now exists v' | reflexivity].
Qed.

Lemma dmem_false_dget {V} (k : str) (d : dict V) :
  dmem k d = false <-> dget k d = None.
Proof.
  pose proof (dmem_dget k d) as [H1 H2].
  destruct (dmem k d).
  - destruct (H1 eq_refl) as [v E]. rewrite E. split; discriminate.
  - destruct (dget k d) as [v|]; [|tauto].
    assert (false = true) by (apply H2; now exists v). discriminate.
Qed.

Lemma dget_In {V} (k : str) (v : V) (d : dict V) :
  dget k d = Some v -> In (k, v) d.
Proof.
  induction d as [|[k' v'] d IH]; simpl; [discriminate|].
  destruct (str_eqb k k') eqn:E.
  - apply str_eqb_eq in E; subst. intros H; injection H as ->. now left.
  - intros H. right. now apply IH.
Qed.

Lemma In_dget {V} (k : str) (v : V) (d : dict V) :
  NoDup (dkeys d) -> In (k, v) d -> dget k d = Some v.
Proof.
  unfold dkeys. induction d as [|[k' v'] d IH]; simpl; [tauto|].
  intros ND [H|H].
  - injection H as -> ->. now rewrite str_eqb_refl.
  - inversion ND as [|? ? NI ND']; subst.
    destruct (str_eqb k k') eqn:E.
    + apply str_eqb_eq in E; subst k'. exfalso. apply NI.
      apply (in_map fst) in H. exact H.
    + now apply IH.
Qed.

Lemma dkeys_dset {V} (k k' : str) (v : V) (d : dict V) :
  In k' (dkeys (dset k v d)) <-> k' = k \/ In k' (dkeys d).
Proof.
  unfold dkeys. induction d as [|[k2 v2] d IH]; simpl.
  - intuition.
  - destruct (str_eqb k k2) eqn:E; simpl.
    + apply str_eqb_eq in E; subst k2. intuition.
    + rewrite IH. intuition.
Qed.

Lemma dset_NoDup {V} (k : str) (v : V) (d : dict V) :
  NoDup (dkeys d) -> NoDup (dkeys (dset k v d)).
Proof.
  unfold dkeys. induction d as [|[k2 v2] d IH]; simpl; intros ND.
  - constructor; [tauto | constructor].
  - inversion ND as [|? ? NI ND']; subst.
    destruct (str_eqb k k2) eqn:E; simpl.
    + apply str_eqb_eq in E; subst k2. now constructor.
    + constructor; [|now apply IH].
      intros H. apply (dkeys_dset k k2 v d) in H as [H|H]; [|tauto].
      subst k2. now rewrite str_eqb_refl in E.
Qed.

Lemma dmem_dset {V} (k k' : str) (v : V) (d : dict V) :
  dmem k' (dset k v d) = str_eqb k' k || dmem k' d.
Proof.
  destruct (str_eqb k' k) eqn:E; simpl.
  - apply str_eqb_eq in E; subst. apply dmem_dget. eexists.
    apply dget_dset_eq.
  - apply str_eqb_neq in E.
    destruct (dmem k' d) eqn:M.
    + apply dmem_dget in M as [w M]. apply dmem_dget. exists w.
      now rewrite dget_dset_neq.
    + apply dmem_false_dget in M. apply dmem_false_dget.
      now rewrite dget_dset_neq.
Qed.

(** ** The consistency checker *)

Section Checker.

Variable set_iter : list str -> list str.
Hypothesis set_iter_perm : forall l, Permutation (set_iter l) l.

Lemma check_items_spec (languages : list str) (items : table)
  (ds : list Diagnostic) :
  check_items set_iter languages items ds =
  (map (entry_checked set_iter languages) items,
   ds ++ flat_map (entry_diagnostics set_iter languages) items).
Proof.
  revert ds; induction items as [|[key values] items IH]; intros ds; simpl.
  - now rewrite app_nil_r.
  - unfold entry_checked, entry_diagnostics at 1. simpl.
    destruct (missing_languages set_iter languages values) as [|m ms] eqn:M.
    + rewrite IH. reflexivity.
    + rewrite IH. rewrite <- app_assoc. reflexivity.
Qed.

Lemma missing_nil (languages : list str) (values : dict str) :
  missing_languages set_iter languages values = [] <->
  forall lang, In lang languages -> dmem lang values = true.
Proof.
  unfold missing_languages. split.
  - intros E lang Hin.
    pose proof (set_iter_perm (filter (fun l => negb (dmem l values)) languages))
      as P.
    rewrite E in P. apply Permutation_nil in P.
    destruct (dmem lang values) eqn:D; [reflexivity|].
    assert (In lang (filter (fun l => negb (dmem l values)) languages)) as F.
    { apply filter_In. now rewrite D. }
    rewrite P in F. destruct F.
  - intros H.
    assert (filter (fun l => negb (dmem l values)) languages = []) as ->.
    { induction languages as [|l ls IH]; simpl; [reflexivity|].
      rewrite (H l (or_introl eq_refl)). simpl. apply IH.
      intros; apply H; now right. }
    apply Permutation_nil. apply Permutation_sym. apply set_iter_perm.
Qed.

Lemma add_pseudo_pseudo (key : str) (values : dict str) :
  dget (lit "pseudo") (add_pseudo key values) =
  Some (if str_eqb key (lit "locale") then lit "pseudo"
        else _pseudoloc (fst (dd_getitem (lit "en") values))).
Proof.
  unfold add_pseudo. destruct (str_eqb key (lit "locale")).
  - apply dget_dset_eq.
  - destruct (dd_getitem (lit "en") values) as [en vs]. apply dget_dset_eq.
Qed.

Lemma add_pseudo_keeps (key lang : str) (values : dict str) :
  dmem lang values = true -> dmem lang (add_pseudo key values) = true.
Proof.
  intros H. unfold add_pseudo, dd_getitem.
  destruct (str_eqb key (lit "locale")).
  - rewrite dmem_dset, H. apply orb_true_r.
  - destruct (dget (lit "en") values); rewrite ?dmem_dset, H;
      now rewrite ?orb_true_r.
Qed.

Lemma entry_checked_fst (languages : list str) (kv : str * dict str) :
  fst (entry_checked set_iter languages kv) = fst kv.
Proof.
  unfold entry_checked.
  now destruct (missing_languages set_iter languages (snd kv)).
Qed.

Lemma dget_checked (languages : list str) (k : str) (items : table) :
  dget k (map (entry_checked set_iter languages) items) =
  option_map (fun v => snd (entry_checked set_iter languages (k, v)))
             (dget k items).
Proof.
  induction items as [|[k' v'] items IH]; simpl; [reflexivity|].
  pose proof (entry_checked_fst languages (k', v')) as F.
  destruct (entry_checked set_iter languages (k', v')) as [k2 v2] eqn:E.
  simpl in F; subst k2.
  destruct (str_eqb k k') eqn:K; [|exact IH].
  apply str_eqb_eq in K; subst k'. simpl. now rewrite E.
Qed.

Lemma check_fst (strings : table) (languages : list str) :
  fst (_check_missing_entries set_iter strings languages) =
  map (entry_checked set_iter languages) strings.
Proof.
  unfold _check_missing_entries. now rewrite check_items_spec.
Qed.

Lemma check_snd (strings : table) (languages : list str) :
  snd (_check_missing_entries set_iter strings languages) =
  match flat_map (entry_diagnostics set_iter languages) strings with
  | [] => Ok tt
  | (_ :: _) as ds =>
      Raise (LinterException (lit "There are missing items in some files")
               None ds)
  end.
Proof.
  unfold _check_missing_entries. rewrite check_items_spec. simpl.
  now destruct (flat_map (entry_diagnostics set_iter languages) strings).
Qed.

Lemma flat_map_nil {A B} (f : A -> list B) (l : list A) :
  flat_map f l = [] -> forall x, In x l -> f x = [].
Proof.
  induction l as [|a l IH]; simpl; [tauto|].
  intros E x [->|H].
  - now destruct (f x).
  - apply IH; [|assumption]. destruct (f a); [assumption | discriminate].
Qed.

(** C2.  When the consistency checker completes without raising, the keys
    of the table are unchanged and every entry holds a text for each of en,
    es, pt and for pseudo. *)
Theorem C2_checked_table_complete (strings strings' : table) :
  _check_missing_entries set_iter strings _LANGS = (strings', Ok tt) ->
  dkeys strings' = dkeys strings /\
  forall key values, In (key, values) strings' ->
  forall lang, In lang (_LANGS ++ [lit "pseudo"]) ->
  exists v, dget lang values = Some v.
Proof.
  intros H.
  pose proof (check_fst strings _LANGS) as F.
  pose proof (check_snd strings _LANGS) as R.
  rewrite H in F, R. simpl in F, R. subst strings'.
  split.
  - unfold dkeys. rewrite map_map. apply map_ext. intros kv.
    apply entry_checked_fst.
  - intros key values Hin lang Hl.
    destruct (flat_map (entry_diagnostics set_iter _LANGS) strings) eqn:D;
      [|discriminate].
    apply in_map_iff in Hin as [[k vs] [E Hin]].
    pose proof (flat_map_nil _ _ D _ Hin) as M.
    unfold entry_diagnostics in M. simpl in M.
    apply map_eq_nil in M.
    unfold entry_checked in E. simpl in E. rewrite M in E.
    injection E as <- <-.
    apply in_app_or in Hl as [Hl|[<-|[]]].
    + apply dmem_dget. apply add_pseudo_keeps.
      now apply (proj1 (missing_nil _ _) M).
    + eexists. apply add_pseudo_pseudo.
Qed.

Lemma pseudoloc_head (s : str) : exists r, _pseudoloc s = 40 :: r.
Proof. unfold _pseudoloc. simpl. eexists. reflexivity. Qed.

(** C6.  When the key locale has a text for each of en, es, pt, the table
    that the consistency checker leaves (whether or not the call raises for
    other keys) maps locale, for pseudo, to the literal pseudo, whatever
    its other texts are; this literal is the transform of no text. *)
Theorem C6_locale_is_pseudo (strings : table) (values : dict str) :
  dget (lit "locale") strings = Some values ->
  (forall lang, In lang _LANGS -> dmem lang values = true) ->
  (exists values',
     dget (lit "locale")
          (fst (_check_missing_entries set_iter strings _LANGS))
     = Some values'
     /\ dget (lit "pseudo") values' = Some (lit "pseudo"))
  /\ forall en, _pseudoloc en <> lit "pseudo".
Proof.
  intros G A. split.
  - rewrite check_fst, dget_checked, G. simpl.
    eexists. split; [reflexivity|].
    unfold entry_checked. simpl.
    rewrite (proj2 (missing_nil _LANGS values) A). simpl.
    apply add_pseudo_pseudo.
  - intros en. destruct (pseudoloc_head en) as [r ->]. discriminate.
Qed.

(** *** Counting the diagnostics of a key *)

Lemma path_join_templates (b : str) :
  path_join _TEMPLATES_PATH b =
  if startswith b (lit "/") then b else _TEMPLATES_PATH ++ lit "/" ++ b.
Proof. unfold path_join. now destruct (startswith b (lit "/")). Qed.

Lemma path_join_templates_inj (a b : str) :
  path_join _TEMPLATES_PATH a = path_join _TEMPLATES_PATH b -> a = b.
Proof.
  rewrite !path_join_templates.
  destruct (startswith a (lit "/")) eqn:A, (startswith b (lit "/")) eqn:B;
    intros E.
  - exact E.
  - subst a. discriminate.
  - subst b. discriminate.
  - rewrite !app_assoc in E. now apply app_inv_head in E.
Qed.

Lemma missing_diagnostic_inj (key a b : str) :
  missing_diagnostic key a = missing_diagnostic key b -> a = b.
Proof.
  unfold missing_diagnostic. intros E. injection E as E.
  apply path_join_templates_inj in E. now apply app_inv_tail in E.
Qed.

Lemma missing_diagnostic_key (k k' a b : str) :
  missing_diagnostic k a = missing_diagnostic k' b -> k = k'.
Proof. unfold missing_diagnostic. intros E. now injection E. Qed.

Lemma count_filter_NoDup (p : str -> bool) (l : list str) (x : str) :
  NoDup l -> In x l ->
  count_occ str_eq_dec (filter p l) x = if p x then 1%nat else 0%nat.
Proof.
  intros ND Hin.
  destruct (p x) eqn:P.
  - apply NoDup_count_occ'; [now apply NoDup_filter | now apply filter_In].
  - apply count_occ_not_In. rewrite filter_In. intros [_ H]; congruence.
Qed.

Lemma entry_count (languages : list str) (key lang : str) (values : dict str) :
  NoDup languages -> In lang languages ->
  count_occ Diagnostic_eq_dec
    (entry_diagnostics set_iter languages (key, values))
    (missing_diagnostic key lang)
  = if dmem lang values then 0%nat else 1%nat.
Proof.
  intros ND Hin. unfold entry_diagnostics, missing_languages. simpl.
  rewrite <- (count_occ_map (missing_diagnostic key) str_eq_dec
                Diagnostic_eq_dec (missing_diagnostic_inj key)).
  rewrite (proj1 (Permutation_count_occ str_eq_dec _ _) (set_iter_perm _)).
  rewrite count_filter_NoDup by assumption.
  now destruct (dmem lang values).
Qed.

Lemma other_keys_count (languages : list str) (key lang : str) (items : table) :
  ~ In key (dkeys items) ->
  count_occ Diagnostic_eq_dec
    (flat_map (entry_diagnostics set_iter languages) items)
    (missing_diagnostic key lang) = 0%nat.
Proof.
  intros NI. apply count_occ_not_In. intros H.
  apply in_flat_map in H as [[k vs] [Hin H]].
  unfold entry_diagnostics in H. simpl in H.
  apply in_map_iff in H as [l [E _]].
  apply missing_diagnostic_key in E. subst k.
  apply NI. apply (in_map fst) in Hin. exact Hin.
Qed.

Lemma table_count (languages : list str) (key lang : str) (values : dict str)
  (items : table) :
  NoDup languages -> In lang languages ->
  NoDup (dkeys items) -> In (key, values) items ->
  count_occ Diagnostic_eq_dec
    (flat_map (entry_diagnostics set_iter languages) items)
    (missing_diagnostic key lang)
  = if dmem lang values then 0%nat else 1%nat.
Proof.
  intros NDl Hl. unfold dkeys.
  induction items as [|[k vs] items IH]; simpl; [tauto|].
  intros ND Hin. inversion ND as [|? ? NI ND']; subst.
  rewrite count_occ_app.
  destruct Hin as [E|Hin].
  - injection E as -> ->.
    rewrite entry_count by assumption.
    rewrite other_keys_count by assumption. lia.
  - rewrite IH by assumption.
    assert (k <> key) as NE.
    { intros ->. apply NI. apply (in_map fst) in Hin. exact Hin. }
    assert (count_occ Diagnostic_eq_dec
              (entry_diagnostics set_iter languages (k, vs))
              (missing_diagnostic key lang) = 0%nat) as ->; [|reflexivity].
    apply count_occ_not_In.
    intros H. unfold entry_diagnostics in H. simpl in H.
    apply in_map_iff in H as [l [E _]].
    apply missing_diagnostic_key in E. congruence.
Qed.

(** C5.  For every key of the table that lacks one of en, es, pt, the
    consistency checker raises the missing-entries error; the diagnostics
    it carries hold exactly one diagnostic for this key and each language
    it lacks and none for a language it has, the diagnostic names the key
    and refers to the source path of the missing language, the entry of the
    key is left as it was (no pseudo text is added), and every diagnostic
    carried is the diagnostic of some key and of a language that key
    lacks. *)
Theorem C5_missing_language_diagnostics (strings : table) (key : str)
  (values : dict str) :
  NoDup (dkeys strings) -> In (key, values) strings ->
  (exists lang, In lang _LANGS /\ dmem lang values = false) ->
  exists ds,
    snd (_check_missing_entries set_iter strings _LANGS)
    = Raise (LinterException (lit "There are missing items in some files")
               None ds)
    /\ (forall lang, In lang _LANGS ->
          count_occ Diagnostic_eq_dec ds (missing_diagnostic key lang)
          = (if dmem lang values then 0%nat else 1%nat)
          /\ message (missing_diagnostic key lang)
             = WithRepr (lit "Missing entry: ") key
          /\ filename (missing_diagnostic key lang) = lang_path lang)
    /\ dget key (fst (_check_missing_entries set_iter strings _LANGS))
       = Some values
    /\ (forall d, In d ds ->
          exists k vs l, In (k, vs) strings /\ In l _LANGS
                         /\ dmem l vs = false /\ d = missing_diagnostic k l).
Proof.
  intros ND Hin [lang0 [Hl0 M0]].
  assert (NoDup _LANGS) as NDl.
  { unfold _LANGS. repeat constructor; simpl; intuition discriminate. }
  exists (flat_map (entry_diagnostics set_iter _LANGS) strings).
  split; [|split; [|split]].
  - rewrite check_snd.
    pose proof (table_count _LANGS key lang0 values strings NDl Hl0 ND Hin) as C.
    rewrite M0 in C.
    destruct (flat_map (entry_diagnostics set_iter _LANGS) strings);
      [discriminate | reflexivity].
  - intros lang Hl. split; [now apply table_count|]. split; [reflexivity|].
    destruct Hl as [<-|[<-|[<-|[]]]]; reflexivity.
  - rewrite check_fst, dget_checked, (In_dget _ _ _ ND Hin). simpl.
    unfold entry_checked. simpl.
    destruct (missing_languages set_iter _LANGS values) eqn:M; [|reflexivity].
    pose proof (proj1 (missing_nil _ _) M lang0 Hl0) as M'.
    rewrite M' in M0. discriminate.
  - intros d Hd. apply in_flat_map in Hd as [[k vs] [Hk Hd]].
    unfold entry_diagnostics, missing_languages in Hd. cbn [fst snd] in Hd.
    apply in_map_iff in Hd as [l [<- Hd]].
    rewrite (set_iter_perm _) in Hd. apply filter_In in Hd as [Hd1 Hd2].
    exists k, vs, l. repeat split; try assumption.
    now destruct (dmem l vs).
Qed.

End Checker.

(** ** The UTF-8 codec *)

Lemma decode_cons (b0 : byte) (r0 : bytes) :
  decode (b0 :: r0) =
  if b0 <? 0x80 then option_map (cons b0) (decode r0)
  else if b0 <? 0xC2 then None
  else if b0 <? 0xE0 then
    match r0 with
    | b1 :: r1 =>
        if is_cont b1
        then option_map (cons ((b0 - 0xC0) * 64 + (b1 - 0x80))) (decode r1)
        else None
    | _ => None
    end
  else if b0 <? 0xF0 then
    match r0 with
    | b1 :: b2 :: r2 =>
        let c := (b0 - 0xE0) * 4096 + (b1 - 0x80) * 64 + (b2 - 0x80) in
        if is_cont b1 && is_cont b2 && (0x800 <=? c) && negb (is_surrogate c)
        then option_map (cons c) (decode r2)
        else None
    | _ => None
    end
  else if b0 <? 0xF5 then
    match r0 with
    | b1 :: b2 :: b3 :: r3 =>
        let c := (b0 - 0xF0) * 262144 + (b1 - 0x80) * 4096
                 + (b2 - 0x80) * 64 + (b3 - 0x80) in
        if is_cont b1 && is_cont b2 && is_cont b3
           && (0x10000 <=? c) && (c <? 0x110000)
        then option_map (cons c) (decode r3)
        else None
    | _ => None
    end
  else None.
Proof. reflexivity. Qed.

Lemma Some_inj {A} (a b : A) : Some a = Some b -> a = b.
Proof. intros H. now injection H. Qed.

Lemma decode_encode_char (c : char) (bs r : bytes) :
  encode_char c = Some bs ->
  decode (bs ++ r) = option_map (cons c) (decode r).
Proof.
  unfold encode_char, is_surrogate.
  destruct (c <? 0x80) eqn:C1.
  { intros H; apply Some_inj in H; subst bs. cbn [app]. rewrite decode_cons.
    now rewrite C1. }
  destruct (c <? 0x800) eqn:C2.
  { intros H; apply Some_inj in H; subst bs. cmp_hyps.
    cbn [app]. rewrite decode_cons. unfold is_cont. cmp_cases. cbn [andb].
    replace ((192 + c / 64 - 192) * 64 + (128 + c mod 64 - 128)) with c by lia.
    reflexivity. }
  destruct (c <? 0x10000) eqn:C3.
  { destruct ((0xD800 <=? c) && (c <=? 0xDFFF)) eqn:C4; [discriminate|].
    intros H; apply Some_inj in H; subst bs. cmp_hyps.
    cbn [app]. rewrite decode_cons. cbv zeta. unfold is_cont, is_surrogate.
    replace ((224 + c / 4096 - 224) * 4096 + (128 + (c / 64) mod 64 - 128) * 64
             + (128 + c mod 64 - 128)) with c by lia.
    assert ((0xD800 <=? c) && (c <=? 0xDFFF) = false) as ->.
    { apply andb_false_iff. exact C4. }
    cmp_cases. reflexivity. }
  destruct (c <? 0x110000) eqn:C5; [|discriminate].
  intros H; apply Some_inj in H; subst bs. cmp_hyps.
  cbn [app]. rewrite decode_cons. cbv zeta. unfold is_cont.
  replace ((240 + c / 262144 - 240) * 262144
           + (128 + (c / 4096) mod 64 - 128) * 4096
           + (128 + (c / 64) mod 64 - 128) * 64 + (128 + c mod 64 - 128))
    with c by lia.
  cmp_cases. reflexivity.
Qed.

Lemma encode_decode (s : str) (b : bytes) :
  encode s = Some b -> decode b = Some s.
Proof.
  revert b; induction s as [|c s IH]; simpl; intros b H.
  - now injection H as <-.
  - destruct (encode_char c) as [bs|] eqn:E; [|discriminate].
    destruct (encode s) as [r|]; [|discriminate].
    injection H as <-. rewrite (decode_encode_char _ _ _ E).
    now rewrite (IH r eq_refl).
Qed.
Lemma option_map_cons_Some (c : char) (o : option str) (s : str) :
  option_map (cons c) o = Some s -> exists s', o = Some s' /\ s = c :: s'.
Proof.
  destruct o as [s'|]; simpl; [|discriminate].
  intros H; apply Some_inj in H. now exists s'.
Qed.

Lemma encode_cons (c : char) (s : str) (bs r : bytes) :
  encode_char c = Some bs -> encode s = Some r ->
  encode (c :: s) = Some (bs ++ r).
Proof. intros E1 E2. simpl. now rewrite E1, E2. Qed.

Lemma encode_char_1 (b0 : byte) : b0 < 0x80 -> encode_char b0 = Some [b0].
Proof. intros H. unfold encode_char. cmp_cases. reflexivity. Qed.

Lemma encode_char_2 (b0 b1 : byte) :
  0xC2 <= b0 < 0xE0 -> is_cont b1 = true ->
  encode_char ((b0 - 0xC0) * 64 + (b1 - 0x80)) = Some [b0; b1].
Proof.
  intros H0 H1. unfold is_cont in H1. cmp_hyps.
  unfold encode_char. cmp_cases. do 2 f_equal; [lia | f_equal; lia].
Qed.

Lemma encode_char_3 (b0 b1 b2 : byte) :
  0xE0 <= b0 < 0xF0 -> is_cont b1 = true -> is_cont b2 = true ->
  0x800 <= (b0 - 0xE0) * 4096 + (b1 - 0x80) * 64 + (b2 - 0x80) ->
  is_surrogate ((b0 - 0xE0) * 4096 + (b1 - 0x80) * 64 + (b2 - 0x80)) = false ->
  encode_char ((b0 - 0xE0) * 4096 + (b1 - 0x80) * 64 + (b2 - 0x80))
  = Some [b0; b1; b2].
Proof.
  intros H0 H1 H2 H3 H4. unfold is_cont in H1, H2. cmp_hyps.
  unfold encode_char. rewrite H4. cmp_cases.
  do 2 f_equal; [lia | f_equal; [lia | f_equal; lia]].
Qed.

Lemma encode_char_4 (b0 b1 b2 b3 : byte) :
  0xF0 <= b0 < 0xF5 -> is_cont b1 = true -> is_cont b2 = true ->
  is_cont b3 = true ->
  0x10000 <= (b0 - 0xF0) * 262144 + (b1 - 0x80) * 4096
             + (b2 - 0x80) * 64 + (b3 - 0x80) < 0x110000 ->
  encode_char ((b0 - 0xF0) * 262144 + (b1 - 0x80) * 4096
               + (b2 - 0x80) * 64 + (b3 - 0x80))
  = Some [b0; b1; b2; b3].
Proof.
  intros H0 H1 H2 H3 H4. unfold is_cont in H1, H2, H3. cmp_hyps.
  unfold encode_char. cmp_cases.
  do 2 f_equal; [lia | f_equal; [lia | f_equal; [lia | f_equal; lia]]].
Qed.

Lemma decode_sound_len (n : nat) (b : bytes) (s : str) :
  (List.length b <= n)%nat -> decode b = Some s -> encode s = Some b.
Proof.
  revert b s; induction n as [|n IH]; intros b s Hn.
  - destruct b; [|simpl in Hn; lia]. simpl. intros H.
    apply Some_inj in H. now subst s.
  - destruct b as [|b0 r0].
    { simpl. intros H. apply Some_inj in H. now subst s. }
    simpl in Hn. rewrite decode_cons.
    destruct (b0 <? 0x80) eqn:C1.
    { intros H. apply option_map_cons_Some in H as [s' [D ->]]. cmp_hyps.
      apply (encode_cons b0 s' [b0] r0); [now apply encode_char_1|].
      apply IH; [lia | assumption]. }
    destruct (b0 <? 0xC2) eqn:C2; [discriminate|].
    destruct (b0 <? 0xE0) eqn:C3.
    { destruct r0 as [|b1 r1]; [discriminate|].
      destruct (is_cont b1) eqn:K1; [|discriminate].
      intros H. apply option_map_cons_Some in H as [s' [D ->]]. cmp_hyps.
      apply (encode_cons _ s' [b0; b1] r1).
      - apply encode_char_2; [lia | assumption].
      - apply IH; [simpl in Hn; lia | assumption]. }
    destruct (b0 <? 0xF0) eqn:C4.
    { destruct r0 as [|b1 [|b2 r2]]; try discriminate. cbv zeta.
      destruct (is_cont b1 && is_cont b2
                && (0x800 <=? (b0 - 0xE0) * 4096 + (b1 - 0x80) * 64 + (b2 - 0x80))
                && negb (is_surrogate
                           ((b0 - 0xE0) * 4096 + (b1 - 0x80) * 64 + (b2 - 0x80))))
        eqn:K; [|discriminate].
      intros H. apply option_map_cons_Some in H as [s' [D ->]].
      apply andb_true_iff in K as [K K4]. apply andb_true_iff in K as [K K3].
      apply andb_true_iff in K as [K1 K2].
      apply negb_true_iff in K4. apply N.leb_le in K3.
      apply N.ltb_ge in C1, C2, C3. apply N.ltb_lt in C4.
      apply (encode_cons _ s' [b0; b1; b2] r2).
      - apply encode_char_3; try assumption. lia.
      - apply IH; [simpl in Hn; lia | assumption]. }
    destruct (b0 <? 0xF5) eqn:C5; [|discriminate].
    destruct r0 as [|b1 [|b2 [|b3 r3]]]; try discriminate. cbv zeta.
    destruct (is_cont b1 && is_cont b2 && is_cont b3
              && (0x10000 <=? (b0 - 0xF0) * 262144 + (b1 - 0x80) * 4096
                              + (b2 - 0x80) * 64 + (b3 - 0x80))
              && ((b0 - 0xF0) * 262144 + (b1 - 0x80) * 4096
                  + (b2 - 0x80) * 64 + (b3 - 0x80) <? 0x110000))
      eqn:K; [|discriminate].
    intros H. apply option_map_cons_Some in H as [s' [D ->]].
    apply andb_true_iff in K as [K K5]. apply andb_true_iff in K as [K K4].
    apply andb_true_iff in K as [K K3]. apply andb_true_iff in K as [K1 K2].
    apply N.leb_le in K4. apply N.ltb_lt in K5.
    apply N.ltb_ge in C1, C2, C3, C4. apply N.ltb_lt in C5.
    apply (encode_cons _ s' [b0; b1; b2; b3] r3).
    + apply encode_char_4; try assumption; lia.
    + apply IH; [simpl in Hn; lia | assumption].
Qed.

Lemma decode_sound (b : bytes) (s : str) :
  decode b = Some s -> encode s = Some b.
Proof. apply (decode_sound_len (List.length b)). lia. Qed.

(** The comparison of the decoded file with the rendering is the
    comparison of the bytes of the file with the encoded rendering. *)
Lemma decoded_equal_iff (content b : bytes) (t new_content : str) :
  decode content = Some t -> encode new_content = Some b ->
  (str_eqb t new_content = true <-> content = b).
Proof.
  intros D E. rewrite str_eqb_eq. split.
  - intros ->. apply decode_sound in D. congruence.
  - intros ->. apply encode_decode in E. congruence.
Qed.

(** ** Drift detection *)

Lemma content_entry_same (maps : dict bytes * dict bytes) (path new_content : str)
  (cb : str -> bytes) (t : str) :
  decode (cb path) = Some t -> encode new_content = Some (cb path) ->
  _generate_content_entry maps path new_content cb = Ok maps.
Proof.
  intros D E. unfold _generate_content_entry. rewrite D.
  rewrite (proj2 (decoded_equal_iff _ _ _ _ D E) eq_refl). reflexivity.
Qed.

Lemma content_entry_differs (maps : dict bytes * dict bytes)
  (path new_content : str) (cb : str -> bytes) (t : str) (b : bytes) :
  decode (cb path) = Some t -> encode new_content = Some b -> cb path <> b ->
  _generate_content_entry maps path new_content cb =
  Ok (dset path b (fst maps), dset path (cb path) (snd maps)).
Proof.
  intros D E N. unfold _generate_content_entry. rewrite D.
  destruct (str_eqb t new_content) eqn:Q.
  - apply (decoded_equal_iff _ _ _ _ D E) in Q. contradiction.
  - simpl. now rewrite E.
Qed.

Lemma content_entries_spec (cb : str -> bytes) (pairs : list (str * str)) :
  NoDup (map fst pairs) ->
  (forall p r, In (p, r) pairs ->
     (exists t, decode (cb p) = Some t) /\ (exists b, encode r = Some b)) ->
  forall n0 o0, exists n o,
    content_entries cb pairs (n0, o0) = Ok (n, o)
    /\ (forall q, ~ In q (map fst pairs) ->
          dget q n = dget q n0 /\ dget q o = dget q o0)
    /\ (forall p r b, In (p, r) pairs -> encode r = Some b ->
          (cb p <> b -> dget p n = Some b /\ dget p o = Some (cb p))
          /\ (cb p = b -> dget p n = dget p n0 /\ dget p o = dget p o0)).
Proof.
  induction pairs as [|[p r] pairs IH]; intros ND Hok n0 o0.
  - exists n0, o0. simpl. repeat split; tauto.
  - simpl in ND. inversion ND as [|? ? NI ND']; subst.
    destruct (Hok p r (or_introl eq_refl)) as [[t D] [b E]].
    assert (forall p' r', In (p', r') pairs ->
              (exists t, decode (cb p') = Some t)
              /\ (exists b, encode r' = Some b)) as Hok'.
    { intros; apply Hok; now right. }
    assert (forall p' r', In (p', r') pairs -> p' <> p) as Hne.
    { intros p' r' Hin ->. apply NI. apply (in_map fst) in Hin. exact Hin. }
    assert ({cb p = b} + {cb p <> b}) as [Q|Q] by apply (list_eq_dec N.eq_dec).
    + destruct (IH ND' Hok' n0 o0) as [n [o [R [F1 F2]]]].
      exists n, o. split; [|split].
      * simpl. rewrite <- Q in E.
        rewrite (content_entry_same _ _ _ _ _ D E). exact R.
      * intros q Hq. apply F1. simpl in Hq. tauto.
      * intros p' r' b' [H|H] E'.
        -- injection H as <- <-. rewrite E in E'. apply Some_inj in E'. subst b'.
           split; [contradiction | intros _; now apply F1].
        -- now apply (F2 p' r' b').
    + destruct (IH ND' Hok' (dset p b n0) (dset p (cb p) o0))
        as [n [o [R [F1 F2]]]].
      exists n, o. split; [|split].
      * simpl. rewrite (content_entry_differs _ _ _ _ _ _ D E Q). exact R.
      * intros q Hq. simpl in Hq.
        destruct (F1 q ltac:(tauto)) as [G1 G2].
        rewrite G1, G2, !dget_dset_neq by (intros ->; tauto). tauto.
      * intros p' r' b' [H|H] E'.
        -- injection H as <- <-. rewrite E in E'. apply Some_inj in E'. subst b'.
           destruct (F1 p NI) as [G1 G2]. rewrite G1, G2, !dget_dset_eq.
           split; [tauto | contradiction].
        -- destruct (F2 p' r' b' H E') as [G1 G2].
           split; [exact G1|]. intros Q'. destruct (G2 Q') as [G3 G4].
           rewrite G3, G4, !dget_dset_neq by (now apply (Hne p' r')). tauto.
Qed.

Lemma artifact_paths (strings : table) :
  map fst (artifacts strings) =
  flat_map (fun l => [lang_path l; ts_path l; json_path l])
           (_LANGS ++ [lit "pseudo"]).
Proof. reflexivity. Qed.

Lemma artifact_paths_NoDup (strings : table) :
  NoDup (map fst (artifacts strings)).
Proof.
  rewrite artifact_paths.
  repeat (constructor; [vm_compute; intuition discriminate|]).
  constructor.
Qed.

(** C9 (as amended).  When the current content of each of the twelve
    artifact paths is valid UTF-8 and each rendering has a UTF-8 encoding,
    the drift detector returns two maps such that, for every (path,
    rendering) pair of the emitter, the path is recorded (new map: the
    encoded rendering; original map: the current bytes) if the current
    bytes differ from the encoded rendering and is recorded in neither map
    if they are equal; no other path is recorded; and a result of [run_all]
    consists of the two maps of the drift detector and of the label
    i18n. *)
Theorem C9_drift_records (strings : table) (cb : str -> bytes) :
  (forall p r, In (p, r) (artifacts strings) ->
     (exists t, decode (cb p) = Some t) /\ (exists b, encode r = Some b)) ->
  map fst (artifacts strings)
  = flat_map (fun l => [lang_path l; ts_path l; json_path l])
             [lit "en"; lit "es"; lit "pt"; lit "pseudo"]
  /\ (exists news origs,
        _generate_new_contents strings cb = Ok (news, origs)
        /\ (forall p r b, In (p, r) (artifacts strings) -> encode r = Some b ->
              (cb p <> b -> dget p news = Some b /\ dget p origs = Some (cb p))
              /\ (cb p = b -> dget p news = None /\ dget p origs = None))
        /\ (forall q, ~ In q (map fst (artifacts strings)) ->
              dget q news = None /\ dget q origs = None))
  /\ (forall set_iter dirs json_loads res,
        run_all set_iter dirs json_loads cb = Ok res ->
        labels res = [lit "i18n"]
        /\ exists checked,
             _generate_new_contents checked cb
             = Ok (new_contents res, original_contents res)).
Proof.
  intros Hok. split; [reflexivity|]. split.
  - destruct (content_entries_spec cb (artifacts strings)
                (artifact_paths_NoDup strings) Hok [] [])
      as [n [o [R [F1 F2]]]].
    exists n, o. split; [exact R|]. split; [exact F2 | exact F1].
  - intros set_iter dirs json_loads res. unfold run_all.
    destruct (_get_translated_strings cb) as [t|]; [|discriminate]. simpl.
    destruct (_add_badges_entries dirs json_loads cb) as [bd|]; [|discriminate].
    simpl.
    destruct (_check_missing_entries set_iter (dupdate t bd) _LANGS)
      as [checked [[]|]]; [|discriminate]. simpl.
    destruct (_generate_new_contents checked cb) as [[n o]|] eqn:G;
      [|discriminate].
    simpl. intros H. injection H as <-. simpl. split; [reflexivity|].
    now exists checked.
Qed.

(** ** The parser on decodable lines *)

Lemma bind_Ok {A B} (r : result A) (f : A -> result B) (b : B) :
  bind r f = Ok b -> exists a, r = Ok a /\ f a = Ok b.
Proof. destruct r as [a|e]; simpl; [|discriminate]. now exists a. Qed.

Lemma parse_line_decoded (lang file : str) (st : pstate) (n : N) (l : bytes)
  (row : str) :
  decode l = Some row ->
  parse_line lang file st n l =
  Ok (mkPstate (row_strings lang row (p_strings st))
        (p_diagnostics st ++ row_diagnostic file n row) (Some row)).
Proof.
  intros D. unfold parse_line, row_strings, row_diagnostic. rewrite D.
  destruct (re_split_sep (strip row)) as [|key [|value [|x y]]];
    cbn [p_strings p_diagnostics p_row on_exception]; try reflexivity.
  destruct (match_value value); cbn [p_strings p_diagnostics p_row on_exception];
    [now rewrite app_nil_r | reflexivity].
Qed.

Lemma parse_lines_decoded (lang file : str) (lines : list bytes) :
  (forall l, In l lines -> decode l <> None) ->
  forall st n, exists row,
    parse_lines lang file st n lines =
    Ok (mkPstate (lines_strings lang lines (p_strings st))
          (p_diagnostics st ++ file_diagnostics file n lines) row).
Proof.
  induction lines as [|l lines IH]; intros H st n.
  - exists (p_row st). simpl. rewrite app_nil_r. now destruct st.
  - destruct (decode l) as [row|] eqn:D.
    2:{ exfalso. now apply (H l (or_introl eq_refl)). }
    cbn [parse_lines]. rewrite (parse_line_decoded _ _ _ _ _ _ D).
    cbn [bind].
    destruct (IH (fun l' Hl => H l' (or_intror Hl))
                (mkPstate (row_strings lang row (p_strings st))
                   (p_diagnostics st ++ row_diagnostic file n row) (Some row))
                (n + 1)) as [row' E].
    exists row'. rewrite E. cbn [p_strings p_diagnostics lines_strings
                                 file_diagnostics].
    rewrite D. now rewrite <- app_assoc.
Qed.

Lemma parse_files_decoded (cb : str -> bytes) (langs : list str) :
  (forall lang l, In lang langs -> In l (file_lines (cb (lang_path lang))) ->
                  decode l <> None) ->
  forall st, exists row,
    parse_files cb langs st =
    Ok (mkPstate
          (fold_left (fun strings lang =>
                        lines_strings lang (file_lines (cb (lang_path lang)))
                          strings) langs (p_strings st))
          (p_diagnostics st
           ++ flat_map (fun lang =>
                          file_diagnostics (lang_path lang) 0
                            (file_lines (cb (lang_path lang)))) langs)
          row).
Proof.
  induction langs as [|lang langs IH]; intros H st.
  - exists (p_row st). simpl. rewrite app_nil_r. now destruct st.
  - cbn [parse_files].
    destruct (parse_lines_decoded lang (lang_path lang)
                (file_lines (cb (lang_path lang)))
                (fun l Hl => H lang l (or_introl eq_refl) Hl) st 0) as [row E].
    rewrite E. cbn [bind].
    destruct (IH (fun lang' l Hin Hl => H lang' l (or_intror Hin) Hl)
                (mkPstate
                   (lines_strings lang (file_lines (cb (lang_path lang)))
                      (p_strings st))
                   (p_diagnostics st
                    ++ file_diagnostics (lang_path lang) 0
                         (file_lines (cb (lang_path lang)))) row))
      as [row' E'].
    exists row'. rewrite E'. cbn [p_strings p_diagnostics fold_left flat_map].
    now rewrite <- app_assoc.
Qed.

Lemma source_lines_In (cb : str -> bytes) (l : bytes) :
  In l (source_lines cb) <->
  exists lang, In lang _LANGS /\ In l (file_lines (cb (lang_path lang))).
Proof. unfold source_lines. apply in_flat_map. Qed.

Lemma parser_decoded (cb : str -> bytes) :
  (forall l, In l (source_lines cb) -> decode l <> None) ->
  _get_translated_strings cb =
  match expected_diagnostics cb with
  | [] =>
      Ok (filter (fun kv => negb (startswith (fst kv) (lit "badge_")))
            (parsed_strings cb))
  | (_ :: _) as ds =>
      Raise (LinterException (lit "Invalid i18n files") (Some false) ds)
  end.
Proof.
  intros H. unfold _get_translated_strings.
  destruct (parse_files_decoded cb _LANGS) with (st := mkPstate [] [] None)
    as [row E].
  { intros lang l Hin Hl. apply H. apply source_lines_In. now exists lang. }
  rewrite E. cbn [bind p_strings p_diagnostics app].
  fold (expected_diagnostics cb). fold (parsed_strings cb).
  now destruct (expected_diagnostics cb).
Qed.

Lemma row_diagnostic_fails (file : str) (n : N) (row : str) :
  row_fails row = true ->
  exists msg,
    row_diagnostic file n row =
    [mkDiagnostic msg file (Some (n + 1)) (Some (strip row))].
Proof.
  unfold row_fails, row_entry, row_diagnostic.
  destruct (re_split_sep (strip row)) as [|key [|value [|x y]]];
    try (intros _; eexists; reflexivity).
  destruct (match_value value); [discriminate|].
  intros _; eexists; reflexivity.
Qed.

Lemma row_diagnostic_passes (file : str) (n : N) (row : str) :
  row_fails row = false -> row_diagnostic file n row = [].
Proof.
  unfold row_fails, row_entry, row_diagnostic.
  destruct (re_split_sep (strip row)) as [|key [|value [|x y]]];
    try discriminate.
  now destruct (match_value value).
Qed.

Lemma filter_none {A} (f : A -> bool) (l : list A) :
  (forall x, In x l -> f x = false) -> filter f l = [].
Proof.
  induction l as [|x xs IH]; intros H; [reflexivity|].
  simpl. rewrite (H x (or_introl eq_refl)). apply IH.
  intros; apply H; now right.
Qed.

Lemma file_diagnostics_length (file : str) (lines : list bytes) (n : N) :
  List.length (file_diagnostics file n lines)
  = List.length (filter line_fails lines).
Proof.
  revert n; induction lines as [|l lines IH]; intros n; [reflexivity|].
  cbn [file_diagnostics filter]. rewrite length_app, IH.
  assert (line_fails l = match decode l with
                         | Some row => row_fails row
                         | None => false
                         end) as -> by reflexivity.
  destruct (decode l) as [row|]; [|reflexivity].
  destruct (row_fails row) eqn:F.
  - destruct (row_diagnostic_fails file n row F) as [msg ->]. reflexivity.
  - now rewrite row_diagnostic_passes.
Qed.

Lemma expected_diagnostics_length (cb : str -> bytes) :
  List.length (expected_diagnostics cb)
  = List.length (filter line_fails (source_lines cb)).
Proof.
  unfold expected_diagnostics, source_lines.
  induction _LANGS as [|lang langs IH]; [reflexivity|].
  cbn [flat_map]. rewrite filter_app, !length_app, IH.
  now rewrite file_diagnostics_length.
Qed.

Lemma file_diagnostics_In (file : str) (pre post : list bytes) (l : bytes)
  (row : str) (n : N) :
  decode l = Some row -> row_fails row = true ->
  exists msg,
    In (mkDiagnostic msg file (Some (n + N.of_nat (List.length pre) + 1))
          (Some (strip row)))
       (file_diagnostics file n (pre ++ l :: post)).
Proof.
  intros D F. revert n; induction pre as [|x pre IH]; intros n.
  - cbn [app file_diagnostics List.length]. rewrite D.
    destruct (row_diagnostic_fails file n row F) as [msg ->].
    exists msg. left. do 2 f_equal. lia.
  - destruct (IH (n + 1)) as [msg Hin]. exists msg.
    cbn [app file_diagnostics]. apply in_or_app. right.
    replace (n + N.of_nat (List.length (x :: pre)) + 1)
      with (n + 1 + N.of_nat (List.length pre) + 1) by (simpl List.length; lia).
    exact Hin.
Qed.

Lemma expected_diagnostics_nil (cb : str -> bytes) :
  expected_diagnostics cb = [] <->
  forall l, In l (source_lines cb) -> line_fails l = false.
Proof.
  pose proof (expected_diagnostics_length cb) as L. split.
  - intros E l Hin. rewrite E in L. simpl in L.
    destruct (line_fails l) eqn:F; [|reflexivity].
    assert (In l (filter line_fails (source_lines cb))) as Hf
        by now apply filter_In.
    destruct (filter line_fails (source_lines cb)); [destruct Hf|discriminate].
  - intros A.
    assert (filter line_fails (source_lines cb) = []) as E
        by now apply filter_none.
    rewrite E in L. now destruct (expected_diagnostics cb).
Qed.

(** C4 (as amended).  When every line of the language source files is
    valid UTF-8: the parser raises the error Invalid i18n files, marked
    not fixable, if and only if some line fails the key/value split or
    the quoted-value pattern; the error carries one diagnostic per
    failing line of the three files (so parsing goes on after a failure);
    the diagnostic of a failing line holds the path of its file, its line
    number and its trimmed text; and without a failing line the parser
    returns a table. *)
Theorem C4_invalid_sources (cb : str -> bytes) :
  (forall l, In l (source_lines cb) -> decode l <> None) ->
  ((exists ds, _get_translated_strings cb
               = Raise (LinterException (lit "Invalid i18n files")
                          (Some false) ds))
   <-> (exists l, In l (source_lines cb) /\ line_fails l = true))
  /\ (forall e, _get_translated_strings cb = Raise e ->
        e = LinterException (lit "Invalid i18n files") (Some false)
              (expected_diagnostics cb))
  /\ List.length (expected_diagnostics cb)
     = List.length (filter line_fails (source_lines cb))
  /\ (forall lang pre l post row,
        In lang _LANGS ->
        file_lines (cb (lang_path lang)) = pre ++ l :: post ->
        decode l = Some row -> row_fails row = true ->
        exists msg,
          In (mkDiagnostic msg (lang_path lang)
                (Some (N.of_nat (List.length pre) + 1)) (Some (strip row)))
             (expected_diagnostics cb))
  /\ ((forall l, In l (source_lines cb) -> line_fails l = false) ->
      exists strings, _get_translated_strings cb = Ok strings).
Proof.
  intros H. pose proof (parser_decoded cb H) as P.
  pose proof (expected_diagnostics_length cb) as L.
  pose proof (expected_diagnostics_nil cb) as Z.
  split; [|split; [|split; [|split]]].
  - split.
    + intros [ds E]. rewrite P in E.
      destruct (expected_diagnostics cb) eqn:X; [discriminate|].
      destruct (existsb line_fails (source_lines cb)) eqn:B.
      * apply existsb_exists in B. exact B.
      * assert (d :: l = []); [|discriminate].
        apply Z. intros x Hx.
        destruct (line_fails x) eqn:F; [|reflexivity].
        assert (existsb line_fails (source_lines cb) = true)
          by (apply existsb_exists; now exists x).
        congruence.
    + intros [l [Hin F]]. rewrite P.
      destruct (expected_diagnostics cb) eqn:X.
      * rewrite (proj1 Z eq_refl l Hin) in F. discriminate.
      * eexists. reflexivity.
  - intros e E. rewrite P in E.
    destruct (expected_diagnostics cb); [discriminate|]. now injection E.
  - exact L.
  - intros lang pre l post row Hl Hf D F.
    destruct (file_diagnostics_In (lang_path lang) pre post l row 0 D F)
      as [msg Hin].
    exists msg. unfold expected_diagnostics. apply in_flat_map.
    exists lang. split; [assumption|]. rewrite Hf. exact Hin.
  - intros A. rewrite P, (proj2 Z A). eexists. reflexivity.
Qed.

(** ** Entries of the parsed table *)

Lemma lookup2_setitem2 (s : table) (k l v k' l' : str) :
  lookup2 (setitem2 k l v s) k' l' =
  if str_eqb k' k && str_eqb l' l then Some v else lookup2 s k' l'.
Proof.
  unfold lookup2, setitem2.
  destruct (str_eqb k' k) eqn:K.
  - apply str_eqb_eq in K; subst k'.
    destruct (dget k s) as [values|] eqn:G; rewrite dget_dset_eq; simpl.
    + destruct (str_eqb l' l) eqn:L.
      * apply str_eqb_eq in L; subst l'. apply dget_dset_eq.
      * apply str_eqb_neq in L. now apply dget_dset_neq.
    + now destruct (str_eqb l' l).
  - apply str_eqb_neq in K. simpl.
    destruct (dget k s); now rewrite dget_dset_neq.
Qed.

Lemma lookup2_ensure (s : table) (key k l : str) :
  lookup2 (if dmem key s then s else dset key [] s) k l = lookup2 s k l.
Proof.
  destruct (dmem key s) eqn:M; [reflexivity|].
  apply dmem_false_dget in M. unfold lookup2.
  destruct (str_eqb k key) eqn:K.
  - apply str_eqb_eq in K; subst k. now rewrite dget_dset_eq, M.
  - apply str_eqb_neq in K. now rewrite dget_dset_neq.
Qed.

Lemma lookup2_row_strings (lang row : str) (s : table) (k l : str) :
  lookup2 (row_strings lang row s) k l =
  match row_entry row with
  | Some (k0, v) =>
      if str_eqb k k0 && str_eqb l lang then Some v else lookup2 s k l
  | None => lookup2 s k l
  end.
Proof.
  unfold row_strings, row_entry.
  destruct (re_split_sep (strip row)) as [|key [|value [|x y]]];
    try reflexivity.
  destruct (match_value value) as [g|].
  - now rewrite lookup2_setitem2, lookup2_ensure.
  - apply lookup2_ensure.
Qed.

Lemma lines_lookup_unchanged (lang : str) (lines : list bytes) (k l : str) :
  l <> lang \/ (forall y v, In y lines -> line_entry y <> Some (k, v)) ->
  forall s, lookup2 (lines_strings lang lines s) k l = lookup2 s k l.
Proof.
  induction lines as [|x lines IH]; intros H s; [reflexivity|].
  cbn [lines_strings]. rewrite IH.
  2:{ destruct H as [H|H]; [now left | right].
      intros y v Hy. apply H. now right. }
  destruct (decode x) as [row|] eqn:D; [|reflexivity].
  rewrite lookup2_row_strings.
  destruct (row_entry row) as [[k0 v]|] eqn:E; [|reflexivity].
  destruct (str_eqb k k0 && str_eqb l lang) eqn:B; [|reflexivity].
  apply andb_true_iff in B as [B1 B2].
  apply str_eqb_eq in B1, B2. subst k0 l.
  destruct H as [H|H]; [contradiction|].
  exfalso. apply (H x v (or_introl eq_refl)).
  unfold line_entry. now rewrite D.
Qed.

Lemma lines_lookup_last (lang : str) (pre post : list bytes) (x : bytes)
  (k v : str) (s : table) :
  line_entry x = Some (k, v) ->
  (forall y w, In y post -> line_entry y <> Some (k, w)) ->
  lookup2 (lines_strings lang (pre ++ x :: post) s) k lang = Some v.
Proof.
  intros E H. revert s; induction pre as [|p pre IH]; intros s.
  - cbn [app lines_strings]. rewrite lines_lookup_unchanged by now right.
    unfold line_entry in E. destruct (decode x) as [row|]; [|discriminate].
    rewrite lookup2_row_strings, E, !str_eqb_refl. reflexivity.
  - cbn [app lines_strings]. apply IH.
Qed.

Lemma parsed_lookup_last (cb : str -> bytes) (lang : str)
  (pre post : list bytes) (x : bytes) (k v : str) :
  In lang _LANGS ->
  file_lines (cb (lang_path lang)) = pre ++ x :: post ->
  line_entry x = Some (k, v) ->
  (forall y w, In y post -> line_entry y <> Some (k, w)) ->
  lookup2 (parsed_strings cb) k lang = Some v.
Proof.
  intros Hl F E H. unfold parsed_strings, _LANGS. cbn [fold_left].
  destruct Hl as [<-|[<-|[<-|[]]]].
  - rewrite !lines_lookup_unchanged by (left; discriminate).
    rewrite F. now apply lines_lookup_last.
  - rewrite lines_lookup_unchanged by (left; discriminate).
    rewrite F. now apply lines_lookup_last.
  - rewrite F. now apply lines_lookup_last.
Qed.

Lemma dget_without_badges (k : str) (s : table) :
  startswith k (lit "badge_") = false ->
  dget k (filter (fun kv => negb (startswith (fst kv) (lit "badge_"))) s)
  = dget k s.
Proof.
  intros B. induction s as [|[k' v'] s IH]; [reflexivity|].
  cbn [filter fst]. destruct (startswith k' (lit "badge_")) eqn:B';
    cbn [negb dget].
  - destruct (str_eqb k k') eqn:K; [|exact IH].
    apply str_eqb_eq in K; subst k'. congruence.
  - now rewrite IH.
Qed.

Lemma line_entry_passes (l : bytes) :
  line_entry l <> None -> decode l <> None /\ line_fails l = false.
Proof.
  unfold line_entry, line_fails, row_fails.
  destruct (decode l) as [row|]; [|tauto].
  destruct (row_entry row); [|tauto]. split; [discriminate | reflexivity].
Qed.

Lemma parser_well_formed (cb : str -> bytes) :
  (forall l, In l (source_lines cb) -> line_entry l <> None) ->
  _get_translated_strings cb =
  Ok (filter (fun kv => negb (startswith (fst kv) (lit "badge_")))
        (parsed_strings cb)).
Proof.
  intros H. rewrite parser_decoded.
  - rewrite (proj2 (expected_diagnostics_nil cb)); [reflexivity|].
    intros l Hl. now apply line_entry_passes, H.
  - intros l Hl. now apply line_entry_passes, H.
Qed.

Lemma row_entry_none_diagnostic (file : str) (n : N) (row : str) :
  row_entry row = None -> row_diagnostic file n row <> [].
Proof.
  intros E. destruct (row_diagnostic_fails file n row) as [msg ->].
  - unfold row_fails. now rewrite E.
  - discriminate.
Qed.

Lemma parse_line_Ok (lang file : str) (st st' : pstate) (n : N) (l : bytes) :
  parse_line lang file st n l = Ok st' ->
  exists extra, p_diagnostics st' = p_diagnostics st ++ extra
                /\ (line_entry l = None -> extra <> []).
Proof.
  destruct (decode l) as [row|] eqn:D.
  - rewrite (parse_line_decoded _ _ _ _ _ _ D). intros H. injection H as <-.
    exists (row_diagnostic file n row). split; [reflexivity|].
    unfold line_entry. rewrite D. apply row_entry_none_diagnostic.
  - unfold parse_line. rewrite D. unfold on_exception.
    destruct (p_row st); [|discriminate].
    intros H. injection H as <-. eexists. split; [reflexivity|].
    intros _. discriminate.
Qed.

Lemma parse_lines_Ok (lang file : str) (lines : list bytes) :
  forall st st' n, parse_lines lang file st n lines = Ok st' ->
  exists extra, p_diagnostics st' = p_diagnostics st ++ extra
                /\ (forall l, In l lines -> line_entry l = None -> extra <> []).
Proof.
  induction lines as [|x lines IH]; intros st st' n H.
  - simpl in H. injection H as <-. exists []. split; [now rewrite app_nil_r|].
    intros l [].
  - cbn [parse_lines] in H. apply bind_Ok in H as [st1 [H1 H]].
    destruct (parse_line_Ok _ _ _ _ _ _ H1) as [e1 [E1 F1]].
    destruct (IH _ _ _ H) as [e2 [E2 F2]].
    exists (e1 ++ e2). split; [now rewrite E2, E1, app_assoc|].
    intros l [<-|Hl] N E.
    + apply app_eq_nil in E as [E _]. now apply F1.
    + apply app_eq_nil in E as [_ E]. now apply (F2 l).
Qed.

Lemma parse_files_Ok (cb : str -> bytes) (langs : list str) :
  forall st st', parse_files cb langs st = Ok st' ->
  exists extra,
    p_diagnostics st' = p_diagnostics st ++ extra
    /\ (forall lang l, In lang langs ->
          In l (file_lines (cb (lang_path lang))) ->
          line_entry l = None -> extra <> []).
Proof.
  induction langs as [|x langs IH]; intros st st' H.
  - simpl in H. injection H as <-. exists []. split; [now rewrite app_nil_r|].
    intros lang l [].
  - cbn [parse_files] in H. apply bind_Ok in H as [st1 [H1 H]].
    destruct (parse_lines_Ok _ _ _ _ _ _ H1) as [e1 [E1 F1]].
    destruct (IH _ _ H) as [e2 [E2 F2]].
    exists (e1 ++ e2). split; [now rewrite E2, E1, app_assoc|].
    intros lang l [<-|Hl] Hin N E.
    + apply app_eq_nil in E as [E _]. now apply (F1 l).
    + apply app_eq_nil in E as [_ E]. now apply (F2 lang l).
Qed.

Lemma parser_Ok_well_formed (cb : str -> bytes) (strings : table) :
  _get_translated_strings cb = Ok strings ->
  forall l, In l (source_lines cb) -> line_entry l <> None.
Proof.
  unfold _get_translated_strings. intros H.
  apply bind_Ok in H as [st [H1 H]].
  destruct (parse_files_Ok _ _ _ _ H1) as [extra [E F]].
  destruct (p_diagnostics st) eqn:D; [|discriminate].
  simpl in E. subst extra.
  intros l Hl N. apply source_lines_In in Hl as [lang [Hlang Hin]].
  now apply (F lang l Hlang Hin N).
Qed.

(** C10 (as amended).  The parser returns a table exactly when every
    line of the language source files is well formed, so a key that occurs
    on several well-formed lines raises no diagnostic; and the returned
    table maps every key that does not begin with badge_, for each
    language, to the value of the last line of that language's file that
    holds the key. *)
Theorem C10_last_occurrence_wins (cb : str -> bytes) :
  ((exists strings, _get_translated_strings cb = Ok strings)
   <-> (forall l, In l (source_lines cb) -> line_entry l <> None))
  /\ forall strings, _get_translated_strings cb = Ok strings ->
     forall lang pre l post key v,
       In lang _LANGS ->
       file_lines (cb (lang_path lang)) = pre ++ l :: post ->
       line_entry l = Some (key, v) ->
       (forall l' v', In l' post -> line_entry l' <> Some (key, v')) ->
       startswith key (lit "badge_") = false ->
       lookup2 strings key lang = Some v.
Proof.
  split.
  - split.
    + intros [strings H]. exact (parser_Ok_well_formed cb strings H).
    + intros W. eexists. now apply parser_well_formed.
  - intros strings H.
    pose proof (parser_Ok_well_formed cb strings H) as W.
    rewrite (parser_well_formed cb W) in H. injection H as <-.
    intros lang pre l post key v Hl F E Hp B.
    unfold lookup2. rewrite dget_without_badges by assumption.
    now apply (parsed_lookup_last cb lang pre post l key v).
Qed.

(** ** The auxiliary merger *)

Lemma dkeys_setitem2 (k l v k' : str) (s : table) :
  In k' (dkeys (setitem2 k l v s)) <-> k' = k \/ In k' (dkeys s).
Proof. unfold setitem2. destruct (dget k s); apply dkeys_dset. Qed.

Lemma setitem2_NoDup (k l v : str) (s : table) :
  NoDup (dkeys s) -> NoDup (dkeys (setitem2 k l v s)).
Proof. unfold setitem2. destruct (dget k s); apply dset_NoDup. Qed.

Lemma lookup2_setitem2_some (s : table) (k l v k' l' : str) :
  lookup2 s k' l' <> None -> lookup2 (setitem2 k l v s) k' l' <> None.
Proof.
  rewrite lookup2_setitem2.
  now destruct (str_eqb k' k && str_eqb l' l).
Qed.

Lemma add_badge_langs_spec (kn kd : str) (contents : dict (dict str))
  (langs : list str) :
  forall s s', add_badge_langs kn kd contents langs s = Ok s' ->
  (forall k, In k (dkeys s') -> In k (dkeys s) \/ k = kn \/ k = kd)
  /\ (NoDup (dkeys s) -> NoDup (dkeys s'))
  /\ (forall k l, lookup2 s k l <> None -> lookup2 s' k l <> None)
  /\ (forall l, In l langs ->
        lookup2 s' kn l <> None /\ lookup2 s' kd l <> None).
Proof.
  induction langs as [|lang langs IH]; intros s s' H.
  - simpl in H. injection H as <-. repeat split; try tauto.
  - cbn [add_badge_langs] in H.
    apply bind_Ok in H as [entry [_ H]]. apply bind_Ok in H as [name [_ H]].
    apply bind_Ok in H as [entry' [_ H]]. apply bind_Ok in H as [desc [_ H]].
    destruct (IH _ _ H) as [I1 [I2 [I3 I4]]].
    split; [|split; [|split]].
    + intros k Hk. destruct (I1 k Hk) as [Hk'|Hk']; [|tauto].
      apply dkeys_setitem2 in Hk' as [->|Hk']; [tauto|].
      apply dkeys_setitem2 in Hk' as [->|Hk']; tauto.
    + intros ND. now apply I2, setitem2_NoDup, setitem2_NoDup.
    + intros k l Hk. now apply I3, lookup2_setitem2_some, lookup2_setitem2_some.
    + intros l [<-|Hl]; [|now apply I4].
      split; apply I3.
      * apply lookup2_setitem2_some.
        rewrite lookup2_setitem2, !str_eqb_refl. discriminate.
      * rewrite lookup2_setitem2, !str_eqb_refl. discriminate.
Qed.

Section Merger.

Variable scandir_dirs : list str.
Variable json_loads : str -> result (dict (dict str)).

Lemma add_badges_spec (cb : str -> bytes) (aliases : list str) :
  forall s s', add_badges json_loads cb aliases s = Ok s' ->
  (forall k, In k (dkeys s') ->
     In k (dkeys s)
     \/ exists alias, In alias aliases
                      /\ (k = badge_key_name alias \/ k = badge_key_desc alias))
  /\ (NoDup (dkeys s) -> NoDup (dkeys s'))
  /\ (forall k l, lookup2 s k l <> None -> lookup2 s' k l <> None)
  /\ (forall alias l, In alias aliases -> In l _LANGS ->
        lookup2 s' (badge_key_name alias) l <> None
        /\ lookup2 s' (badge_key_desc alias) l <> None).
Proof.
  induction aliases as [|alias aliases IH]; intros s s' H.
  - simpl in H. injection H as <-. repeat split; try tauto.
  - cbn [add_badges] in H.
    destruct (decode _) as [doc|]; [|discriminate].
    apply bind_Ok in H as [contents [_ H]].
    apply bind_Ok in H as [s1 [H1 H]].
    destruct (add_badge_langs_spec _ _ _ _ _ _ H1) as [A1 [A2 [A3 A4]]].
    destruct (IH _ _ H) as [I1 [I2 [I3 I4]]].
    split; [|split; [|split]].
    + intros k Hk. destruct (I1 k Hk) as [Hk'|[a [Ha Hk']]].
      * destruct (A1 k Hk') as [?|?]; [tauto|].
        right. exists alias. split; [now left | assumption].
      * right. exists a. split; [now right | assumption].
    + intros ND. now apply I2, A2.
    + intros k l Hk. now apply I3, A3.
    + intros a l [<-|Ha] Hl; [|now apply I4].
      destruct (A4 l Hl) as [B1 B2]. split; now apply I3.
Qed.

Lemma dget_dupdate_notin {V} (k : str) (d other : dict V) :
  ~ In k (dkeys other) -> dget k (dupdate d other) = dget k d.
Proof.
  unfold dupdate. revert d; induction other as [|[k' v'] other IH];
    intros d NI; [reflexivity|].
  cbn [fold_left fst snd]. rewrite IH.
  - apply dget_dset_neq. intros ->. apply NI. now left.
  - intros H. apply NI. now right.
Qed.

Lemma dget_dupdate_in {V} (k : str) (d other : dict V) :
  NoDup (dkeys other) -> In k (dkeys other) ->
  dget k (dupdate d other) = dget k other.
Proof.
  unfold dupdate. revert d; induction other as [|[k' v'] other IH];
    intros d ND Hin; [destruct Hin|].
  cbn [fold_left fst snd dget].
  inversion ND as [|? ? NI ND']; subst.
  destruct (str_eqb k k') eqn:K.
  - apply str_eqb_eq in K; subst k'.
    change (fold_left (fun acc kv => dset (fst kv) (snd kv) acc) other
              (dset k v' d)) with (dupdate (dset k v' d) other).
    rewrite dget_dupdate_notin by assumption. apply dget_dset_eq.
  - apply IH; [assumption|]. destruct Hin as [E|Hin]; [|assumption].
    simpl in E. subst k'. now rewrite str_eqb_refl in K.
Qed.

Lemma dkeys_dupdate {V} (k : str) (d other : dict V) :
  In k (dkeys (dupdate d other)) <-> In k (dkeys d) \/ In k (dkeys other).
Proof.
  unfold dupdate. revert d; induction other as [|[k' v'] other IH]; intros d.
  - simpl. tauto.
  - cbn [fold_left fst snd]. rewrite IH, dkeys_dset. simpl.
    intuition (subst; auto).
Qed.

Lemma lookup2_all_langs (s : table) (k : str) :
  (forall l, In l _LANGS -> lookup2 s k l <> None) ->
  exists values, dget k s = Some values
                 /\ forall l, In l _LANGS -> exists v, dget l values = Some v.
Proof.
  intros H. unfold lookup2 in H.
  destruct (dget k s) as [values|].
  - exists values. split; [reflexivity|]. intros l Hl.
    specialize (H l Hl). destruct (dget l values) as [v|]; [now exists v|].
    contradiction.
  - exfalso. apply (H (lit "en")); [now left | reflexivity].
Qed.

Lemma parser_result_no_badges (cb : str -> bytes) (T : table) :
  _get_translated_strings cb = Ok T ->
  forall k, In k (dkeys T) -> startswith k (lit "badge_") = false.
Proof.
  unfold _get_translated_strings. intros H.
  apply bind_Ok in H as [st [_ H]].
  destruct (p_diagnostics st); [|discriminate]. injection H as <-.
  intros k Hk. unfold dkeys in Hk. apply in_map_iff in Hk as [[k' v] [<- Hk]].
  apply filter_In in Hk as [_ Hk]. cbn [fst] in *.
  now apply negb_true_iff in Hk.
Qed.

(** C7.  The table that the parser returns holds no key beginning with
    badge_, whatever the source files hold; in the merged table a key that
    begins with badge_ is one of the two derived keys of an item of the
    auxiliary source and carries the entry that the merger built; and the
    merger gives each of the two derived keys of every item a text for
    each of en, es, pt. *)
Theorem C7_badge_keys_from_merger (cb : str -> bytes) (T B : table) :
  _get_translated_strings cb = Ok T ->
  _add_badges_entries scandir_dirs json_loads cb = Ok B ->
  (forall k, In k (dkeys T) -> startswith k (lit "badge_") = false)
  /\ (forall k, In k (dkeys (dupdate T B)) ->
        startswith k (lit "badge_") = true ->
        (exists alias, In alias scandir_dirs
                       /\ (k = badge_key_name alias \/ k = badge_key_desc alias))
        /\ dget k (dupdate T B) = dget k B)
  /\ (forall alias k, In alias scandir_dirs ->
        k = badge_key_name alias \/ k = badge_key_desc alias ->
        startswith k (lit "badge_") = true
        /\ exists values,
             dget k (dupdate T B) = Some values
             /\ forall lang, In lang _LANGS ->
                             exists v, dget lang values = Some v).
Proof.
  intros HT HB. unfold _add_badges_entries in HB.
  destruct (add_badges_spec _ _ _ _ HB) as [A1 [A2 [A3 A4]]].
  pose proof (parser_result_no_badges cb T HT) as NB.
  assert (NoDup (dkeys B)) as ND by (apply A2; constructor).
  split; [exact NB|]. split.
  - intros k Hk Bk. apply dkeys_dupdate in Hk as [Hk|Hk].
    { rewrite (NB k Hk) in Bk. discriminate. }
    split; [|now apply dget_dupdate_in].
    destruct (A1 k Hk) as [F|H]; [destruct F | exact H].
  - intros alias k Ha Hk.
    split; [destruct Hk as [-> | ->]; apply startswith_app|].
    assert (forall l, In l _LANGS -> lookup2 B k l <> None) as L.
    { intros l Hl. destruct (A4 alias l Ha Hl) as [L1 L2].
      now destruct Hk as [-> | ->]. }
    destruct (lookup2_all_langs B k L) as [values [G V]].
    exists values. split; [|exact V].
    rewrite dget_dupdate_in; [exact G | exact ND|].
    apply dget_In in G. apply (in_map fst) in G. exact G.
Qed.

End Merger.

(** ** Sorting *)

Lemma str_leb_total (a b : str) : str_leb a b = false -> str_leb b a = true.
Proof.
  revert b; induction a as [|x a IH]; intros [|y b]; simpl; try discriminate;
    try reflexivity.
  destruct (x <? y) eqn:L1; [discriminate|].
  destruct (y <? x) eqn:L2; [reflexivity|]. apply IH.
Qed.

Lemma insert_sorted_perm (k : str) (l : list str) :
  Permutation (insert_sorted k l) (k :: l).
Proof.
  induction l as [|h t IH]; simpl; [reflexivity|].
  destruct (str_leb k h); [reflexivity|].
  rewrite IH. apply perm_swap.
Qed.

Lemma sorted_perm (l : list str) : Permutation (sorted l) l.
Proof.
  induction l as [|k l IH]; simpl; [reflexivity|].
  rewrite insert_sorted_perm. now constructor.
Qed.

Lemma insert_sorted_Sorted (k : str) (l : list str) :
  Sorted (fun a b => str_leb a b = true) l ->
  Sorted (fun a b => str_leb a b = true) (insert_sorted k l).
Proof.
  induction l as [|h t IH]; simpl; intros S.
  - repeat constructor.
  - destruct (str_leb k h) eqn:L.
    + constructor; [assumption | now constructor].
    + inversion S as [|? ? S' H]; subst.
      constructor; [now apply IH|].
      destruct t as [|h' t]; simpl.
      * constructor. now apply str_leb_total.
      * inversion H; subst.
        destruct (str_leb k h'); constructor;
          [now apply str_leb_total | assumption].
Qed.

Lemma sorted_Sorted (l : list str) :
  Sorted (fun a b => str_leb a b = true) (sorted l).
Proof.
  induction l as [|k l IH]; simpl; [constructor|].
  now apply insert_sorted_Sorted.
Qed.

Lemma sorted_NoDup (l : list str) : NoDup l -> NoDup (sorted l).
Proof.
  intros H. apply (Permutation_NoDup (l := l)); [|assumption].
  apply Permutation_sym, sorted_perm.
Qed.

Lemma sorted_items_id (l : list (str * str)) :
  Sorted (fun a b => str_leb a b = true) (map fst l) -> sorted_items l = l.
Proof.
  induction l as [|a l IH]; simpl; intros S; [reflexivity|].
  inversion S as [|? ? S' H]; subst.
  unfold sorted_items in *. cbn [fold_right]. rewrite (IH S').
  destruct l as [|b l]; [reflexivity|].
  simpl in H. inversion H; subst. simpl.
  match goal with E : str_leb _ _ = true |- _ => now rewrite E end.
Qed.

Lemma dset_fresh {V} (k : str) (v : V) (d : dict V) :
  ~ In k (dkeys d) -> dset k v d = d ++ [(k, v)].
Proof.
  unfold dkeys. induction d as [|[k' v'] d IH]; simpl; intros NI;
    [reflexivity|].
  destruct (str_eqb k k') eqn:E.
  - apply str_eqb_eq in E. subst. tauto.
  - rewrite IH; [reflexivity | tauto].
Qed.

Lemma fold_dset_fresh {V} (f : str -> V) (ks : list str) :
  NoDup ks -> forall acc : dict V,
  (forall k, In k ks -> ~ In k (dkeys acc)) ->
  fold_left (fun m k => dset k (f k) m) ks acc
  = acc ++ map (fun k => (k, f k)) ks.
Proof.
  induction ks as [|k ks IH]; intros ND acc H; simpl.
  - now rewrite app_nil_r.
  - inversion ND as [|? ? NI ND']; subst.
    rewrite (dset_fresh k (f k) acc) by (apply H; now left).
    rewrite IH; [now rewrite <- app_assoc | assumption |].
    intros k' Hk' Hin. unfold dkeys in Hin. rewrite map_app in Hin.
    apply in_app_or in Hin as [Hin|[<-|[]]].
    + apply (H k'); [now right | exact Hin].
    + contradiction.
Qed.

(** ** [_unescape] *)

Lemma replace2_cons (a b : char) (new : str) (x : char) (t : str) :
  (x =? a) = false \/ (forall y r, t = y :: r -> (y =? b) = false) ->
  replace2 a b new (x :: t) = x :: replace2 a b new t.
Proof.
  intros H. destruct t as [|y r]; [reflexivity|].
  cbn [replace2].
  destruct H as [H|H]; [now rewrite H|].
  rewrite (H y r eq_refl). now rewrite andb_false_r.
Qed.

Lemma replace2_quote_head (y : char) (r : str) :
  exists t, replace2 BACKSLASH QUOTE [QUOTE] (y :: r) = y :: t
            \/ (y = BACKSLASH
                /\ replace2 BACKSLASH QUOTE [QUOTE] (y :: r) = QUOTE :: t).
Proof.
  destruct r as [|z r]; [exists []; now left|].
  cbn [replace2].
  destruct ((y =? BACKSLASH) && (z =? QUOTE)) eqn:E.
  - apply andb_true_iff in E as [E _]. apply N.eqb_eq in E.
    eexists. right. split; [exact E | reflexivity].
  - eexists. left. reflexivity.
Qed.

Lemma unescape_once_len (n : nat) (s : str) :
  (List.length s <= n)%nat -> _unescape s = unescape_once s.
Proof.
  unfold _unescape.
  revert s; induction n as [|n IH]; intros s Hn.
  - destruct s; [reflexivity | simpl in Hn; lia].
  - destruct s as [|x [|y r]]; try reflexivity.
    simpl in Hn. cbn [unescape_once].
    destruct ((x =? BACKSLASH) && (y =? QUOTE)) eqn:E1.
    + cbn [replace2]. rewrite E1. cbn [app].
      rewrite replace2_cons by (left; reflexivity).
      f_equal. apply IH. lia.
    + destruct ((x =? BACKSLASH) && (y =? 110)) eqn:E2.
      * apply andb_true_iff in E2 as [Ex Ey].
        apply N.eqb_eq in Ex, Ey. subst x y.
        rewrite (replace2_cons BACKSLASH QUOTE [QUOTE] BACKSLASH (110 :: r))
          by (right; intros y r' H; now injection H as <- _).
        rewrite (replace2_cons BACKSLASH QUOTE [QUOTE] 110 r)
          by (left; reflexivity).
        change (replace2 BACKSLASH 110 [LF]
                  (BACKSLASH :: 110 :: replace2 BACKSLASH QUOTE [QUOTE] r))
          with (LF :: replace2 BACKSLASH 110 [LF]
                        (replace2 BACKSLASH QUOTE [QUOTE] r)).
        f_equal. apply IH. lia.
      * assert (replace2 BACKSLASH QUOTE [QUOTE] (x :: y :: r)
                = x :: replace2 BACKSLASH QUOTE [QUOTE] (y :: r)) as ->.
        { cbn [replace2]. now rewrite E1. }
        rewrite replace2_cons.
        -- f_equal. apply IH. simpl. lia.
        -- destruct (x =? BACKSLASH) eqn:Ex; [right | now left].
           simpl in E1, E2.
           intros y' r' H.
           destruct (replace2_quote_head y r) as [t [G|[G1 G2]]].
           ++ rewrite G in H. injection H as <- _. exact E2.
           ++ rewrite G2 in H. injection H as <- _. reflexivity.
Qed.

Lemma unescape_once_eq (s : str) : _unescape s = unescape_once s.
Proof. apply (unescape_once_len (List.length s)). lia. Qed.

Lemma lor_high_low (a b : N) : b < 1024 -> N.lor (a * 1024) b = a * 1024 + b.
Proof.
  intros H.
  assert (N.land (a * 1024) b = 0) as D.
  { apply N.bits_inj_0. intros i. rewrite N.land_spec.
    destruct (N.lt_ge_cases i 10) as [L|L].
    - change 1024 with (2 ^ 10). now rewrite N.mul_pow2_bits_low.
    - destruct (N.eq_dec b 0) as [->|NZ].
      + now rewrite N.bits_0, andb_false_r.
      + rewrite (N.bits_above_log2 b i), andb_false_r; [reflexivity|].
        apply N.lt_le_trans with 10; [|exact L].
        apply N.log2_lt_pow2; [lia|exact H]. }
  now rewrite <- (N.lxor_lor _ _ D), (N.add_nocarry_lxor _ _ D).
Qed.

(** The two halves of a surrogate pair, in arithmetic. *)
Lemma surrogate_pair (n : N) :
  N.lor 0xD800 (N.land (N.shiftr n 10) 0x3FF) = 0xD800 + (n / 1024) mod 1024
  /\ N.lor 0xDC00 (N.land n 0x3FF) = 0xDC00 + n mod 1024.
Proof.
  change 0x3FF with (N.ones 10).
  rewrite !N.land_ones, N.shiftr_div_pow2. change (2 ^ 10) with 1024.
  change 0xD800 with (54 * 1024). change 0xDC00 with (55 * 1024).
  split; apply lor_high_low; apply N.mod_lt; lia.
Qed.

Lemma join_tab (l : list str) :
  l <> [] ->
  [9] ++ join [44; LF; 9] l = join [44; LF] (map (fun x => [9] ++ x) l).
Proof.
  induction l as [|p [|q l] IH]; intros NE; [contradiction|reflexivity|].
  change (join [44; LF; 9] (p :: q :: l))
    with (p ++ [44; LF; 9] ++ join [44; LF; 9] (q :: l)).
  change (join [44; LF] (map (fun x => [9] ++ x) (p :: q :: l)))
    with (([9] ++ p) ++ [44; LF]
          ++ join [44; LF] (map (fun x => [9] ++ x) (q :: l))).
  rewrite <- IH by discriminate. rewrite <- !app_assoc. reflexivity.
Qed.

Lemma json_object_text_lines (items : list (str * str)) :
  items <> [] ->
  json_object_text items
  = lit "{" ++ [LF]
    ++ join (lit "," ++ [LF])
         (map (fun kv => [9] ++ json_dumps_str (fst kv) ++ lit ": "
                         ++ json_dumps_str (snd kv)) items)
    ++ [LF] ++ lit "}".
Proof.
  intros NE. unfold json_object_text.
  destruct items as [|kv items]; [contradiction|].
  change (lit "," ++ [LF]) with [44; LF].
  rewrite <- (map_map (fun kv => json_dumps_str (fst kv) ++ lit ": "
                                 ++ json_dumps_str (snd kv))
                      (fun x => [9] ++ x)).
  rewrite <- join_tab by discriminate.
  change [LF; 9] with ([LF] ++ [9]). rewrite <- !app_assoc. reflexivity.
Qed.

(** C8.  For every table (a dictionary: its keys are distinct) and every
    language, the structured-map emission is the text of one JSON object
    whose items are the keys of the table in sorted order, each with its
    text for the language unescaped; unescaping replaces, in one pass,
    every backslash-quote by a quote and every backslash-n by a line feed.
    The text is spelled out: the two braces for the table without keys;
    otherwise an opening brace, one line per key, and a closing brace on a
    line of its own, where the line of a key is a tab, the key as a JSON
    string, a colon and a space, and the unescaped text as a JSON string,
    and every line but the last ends with a comma.  A JSON string stands
    between two quotes and re-escapes its characters: a quote and a
    backslash are preceded by a backslash; line feed, carriage return, tab,
    form feed and backspace are written as backslash n, r, t, f, b; every
    other character from space to tilde is kept; any other character is
    written as backslash u and four hexadecimal digits, twice (a surrogate
    pair) above U+FFFF.  The table that maps hi to Hi! for en yields the
    object of the single item hi: Hi!; and a table with the keys b_key
    and a_key, whose text for a_key is stored with backslash-quote and
    backslash-n, yields a_key first, with that text unescaped and
    escaped again, and the character U+00F1 of the text of b_key as a
    backslash-u escape. *)
Theorem C8_structured_map (lang : str) (strings : table) :
  NoDup (dkeys strings) ->
  let keys := sorted (dkeys strings) in
  _generate_json lang strings
  = json_object_text
      (map (fun k => (k, _unescape (getitem2 strings k lang))) keys)
  /\ Permutation keys (dkeys strings)
  /\ Sorted (fun a b => str_leb a b = true) keys
  /\ (forall s, _unescape s = unescape_once s)
  /\ _generate_json (lit "en") [(lit "hi", [(lit "en", lit "Hi!")])]
     = lit "{" ++ [LF; 9; QUOTE] ++ lit "hi" ++ [QUOTE] ++ lit ": "
       ++ [QUOTE] ++ lit "Hi!" ++ [QUOTE; LF] ++ lit "}"
  /\ (keys = [] -> _generate_json lang strings = lit "{}")
  /\ (keys <> [] ->
      _generate_json lang strings
      = lit "{" ++ [LF]
        ++ join (lit "," ++ [LF])
             (map (fun k =>
                     [9] ++ json_dumps_str k ++ lit ": "
                     ++ json_dumps_str (_unescape (getitem2 strings k lang)))
                  keys)
        ++ [LF] ++ lit "}")
  /\ (forall s, json_dumps_str s
                = [QUOTE] ++ flat_map json_escape_char s ++ [QUOTE])
  /\ (forall c,
        let hex := fun d => if d <? 10 then 48 + d else 87 + d in
        let u := fun n => [BACKSLASH; 117; hex ((n / 4096) mod 16);
                           hex ((n / 256) mod 16); hex ((n / 16) mod 16);
                           hex (n mod 16)] in
        json_escape_char c =
        if c =? QUOTE then [BACKSLASH; QUOTE]
        else if c =? BACKSLASH then [BACKSLASH; BACKSLASH]
        else if c =? LF then [BACKSLASH; 110]
        else if c =? 13 then [BACKSLASH; 114]
        else if c =? 9 then [BACKSLASH; 116]
        else if c =? 12 then [BACKSLASH; 102]
        else if c =? 8 then [BACKSLASH; 98]
        else if (0x20 <=? c) && (c <=? 0x7E) then [c]
        else if c <? 0x10000 then u c
        else u (0xD800 + ((c - 0x10000) / 1024) mod 1024)
             ++ u (0xDC00 + (c - 0x10000) mod 1024))
  /\ _generate_json (lit "en") escaped_table
     = lit "{" ++ [LF; 9; QUOTE] ++ lit "a_key" ++ [QUOTE] ++ lit ": "
       ++ [QUOTE] ++ lit "say " ++ [BACKSLASH; QUOTE] ++ lit "hi"
       ++ [BACKSLASH; QUOTE] ++ [BACKSLASH; 110] ++ [QUOTE] ++ lit ","
       ++ [LF; 9; QUOTE] ++ lit "b_key" ++ [QUOTE] ++ lit ": "
       ++ [QUOTE] ++ lit "A" ++ [BACKSLASH] ++ lit "u00f1o" ++ [QUOTE; LF]
       ++ lit "}".
Proof.
  intros ND keys.
  assert (_generate_json lang strings
          = json_object_text
              (map (fun k => (k, _unescape (getitem2 strings k lang))) keys))
    as G.
  { unfold _generate_json, json_dumps_map. fold keys.
    rewrite (fold_dset_fresh (fun k => _unescape (getitem2 strings k lang)));
      [|now apply sorted_NoDup | intros k _ []].
    cbn [app]. rewrite sorted_items_id; [reflexivity|].
    rewrite map_map. cbn [fst]. rewrite map_id. apply sorted_Sorted. }
  split; [exact G|].
  split; [apply sorted_perm|]. split; [apply sorted_Sorted|].
  split; [apply unescape_once_eq|]. split; [reflexivity|].
  split; [intros E; rewrite G, E; reflexivity|].
  split.
  { intros NE. rewrite G, json_object_text_lines.
    - now rewrite map_map.
    - destruct keys; [contradiction|discriminate]. }
  split; [reflexivity|]. split; [|reflexivity].
  intros c hex u. unfold json_escape_char. cbv zeta.
  destruct (surrogate_pair (c - 0x10000)) as [-> ->]. reflexivity.
Qed.

(** ** Escaping and the value pattern *)

Lemma escape_head (v : str) :
  forall y r, replace1 QUOTE [BACKSLASH; QUOTE] v = y :: r ->
              (y =? QUOTE) = false.
Proof.
  intros y r. destruct v as [|c v]; [discriminate|].
  unfold replace1. cbn [flat_map].
  destruct (c =? QUOTE) eqn:E; cbn [app]; intros H; injection H as <- _.
  - reflexivity.
  - exact E.
Qed.

Lemma escape_cons (c : char) (v : str) :
  replace1 QUOTE [BACKSLASH; QUOTE] (c :: v) =
  (if c =? QUOTE then [BACKSLASH; QUOTE] else [c])
  ++ replace1 QUOTE [BACKSLASH; QUOTE] v.
Proof. reflexivity. Qed.

Lemma unescape_escape (v : str) :
  replace2 BACKSLASH QUOTE [QUOTE] (replace1 QUOTE [BACKSLASH; QUOTE] v) = v.
Proof.
  induction v as [|c v IH]; [reflexivity|].
  rewrite escape_cons. destruct (c =? QUOTE) eqn:E; cbn [app].
  - apply N.eqb_eq in E; subst c.
    cbn [replace2]. rewrite !N.eqb_refl. cbn [andb app]. now rewrite IH.
  - rewrite replace2_cons; [now rewrite IH|].
    right. apply escape_head.
Qed.

Lemma payload_ok_cons (x : char) (t : str) :
  (x =? QUOTE) = false ->
  (forall y r, t = y :: r -> (y =? QUOTE) = false) ->
  payload_ok (x :: t) = payload_ok t.
Proof.
  intros X H. cbn [payload_ok]. rewrite X.
  destruct t as [|y r]; [reflexivity|].
  rewrite (H y r eq_refl). now rewrite andb_false_r.
Qed.

Lemma payload_ok_escape (v : str) :
  payload_ok (replace1 QUOTE [BACKSLASH; QUOTE] v) = true.
Proof.
  induction v as [|c v IH]; [reflexivity|].
  rewrite escape_cons. destruct (c =? QUOTE) eqn:E; cbn [app].
  - cbn [payload_ok]. change (BACKSLASH =? QUOTE) with false.
    rewrite !N.eqb_refl. cbn [andb]. exact IH.
  - rewrite payload_ok_cons; [exact IH | exact E | apply escape_head].
Qed.

Lemma payload_ok_cons2 (x y : char) (r : str) :
  payload_ok (x :: y :: r) =
  if x =? QUOTE then false
  else if (x =? BACKSLASH) && (y =? QUOTE) then payload_ok r
       else payload_ok (y :: r).
Proof. reflexivity. Qed.

Lemma replace2_cons2 (a b : char) (new : str) (x y : char) (r : str) :
  replace2 a b new (x :: y :: r) =
  if (x =? a) && (y =? b) then new ++ replace2 a b new r
  else x :: replace2 a b new (y :: r).
Proof. reflexivity. Qed.

Lemma escape_unescape_len (n : nat) (p : str) :
  (List.length p <= n)%nat -> payload_ok p = true ->
  replace1 QUOTE [BACKSLASH; QUOTE] (replace2 BACKSLASH QUOTE [QUOTE] p) = p.
Proof.
  revert p; induction n as [|n IH]; intros p Hn.
  - destruct p; [reflexivity | simpl in Hn; lia].
  - destruct p as [|x [|y r]]; [reflexivity| |].
    + cbn [payload_ok replace2]. destruct (x =? QUOTE) eqn:X; [discriminate|].
      intros _. rewrite escape_cons, X. reflexivity.
    + simpl in Hn. rewrite payload_ok_cons2, replace2_cons2.
      destruct (x =? QUOTE) eqn:X; [discriminate|].
      destruct ((x =? BACKSLASH) && (y =? QUOTE)) eqn:E; intros P.
      * apply andb_true_iff in E as [Ex Ey].
        apply N.eqb_eq in Ex, Ey; subst x y.
        cbn [app]. rewrite escape_cons, N.eqb_refl. cbn [app].
        do 2 f_equal. apply IH; [lia | assumption].
      * rewrite escape_cons, X. cbn [app].
        f_equal. apply IH; [simpl; lia | assumption].
Qed.

Lemma escape_unescape (p : str) :
  payload_ok p = true ->
  replace1 QUOTE [BACKSLASH; QUOTE] (replace2 BACKSLASH QUOTE [QUOTE] p) = p.
Proof. apply (escape_unescape_len (List.length p)). lia. Qed.

Lemma match_value_quoted (p : str) :
  payload_ok p = true -> match_value (QUOTE :: p ++ [QUOTE]) = Some p.
Proof.
  intros P. unfold match_value.
  change (QUOTE :: p ++ [QUOTE]) with ((QUOTE :: p) ++ [QUOTE]).
  rewrite rev_unit. change (QUOTE =? LF) with false. cbv iota.
  cbn [app]. rewrite rev_unit, rev_involutive, P. reflexivity.
Qed.

(** ** The split of a rendered line *)

Lemma lstrip_id (c : char) (s : str) :
  isspace c = false -> lstrip (c :: s) = c :: s.
Proof. intros H. cbn [lstrip]. now rewrite H. Qed.

Lemma strip_id (c d : char) (s : str) :
  isspace c = false -> isspace d = false ->
  strip (c :: s ++ [d]) = c :: s ++ [d].
Proof.
  intros C D. unfold strip, rstrip. rewrite lstrip_id by assumption.
  change (c :: s ++ [d]) with ((c :: s) ++ [d]).
  rewrite rev_unit, lstrip_id by assumption.
  rewrite <- rev_unit. apply rev_involutive.
Qed.

Lemma find_sep_key (k rest : str) :
  forallb (fun c => negb (isspace c)) k = true ->
  find_sep (k ++ lit " = " ++ QUOTE :: rest) = Some (k, QUOTE :: rest).
Proof.
  induction k as [|c k IH]; intros H.
  - reflexivity.
  - cbn [forallb] in H. apply andb_true_iff in H as [C H].
    apply negb_true_iff in C.
    cbn [app find_sep]. unfold match_sep at 1. rewrite C.
    now rewrite (IH H).
Qed.
Lemma row_entry_sorted_row (lang : str) (strings : table) (key : str) :
  key <> [] -> forallb (fun c => negb (isspace c)) key = true ->
  row_entry (sorted_row lang strings key)
  = Some (key, getitem2 strings key lang).
Proof.
  intros NE W. unfold row_entry, sorted_row.
  set (e := replace1 QUOTE [BACKSLASH; QUOTE] (getitem2 strings key lang)).
  assert (strip (key ++ lit " = " ++ [QUOTE] ++ e ++ [QUOTE])
          = key ++ lit " = " ++ QUOTE :: e ++ [QUOTE]) as ->.
  { destruct key as [|c k]; [contradiction|].
    cbn [forallb] in W. apply andb_true_iff in W as [C _].
    apply negb_true_iff in C.
    replace ((c :: k) ++ lit " = " ++ [QUOTE] ++ e ++ [QUOTE])
      with (c :: (k ++ lit " = " ++ [QUOTE] ++ e) ++ [QUOTE]).
    2:{ cbn [app]. now rewrite <- !app_assoc. }
    rewrite strip_id by (assumption || reflexivity).
    cbn [app]. now rewrite <- !app_assoc. }
  unfold re_split_sep. rewrite find_sep_key by assumption.
  rewrite match_value_quoted by apply payload_ok_escape.
  unfold e. now rewrite unescape_escape.
Qed.

(** ** Encoded renderings *)

Lemma encode_app (a b : str) (x y : bytes) :
  encode a = Some x -> encode b = Some y -> encode (a ++ b) = Some (x ++ y).
Proof.
  revert x; induction a as [|c a IH]; intros x Ha Hb.
  - simpl in Ha. apply Some_inj in Ha. now subst x.
  - cbn [encode app] in *.
    destruct (encode_char c) as [bs|]; [|discriminate].
    destruct (encode a) as [r|]; [|discriminate].
    apply Some_inj in Ha. subst x.
    rewrite (IH r eq_refl Hb). now rewrite app_assoc.
Qed.

Lemma encodable_encode (s : str) :
  encodable s = true -> exists b, encode s = Some b.
Proof.
  unfold encodable. induction s as [|c s IH]; intros H.
  - now exists [].
  - cbn [forallb] in H. apply andb_true_iff in H as [C H].
    destruct (IH H) as [b E]. cbn [encode].
    destruct (encode_char c) as [bs|]; [|discriminate].
    rewrite E. now eexists.
Qed.

Lemma encodable_app (a b : str) :
  encodable (a ++ b) = encodable a && encodable b.
Proof. apply forallb_app. Qed.

Lemma encodable_escape (v : str) :
  encodable v = true -> encodable (replace1 QUOTE [BACKSLASH; QUOTE] v) = true.
Proof.
  induction v as [|c v IH]; intros H; [reflexivity|].
  unfold encodable in H. cbn [forallb] in H.
  apply andb_true_iff in H as [C H].
  rewrite escape_cons, encodable_app, (IH H), andb_true_r.
  destruct (c =? QUOTE); [reflexivity|].
  unfold encodable. cbn [forallb]. now rewrite C.
Qed.

Lemma encode_char_LF (c : char) (bs : bytes) :
  encode_char c = Some bs -> In LF bs -> c = LF.
Proof.
  unfold encode_char, is_surrogate, LF.
  destruct (c <? 0x80) eqn:C1.
  { intros H; apply Some_inj in H; subst bs. intros [H|[]]. now symmetry. }
  destruct (c <? 0x800).
  { intros H; apply Some_inj in H; subst bs. cbn [In]. intros H. exfalso. lia. }
  destruct (c <? 0x10000).
  { destruct ((0xD800 <=? c) && (c <=? 0xDFFF)); [discriminate|].
    intros H; apply Some_inj in H; subst bs. cbn [In]. intros H. exfalso. lia. }
  destruct (c <? 0x110000); [|discriminate].
  intros H; apply Some_inj in H; subst bs. cbn [In]. intros H. exfalso. lia.
Qed.

Lemma encode_LF (s : str) (b : bytes) :
  encode s = Some b -> In LF b -> In LF s.
Proof.
  revert b; induction s as [|c s IH]; intros b H Hin.
  - simpl in H. apply Some_inj in H. now subst b.
  - cbn [encode] in H.
    destruct (encode_char c) as [bs|] eqn:E; [|discriminate].
    destruct (encode s) as [r|]; [|discriminate].
    apply Some_inj in H. subst b.
    apply in_app_or in Hin as [Hin|Hin].
    + left. now apply (encode_char_LF c bs).
    + right. now apply (IH r).
Qed.

(** ** Lines of a file *)

Lemma split_on_app_sep (sep : byte) (l rest : bytes) :
  ~ In sep l ->
  split_on sep (l ++ sep :: rest) = l :: split_on sep rest.
Proof.
  induction l as [|b l IH]; intros NI.
  - cbn [app split_on]. now rewrite N.eqb_refl.
  - cbn [app split_on].
    destruct (b =? sep) eqn:E.
    + apply N.eqb_eq in E. subst b. exfalso. apply NI. now left.
    + rewrite IH; [reflexivity|]. intros H. apply NI. now right.
Qed.

Lemma file_lines_concat (ls : list bytes) :
  (forall l, In l ls -> ~ In LF l) ->
  file_lines (concat (map (fun l => l ++ [LF]) ls)) = ls.
Proof.
  intros H. unfold file_lines. unfold LF in *.
  assert (split_on 10 (concat (map (fun l => l ++ [10]) ls)) = ls ++ [[]])
    as ->.
  { induction ls as [|l ls IH]; [reflexivity|].
    cbn [map concat]. rewrite <- app_assoc. cbn [app].
    rewrite split_on_app_sep by (apply H; now left).
    rewrite IH; [reflexivity|]. intros; apply H; now right. }
  apply removelast_last.
Qed.

(** ** The sorted rendering read back *)

Lemma generate_sorted_rows (lang : str) (strings : table) :
  _generate_sorted lang strings =
  concat (map (fun r => r ++ [LF])
              (map (sorted_row lang strings) (sorted (dkeys strings)))).
Proof.
  unfold _generate_sorted. rewrite map_map. f_equal. apply map_ext.
  intros key. unfold sorted_row. now rewrite <- !app_assoc.
Qed.

Lemma encode_rows (rows : list str) :
  (forall r, In r rows -> encodable r = true) ->
  encode (concat (map (fun r => r ++ [LF]) rows))
  = Some (concat (map (fun b => b ++ [LF]) (map encoded rows))).
Proof.
  induction rows as [|r rows IH]; intros H; [reflexivity|].
  cbn [map concat].
  destruct (encodable_encode r (H r (or_introl eq_refl))) as [b E].
  apply encode_app; [|apply IH; intros; apply H; now right].
  unfold encoded. rewrite E. now apply encode_app.
Qed.

Lemma dget_notin {V} (k : str) (d : dict V) :
  ~ In k (dkeys d) -> dget k d = None.
Proof.
  unfold dkeys. induction d as [|[k' v'] d IH]; simpl; intros NI;
    [reflexivity|].
  destruct (str_eqb k k') eqn:E.
  - apply str_eqb_eq in E. subst. tauto.
  - apply IH. tauto.
Qed.

Lemma dget_badge_filtered (k : str) (s : table) :
  startswith k (lit "badge_") = true ->
  dget k (filter (fun kv => negb (startswith (fst kv) (lit "badge_"))) s)
  = None.
Proof.
  intros B. apply dget_notin. unfold dkeys. intros H.
  apply in_map_iff in H as [[k' v] [E H]]. simpl in E. subst k'.
  apply filter_In in H as [_ H]. cbn [fst] in H. now rewrite B in H.
Qed.

(** ** The shape of a key *)

Lemma lstrip_head (s : str) :
  lstrip s = [] \/ exists c r, lstrip s = c :: r /\ isspace c = false.
Proof.
  induction s as [|c s IH]; [now left|].
  cbn [lstrip]. destruct (isspace c) eqn:E; [exact IH|].
  right. now exists c, s.
Qed.

Lemma lstrip_keeps_last (x : str) (c : char) :
  isspace c = false -> exists t, lstrip (x ++ [c]) = t ++ [c].
Proof.
  intros E. induction x as [|a x IH].
  - exists []. cbn [app lstrip]. now rewrite E.
  - cbn [app lstrip]. destruct (isspace a); [exact IH|].
    now exists (a :: x).
Qed.

Lemma strip_head (s : str) :
  strip s = [] \/ exists c r, strip s = c :: r /\ isspace c = false.
Proof.
  unfold strip, rstrip.
  destruct (lstrip_head s) as [->|[c [r [-> E]]]]; [now left|].
  right. cbn [rev].
  destruct (lstrip_keeps_last (rev r) c E) as [t ->].
  exists c, (rev t). rewrite rev_app_distr. now split.
Qed.

Lemma match_sep_space (s rest : str) :
  match_sep s = Some rest -> exists c r, s = c :: r /\ isspace c = true.
Proof.
  destruct s as [|c r]; [discriminate|]. cbn [match_sep].
  destruct (isspace c) eqn:E; [|discriminate]. intros _. now exists c, r.
Qed.

Lemma match_sep_extend (c : char) (s rest : str) :
  isspace c = true -> match_sep s = Some rest ->
  match_sep (c :: s) = Some rest.
Proof.
  intros E H. destruct s as [|d r]; [discriminate|].
  cbn [match_sep] in *. rewrite E.
  destruct (isspace d) eqn:Ed; [|discriminate].
  cbn [lstrip]. now rewrite Ed.
Qed.

Lemma find_sep_cons (c : char) (r : str) :
  find_sep (c :: r) =
  match match_sep (c :: r) with
  | Some rest => Some ([], rest)
  | None => match find_sep r with
            | Some (k, v) => Some (c :: k, v)
            | None => None
            end
  end.
Proof. reflexivity. Qed.

Lemma find_sep_key_shape (s k v : str) :
  find_sep s = Some (k, v) ->
  (k = [] /\ match_sep s = Some v)
  \/ (exists c k', k = c :: k' /\ exists r, s = c :: r)
     /\ (exists k0 d, k = k0 ++ [d] /\ isspace d = false).
Proof.
  revert k v. induction s as [|c r IH]; intros k v H.
  - discriminate.
  - rewrite find_sep_cons in H.
    destruct (match_sep (c :: r)) as [rest|] eqn:M.
    + injection H as <- <-. now left.
    + destruct (find_sep r) as [[k1 v1]|] eqn:F; [|discriminate].
      injection H as <- <-. right. split; [now exists c, k1; eauto|].
      destruct (IH k1 v1 eq_refl) as [[-> M1]|[_ [k0 [d [-> Ed]]]]].
      * exists [], c. split; [reflexivity|].
        destruct (isspace c) eqn:Ec; [|reflexivity].
        rewrite (match_sep_extend c r v1 Ec M1) in M. discriminate.
      * exists (c :: k0), d. now split.
Qed.

Lemma strip_single (c : char) : isspace c = false -> strip [c] = [c].
Proof.
  intros E. unfold strip, rstrip. cbn [lstrip rev app]. rewrite E.
  cbn [rev app lstrip]. now rewrite E.
Qed.

Lemma row_entry_key_shape (row k v : str) :
  row_entry row = Some (k, v) -> k <> [] /\ strip k = k.
Proof.
  unfold row_entry, re_split_sep.
  destruct (find_sep (strip row)) as [[k1 v1]|] eqn:F; [|discriminate].
  destruct (match_value v1); [|discriminate].
  intros H. injection H as <- _.
  destruct (find_sep_key_shape _ _ _ F)
    as [[-> M]|[[c [k' [-> [r S]]]] [k0 [d [E Ed]]]]].
  - exfalso. apply match_sep_space in M as [c [r [S Ec]]].
    destruct (strip_head row) as [N|[c' [r' [S' Ec']]]]; congruence.
  - split; [discriminate|].
    assert (isspace c = false) as Ec.
    { destruct (strip_head row) as [N|[c' [r' [S' Ec']]]]; congruence. }
    destruct k0 as [|c0 k0]; cbn [app] in E; injection E as -> ->.
    + now apply strip_single.
    + now apply strip_id.
Qed.

Lemma match_sep_plain (rest : str) :
  match_sep (lit " = " ++ QUOTE :: rest) = Some (QUOTE :: rest).
Proof. reflexivity. Qed.

Lemma has_spaced_eq_cons2 (w e : char) (r : str) :
  has_spaced_eq (w :: e :: r) =
  (isspace w && (e =? 61)
   && match r with [] => true | x :: _ => isspace x end)
  || has_spaced_eq (e :: r).
Proof. reflexivity. Qed.

Lemma has_spaced_eq_tail (c : char) (k : str) :
  has_spaced_eq (c :: k) = false -> has_spaced_eq k = false.
Proof.
  destruct k as [|e r]; [reflexivity|]. rewrite has_spaced_eq_cons2.
  intros H. now apply orb_false_iff in H.
Qed.

Lemma strip_last (s : str) :
  strip s = [] \/ exists x d, strip s = x ++ [d] /\ isspace d = false.
Proof.
  unfold strip, rstrip.
  destruct (lstrip_head (rev (lstrip s))) as [->|[d [r [-> E]]]];
    [now left|].
  right. exists (rev r), d. now split.
Qed.

(** No match of the separator starts inside a key without spaced [=]. *)
Lemma match_sep_spaced (u : str) :
  forall c y w t,
    isspace c = true -> has_spaced_eq (c :: u) = false ->
    y = w :: t -> isspace w = true ->
    (exists x d, u = x ++ [d] /\ isspace d = false) ->
    match_sep ((c :: u) ++ y) = None.
Proof.
  induction u as [|a u IH]; intros c y w t Ec H Ey Ew [x [d [E Ed]]].
  - now destruct x.
  - rewrite has_spaced_eq_cons2 in H. apply orb_false_iff in H as [H1 H2].
    rewrite Ec in H1. cbn [andb] in H1.
    cbn [app match_sep]. rewrite Ec. cbn [lstrip].
    destruct (isspace a) eqn:Ea.
    + assert (exists x' d', u = x' ++ [d'] /\ isspace d' = false) as L.
      { destruct x as [|a' x]; cbn [app] in E; injection E as <- E.
        - congruence.
        - now exists x, d. }
      specialize (IH a y w t Ea H2 Ey Ew L).
      cbn [app match_sep] in IH. now rewrite Ea in IH.
    + destruct u as [|b u]; cbn [app].
      * subst y. rewrite Ew. cbn [andb] in *.
        now rewrite andb_true_r in *; rewrite H1.
      * now rewrite H1.
Qed.

Lemma find_sep_spaced (k y v : str) (w : char) (t : str) :
  has_spaced_eq k = false ->
  (k = [] \/ exists x d, k = x ++ [d] /\ isspace d = false) ->
  y = w :: t -> isspace w = true -> match_sep y = Some v ->
  find_sep (k ++ y) = Some (k, v).
Proof.
  intros H L Ey Ew M. revert H L.
  induction k as [|c k IH]; intros H L.
  - cbn [app]. subst y. now rewrite find_sep_cons, M.
  - destruct L as [L|[x [d [E Ed]]]]; [discriminate|].
    assert (k = [] \/ exists x d, k = x ++ [d] /\ isspace d = false) as L'.
    { destruct x as [|c0 x]; cbn [app] in E; injection E as -> E.
      - now left.
      - right. now exists x, d. }
    cbn [app]. rewrite find_sep_cons.
    assert (match_sep (c :: k ++ y) = None) as ->.
    { destruct (isspace c) eqn:Ec.
      - destruct L' as [->|L'].
        + destruct x as [|? [|? ?]]; cbn [app] in E; try discriminate.
          injection E as ->. congruence.
        + exact (match_sep_spaced k c y w t Ec H Ey Ew L').
      - cbn [match_sep]. now rewrite Ec. }
    now rewrite (IH (has_spaced_eq_tail c k H) L').
Qed.

Lemma find_sep_not_spaced (k y v : str) (w : char) (t : str) :
  y = w :: t -> isspace w = true ->
  find_sep (k ++ y) = Some (k, v) -> has_spaced_eq k = false.
Proof.
  intros Ey Ew. revert v. induction k as [|c k IH]; intros v F;
    [reflexivity|].
  cbn [app] in F. rewrite find_sep_cons in F.
  destruct (match_sep (c :: k ++ y)) as [rest|] eqn:M; [discriminate|].
  destruct (find_sep (k ++ y)) as [[k1 v1]|] eqn:F1; [|discriminate].
  injection F as -> ->. specialize (IH v eq_refl).
  destruct k as [|e r]; [reflexivity|].
  rewrite has_spaced_eq_cons2, IH, orb_false_r.
  destruct (isspace c) eqn:Ec; [|reflexivity].
  destruct (e =? 61) eqn:Ee; [|reflexivity]. cbn [andb].
  apply N.eqb_eq in Ee. subst e.
  cbn [app match_sep] in M. rewrite Ec in M. cbn [lstrip] in M.
  change (isspace 61) with false in M. cbv iota in M.
  destruct r as [|x r]; cbn [app] in M.
  - subst y. rewrite Ew in M. discriminate.
  - destruct (isspace x); [discriminate|reflexivity].
Qed.

(** A key can be read back from its row of the sorted rendering exactly
    when it is not empty, has no white space at either end and no spaced
    [=]. *)
Lemma row_entry_sorted_row_iff (lang : str) (strings : table) (key : str) :
  row_entry (sorted_row lang strings key)
  = Some (key, getitem2 strings key lang)
  <-> key <> [] /\ strip key = key /\ has_spaced_eq key = false.
Proof.
  set (v := getitem2 strings key lang).
  set (g := replace1 QUOTE [BACKSLASH; QUOTE] v).
  assert (sorted_row lang strings key
          = key ++ lit " = " ++ QUOTE :: g ++ [QUOTE]) as R by reflexivity.
  rewrite R. split.
  - intros H.
    destruct (row_entry_key_shape _ key v H) as [NE SK].
    split; [exact NE|]. split; [exact SK|].
    destruct key as [|c k']; [contradiction|].
    assert (isspace c = false) as Ec.
    { destruct (strip_head (c :: k')) as [N|[c' [r' [S' Ec']]]];
        congruence. }
    revert H. unfold row_entry, re_split_sep.
    assert (strip ((c :: k') ++ lit " = " ++ QUOTE :: g ++ [QUOTE])
            = (c :: k') ++ lit " = " ++ QUOTE :: g ++ [QUOTE]) as ->.
    { replace ((c :: k') ++ lit " = " ++ QUOTE :: g ++ [QUOTE])
        with (c :: (k' ++ lit " = " ++ QUOTE :: g) ++ [QUOTE]).
      - now apply strip_id.
      - cbn [app]. now rewrite <- !app_assoc. }
    destruct (find_sep ((c :: k') ++ lit " = " ++ QUOTE :: g ++ [QUOTE]))
      as [[k1 v1]|] eqn:F; [|discriminate].
    destruct (match_value v1); [|discriminate].
    intros H. injection H as -> _.
    exact (find_sep_not_spaced (c :: k') _ v1 32
             (61 :: 32 :: QUOTE :: g ++ [QUOTE]) eq_refl eq_refl F).
  - intros [NE [SK HS]].
    assert (exists x d, key = x ++ [d] /\ isspace d = false) as L.
    { destruct (strip_last key) as [N|[x [d [E Ed]]]].
      - rewrite SK in N. contradiction.
      - rewrite SK in E. now exists x, d. }
    destruct key as [|c k']; [contradiction|].
    assert (isspace c = false) as Ec.
    { destruct (strip_head (c :: k')) as [N|[c' [r' [S' Ec']]]];
        congruence. }
    unfold row_entry, re_split_sep.
    assert (strip ((c :: k') ++ lit " = " ++ QUOTE :: g ++ [QUOTE])
            = (c :: k') ++ lit " = " ++ QUOTE :: g ++ [QUOTE]) as ->.
    { replace ((c :: k') ++ lit " = " ++ QUOTE :: g ++ [QUOTE])
        with (c :: (k' ++ lit " = " ++ QUOTE :: g) ++ [QUOTE]).
      - now apply strip_id.
      - cbn [app]. now rewrite <- !app_assoc. }
    rewrite (find_sep_spaced (c :: k') (lit " = " ++ QUOTE :: g ++ [QUOTE])
               (QUOTE :: g ++ [QUOTE]) 32
               (61 :: 32 :: QUOTE :: g ++ [QUOTE]) HS (or_intror L)
               eq_refl eq_refl (match_sep_plain _)).
    unfold g. rewrite (match_value_quoted _ (payload_ok_escape v)).
    now rewrite unescape_escape.
Qed.

Section RoundTrip.

Variable strings : table.
Hypothesis keys_distinct : NoDup (dkeys strings).
Hypothesis well_formed :
  forall key values, In (key, values) strings ->
    round_trip_key key = true /\ encodable key = true
    /\ forall lang, In lang _LANGS ->
         exists v, dget lang values = Some v
                   /\ plain_value v = true /\ encodable v = true.

Lemma key_entry (key : str) :
  In key (dkeys strings) ->
  exists values, In (key, values) strings /\ dget key strings = Some values.
Proof.
  intros H. unfold dkeys in H. apply in_map_iff in H as [[k values] [E H]].
  simpl in E. subst k. exists values. split; [assumption|].
  now apply In_dget.
Qed.

Lemma getitem2_lookup2 (key lang : str) :
  In key (dkeys strings) -> In lang _LANGS ->
  lookup2 strings key lang = Some (getitem2 strings key lang)
  /\ plain_value (getitem2 strings key lang) = true
  /\ encodable (getitem2 strings key lang) = true.
Proof.
  intros Hk Hl. destruct (key_entry key Hk) as [values [Hin G]].
  destruct (well_formed key values Hin) as [_ [_ W]].
  destruct (W lang Hl) as [v [D [P E]]].
  unfold lookup2, getitem2, dd_getitem. rewrite G, D. simpl. tauto.
Qed.

Lemma round_trip_key_parts (key : str) :
  round_trip_key key = true ->
  key <> [] /\ strip key = key /\ ~ In LF key
  /\ has_spaced_eq key = false
  /\ startswith key (lit "badge_") = false.
Proof.
  unfold round_trip_key. rewrite !andb_true_iff, !negb_true_iff.
  intros [[[[E S] L] H] B]. repeat split; try assumption.
  - intros ->. discriminate.
  - now apply str_eqb_eq.
  - intros I. unfold plain_value in L. rewrite forallb_forall in L.
    specialize (L LF I). discriminate.
Qed.

Lemma sorted_row_facts (key lang : str) :
  In key (dkeys strings) -> In lang _LANGS ->
  encodable (sorted_row lang strings key) = true
  /\ ~ In LF (sorted_row lang strings key)
  /\ row_entry (sorted_row lang strings key)
     = Some (key, getitem2 strings key lang).
Proof.
  intros Hk Hl. destruct (key_entry key Hk) as [values [Hin G]].
  destruct (well_formed key values Hin) as [PK [EK _]].
  destruct (getitem2_lookup2 key lang Hk Hl) as [_ [PV EV]].
  destruct (round_trip_key_parts key PK) as [NE [SK [NL [HS _]]]].
  split; [|split].
  - unfold sorted_row. rewrite !encodable_app, EK, encodable_escape by exact EV.
    reflexivity.
  - unfold sorted_row. intros H.
    apply in_app_or in H as [H|H].
    { contradiction. }
    apply in_app_or in H as [H|H].
    { simpl in H. intuition discriminate. }
    apply in_app_or in H as [H|H].
    { simpl in H. intuition discriminate. }
    apply in_app_or in H as [H|H].
    2:{ simpl in H. intuition discriminate. }
    unfold replace1 in H. apply in_flat_map in H as [c [Hc H]].
    unfold plain_value in PV. rewrite forallb_forall in PV.
    specialize (PV c Hc). apply negb_true_iff in PV.
    destruct (c =? QUOTE); simpl in H.
    + intuition discriminate.
    + destruct H as [H|[]]. subst c. discriminate.
  - apply row_entry_sorted_row_iff. tauto.
Qed.

Lemma rendered_source_lang (lang : str) :
  In lang _LANGS ->
  rendered_sources strings (lang_path lang)
  = encoded (_generate_sorted lang strings).
Proof.
  intros Hl. unfold rendered_sources.
  assert (find (fun l => str_eqb (lang_path lang) (lang_path l)) _LANGS
          = Some lang) as ->; [|reflexivity].
  destruct Hl as [<-|[<-|[<-|[]]]]; reflexivity.
Qed.

Lemma rendered_lines (lang : str) :
  In lang _LANGS ->
  file_lines (rendered_sources strings (lang_path lang))
  = map (fun key => encoded (sorted_row lang strings key))
        (sorted (dkeys strings)).
Proof.
  intros Hl. rewrite rendered_source_lang, generate_sorted_rows by assumption.
  assert (forall key, In key (sorted (dkeys strings)) ->
                      In key (dkeys strings)) as Hs.
  { intros key. apply Permutation_in, sorted_perm. }
  unfold encoded at 1. rewrite encode_rows.
  2:{ intros r Hr. apply in_map_iff in Hr as [key [<- Hk]].
      exact (proj1 (sorted_row_facts key lang (Hs key Hk) Hl)). }
  rewrite file_lines_concat; [now rewrite map_map|].
  intros l Hin. rewrite map_map in Hin.
  apply in_map_iff in Hin as [key [<- Hk]].
  destruct (sorted_row_facts key lang (Hs key Hk) Hl) as [E [NL _]].
  destruct (encodable_encode _ E) as [b Eb]. unfold encoded. rewrite Eb.
  intros H. apply NL. now apply (encode_LF _ b).
Qed.

Lemma rendered_line_entry (key lang : str) :
  In key (dkeys strings) -> In lang _LANGS ->
  line_entry (encoded (sorted_row lang strings key))
  = Some (key, getitem2 strings key lang).
Proof.
  intros Hk Hl. destruct (sorted_row_facts key lang Hk Hl) as [E [_ R]].
  destruct (encodable_encode _ E) as [b Eb].
  unfold line_entry, encoded. rewrite Eb, (encode_decode _ _ Eb). exact R.
Qed.

Lemma rendered_lines_entries (lang : str) (y : bytes) :
  In lang _LANGS ->
  In y (file_lines (rendered_sources strings (lang_path lang))) ->
  exists key, In key (dkeys strings)
              /\ line_entry y = Some (key, getitem2 strings key lang).
Proof.
  intros Hl Hy. rewrite rendered_lines in Hy by assumption.
  apply in_map_iff in Hy as [key [<- Hk]].
  apply (Permutation_in _ (sorted_perm _)) in Hk.
  exists key. split; [assumption | now apply rendered_line_entry].
Qed.

Lemma rendered_lookup_absent (key lang : str) :
  ~ In key (dkeys strings) ->
  lookup2 (parsed_strings (rendered_sources strings)) key lang = None.
Proof.
  intros NI. unfold parsed_strings, _LANGS. cbn [fold_left].
  assert (forall l, In l _LANGS ->
            forall y v,
              In y (file_lines (rendered_sources strings (lang_path l))) ->
              line_entry y <> Some (key, v)) as H.
  { intros l Hl y v Hy E.
    destruct (rendered_lines_entries l y Hl Hy) as [k [Hk E']].
    rewrite E in E'. injection E' as -> _. contradiction. }
  rewrite !lines_lookup_unchanged; [reflexivity|right..];
    apply H; simpl; tauto.
Qed.

Lemma rendered_lookup_present (key lang : str) :
  In key (dkeys strings) -> In lang _LANGS ->
  lookup2 (parsed_strings (rendered_sources strings)) key lang
  = Some (getitem2 strings key lang).
Proof.
  intros Hk Hl.
  assert (In key (sorted (dkeys strings))) as Hs
      by (apply (Permutation_in _ (Permutation_sym (sorted_perm _))), Hk).
  destruct (in_split _ _ Hs) as [pre [post E]].
  pose proof (sorted_NoDup _ keys_distinct) as ND. rewrite E in ND.
  apply NoDup_remove_2 in ND.
  apply (parsed_lookup_last _ lang
           (map (fun k => encoded (sorted_row lang strings k)) pre)
           (map (fun k => encoded (sorted_row lang strings k)) post)
           (encoded (sorted_row lang strings key))); try assumption.
  - rewrite rendered_lines, E, map_app by assumption. reflexivity.
  - now apply rendered_line_entry.
  - intros y w Hy Ey. apply in_map_iff in Hy as [k [<- Hkp]].
    rewrite rendered_line_entry in Ey; try assumption.
    + injection Ey as -> _. apply ND. apply in_or_app. now right.
    + apply (Permutation_in _ (sorted_perm _)). rewrite E.
      apply in_or_app. right. now right.
Qed.

Lemma rendered_sources_well_formed (l : bytes) :
  In l (source_lines (rendered_sources strings)) -> line_entry l <> None.
Proof.
  intros H. apply source_lines_In in H as [lang [Hl Hy]].
  destruct (rendered_lines_entries lang l Hl Hy) as [k [_ E]].
  rewrite E. discriminate.
Qed.

(** C3 (as amended).  For every table with distinct keys in which every
    key is not empty, has no white space at either end, holds no line feed
    and no [=] that stands between white space (a white-space character
    directly before it, and a white-space character or the end of the key
    directly after it) and does not begin with badge_, every key has a text
    for each of en, es, pt, these texts hold no line feed, and keys and
    texts have a UTF-8 encoding: the parser, run on source files that hold
    the sorted rendering of the table for each required language, returns
    a table whose entry for every key and required language is exactly
    that of the original table (absent where it is absent).  Moreover
    unescaping undoes escaping on every text, and escaping undoes
    unescaping on every payload that the value pattern accepts.  The
    conditions on the shape of a key cut nothing more than they must: for
    any key, any table and any language, the line of the key in the sorted
    rendering reads back as that key with its text exactly when the key is
    not empty, has no white space at either end and no [=] between white
    space. *)
Theorem C3_sorted_round_trip :
  (exists parsed,
     _get_translated_strings (rendered_sources strings) = Ok parsed
     /\ forall key lang, In lang _LANGS ->
                         lookup2 parsed key lang = lookup2 strings key lang)
  /\ (forall v, replace2 BACKSLASH QUOTE [QUOTE]
                  (replace1 QUOTE [BACKSLASH; QUOTE] v) = v)
  /\ (forall p, payload_ok p = true ->
                replace1 QUOTE [BACKSLASH; QUOTE]
                  (replace2 BACKSLASH QUOTE [QUOTE] p) = p)
  /\ (forall (t : table) key lang,
        row_entry (sorted_row lang t key) = Some (key, getitem2 t key lang)
        <-> key <> [] /\ strip key = key /\ has_spaced_eq key = false).
Proof.
  split; [|split; [apply unescape_escape
                  |split; [apply escape_unescape
                          |intros t key lang;
                           apply row_entry_sorted_row_iff]]].
  eexists. split.
  { apply parser_well_formed. apply rendered_sources_well_formed. }
  intros key lang Hl. unfold lookup2 at 1.
  destruct (in_dec str_eq_dec key (dkeys strings)) as [Hk|Hk].
  - destruct (key_entry key Hk) as [values [Hin _]].
    destruct (well_formed key values Hin) as [PK _].
    destruct (round_trip_key_parts key PK) as [_ [_ [_ [_ B]]]].
    rewrite dget_without_badges by assumption.
    fold (lookup2 (parsed_strings (rendered_sources strings)) key lang).
    rewrite rendered_lookup_present by assumption.
    symmetry. now apply getitem2_lookup2.
  - assert (lookup2 strings key lang = None) as ->.
    { unfold lookup2. now rewrite dget_notin. }
    destruct (startswith key (lit "badge_")) eqn:B.
    + now rewrite dget_badge_filtered.
    + rewrite dget_without_badges by assumption.
      now apply rendered_lookup_absent.
Qed.

End RoundTrip.

(** ** The statements on sample inputs *)

Lemma sample_table_NoDup : NoDup (dkeys sample_table).
Proof. repeat constructor; simpl; intuition discriminate. Qed.

Lemma C1_pseudoloc_example :
  _pseudoloc (lit "Hello %(name)") = lit "(H3110 %(name))"
  /\ concat (re_split_placeholder (lit "Hello %(name)")) = lit "Hello %(name)".
Proof.
  split; [reflexivity|].
  exact (proj1 (proj2 (C1_pseudoloc_segments (lit "Hello %(name)")))).
Defined.

Lemma C2_checked_sample :
  _check_missing_entries (fun l => l) sample_table _LANGS
  = (sample_checked, Ok tt)
  /\ dkeys sample_checked = dkeys sample_table.
Proof.
  assert (_check_missing_entries (fun l => l) sample_table _LANGS
          = (sample_checked, Ok tt)) as H by (vm_compute; reflexivity).
  split; [exact H|].
  exact (proj1 (C2_checked_table_complete (fun l => l)
                  (fun l => Permutation_refl l) sample_table sample_checked H)).
Defined.

Lemma C5_greeting_lacks_pt :
  In (lit "pt") _LANGS
  /\ dmem (lit "pt") [(lit "en", lit "Hello"); (lit "es", lit "Hola")] = false
  /\ exists ds,
       snd (_check_missing_entries (fun l => l) sample_incomplete _LANGS)
       = Raise (LinterException (lit "There are missing items in some files")
                  None ds)
       /\ count_occ Diagnostic_eq_dec ds
            (missing_diagnostic (lit "greeting") (lit "pt")) = 1%nat
       /\ count_occ Diagnostic_eq_dec ds
            (missing_diagnostic (lit "greeting") (lit "en")) = 0%nat.
Proof.
  assert (In (lit "pt") _LANGS) as Hpt by (simpl; tauto).
  assert (In (lit "en") _LANGS) as Hen by (simpl; tauto).
  split; [exact Hpt|]. split; [reflexivity|].
  destruct (C5_missing_language_diagnostics (fun l => l)
              (fun l => Permutation_refl l) sample_incomplete (lit "greeting")
              [(lit "en", lit "Hello"); (lit "es", lit "Hola")])
    as [ds [R [C _]]].
  - repeat constructor. simpl. tauto.
  - left. reflexivity.
  - exists (lit "pt"). split; [exact Hpt | reflexivity].
  - exists ds. split; [exact R|]. split.
    + exact (proj1 (C (lit "pt") Hpt)).
    + exact (proj1 (C (lit "en") Hen)).
Defined.

Lemma C6_locale_sample :
  exists values',
    dget (lit "locale")
         (fst (_check_missing_entries (fun l => l) sample_table _LANGS))
    = Some values'
    /\ dget (lit "pseudo") values' = Some (lit "pseudo").
Proof.
  refine (proj1 (C6_locale_is_pseudo (fun l => l)
                   (fun l => Permutation_refl l) sample_table
                   [(lit "en", lit "en"); (lit "es", lit "es");
                    (lit "pt", lit "pt")] eq_refl _)).
  intros lang [<-|[<-|[<-|[]]]]; reflexivity.
Defined.

Lemma C7_stale_badge_key :
  _get_translated_strings stale_badge_sources
  = Ok [(lit "hi", [(lit "en", lit "Hi!"); (lit "es", lit "Hola");
                    (lit "pt", lit "Oi")])]
  /\ exists B values,
       _add_badges_entries [lit "x"] (fun _ => Ok sample_badge)
         stale_badge_sources = Ok B
       /\ dget (lit "badge_x_name")
               (dupdate [(lit "hi", [(lit "en", lit "Hi!");
                                     (lit "es", lit "Hola");
                                     (lit "pt", lit "Oi")])] B)
          = Some values
       /\ exists v, dget (lit "en") values = Some v.
Proof.
  assert (_get_translated_strings stale_badge_sources
          = Ok [(lit "hi", [(lit "en", lit "Hi!"); (lit "es", lit "Hola");
                            (lit "pt", lit "Oi")])]) as HT
      by (vm_compute; reflexivity).
  split; [exact HT|].
  destruct (_add_badges_entries [lit "x"] (fun _ => Ok sample_badge)
              stale_badge_sources) as [B|e] eqn:HB;
    [|vm_compute in HB; discriminate].
  destruct (C7_badge_keys_from_merger [lit "x"] (fun _ => Ok sample_badge)
              stale_badge_sources _ B HT HB) as [_ [_ M]].
  destruct (M (lit "x") (lit "badge_x_name") (or_introl eq_refl)
              (or_introl eq_refl)) as [_ [values [G V]]].
  exists B, values. split; [reflexivity|]. split; [exact G|].
  apply V. left. reflexivity.
Defined.

Lemma C8_sample_json :
  _generate_json (lit "en") sample_table
  = json_object_text
      (map (fun k => (k, _unescape (getitem2 sample_table k (lit "en"))))
           (sorted (dkeys sample_table))).
Proof.
  exact (proj1 (C8_structured_map (lit "en") sample_table sample_table_NoDup)).
Defined.
Lemma spaced_key_table_well_formed (key : str) (values : dict str) :
  In (key, values) spaced_key_table ->
  round_trip_key key = true /\ encodable key = true
  /\ forall lang, In lang _LANGS ->
       exists v, dget lang values = Some v
                 /\ plain_value v = true /\ encodable v = true.
Proof.
  intros [H|[H|[]]]; injection H as <- <-;
    (split; [reflexivity|]; split; [reflexivity|]);
    intros lang [<-|[<-|[<-|[]]]]; eexists; repeat split; reflexivity.
Qed.

Lemma spaced_key_table_NoDup : NoDup (dkeys spaced_key_table).
Proof. repeat constructor; simpl; intuition discriminate. Qed.

(** The stored text a QUOTE b QUOTE is rendered with its quotes escaped,
    and the rendered line is read back as the stored text. *)
Lemma sorted_rendering_example :
  _generate_sorted (lit "en")
    [(lit "x", [(lit "en", lit "a " ++ [QUOTE] ++ lit "b" ++ [QUOTE])])]
  = lit "x = " ++ [QUOTE] ++ lit "a \" ++ [QUOTE] ++ lit "b\" ++ [QUOTE; QUOTE; LF]
  /\ row_entry (lit "x = " ++ [QUOTE] ++ lit "a \" ++ [QUOTE] ++ lit "b\"
                ++ [QUOTE; QUOTE])
     = Some (lit "x", lit "a " ++ [QUOTE] ++ lit "b" ++ [QUOTE]).
Proof. split; reflexivity. Qed.

Lemma C3_sample_round_trip :
  exists parsed,
    _get_translated_strings (rendered_sources spaced_key_table) = Ok parsed
    /\ lookup2 parsed (lit "j k") (lit "es") = Some (lit "y")
    /\ lookup2 parsed (lit "e =f") (lit "en") = Some (lit "u = v").
Proof.
  destruct (C3_sorted_round_trip spaced_key_table spaced_key_table_NoDup
              spaced_key_table_well_formed) as [[parsed [E L]] _].
  exists parsed. split; [exact E|]. split.
  - rewrite (L (lit "j k") (lit "es")); [reflexivity|].
    right. left. reflexivity.
  - rewrite (L (lit "e =f") (lit "en")); [reflexivity|].
    left. reflexivity.
Defined.

(** C3 as stated fails: the text of x for en holds a line feed, its
    rendering spreads over two lines and the parser rejects both. *)
Lemma C3_counterexample :
  ~ (exists parsed,
       _get_translated_strings (rendered_sources newline_table) = Ok parsed
       /\ lookup2 parsed (lit "x") (lit "en")
          = lookup2 newline_table (lit "x") (lit "en")).
Proof. intros [parsed [E _]]. vm_compute in E. discriminate. Qed.

Lemma bad_line_sources_decodable (l : bytes) :
  In l (source_lines bad_line_sources) -> decode l <> None.
Proof. intros [<-|[<-|[]]]; discriminate. Qed.

Lemma C4_bad_line_reported :
  exists ds,
    _get_translated_strings bad_line_sources
    = Raise (LinterException (lit "Invalid i18n files") (Some false) ds).
Proof.
  apply (proj1 (C4_invalid_sources bad_line_sources
                  bad_line_sources_decodable)).
  exists (lit "oops"). split; [right; left; reflexivity | reflexivity].
Defined.

(** C4 as stated fails: the second line of the file of en is not UTF-8.
    No line fails the split or the pattern, yet the error is raised, and
    its diagnostic for line 2 holds the text of line 1. *)
Lemma C4_counterexample :
  (forall l, In l (source_lines undecodable_sources) -> line_fails l = false)
  /\ _get_translated_strings undecodable_sources
     = Raise (LinterException (lit "Invalid i18n files") (Some false)
                [mkDiagnostic (DecodeErrorText [255])
                   (lang_path (lit "en")) (Some 2)
                   (Some (lit "a = " ++ [QUOTE] ++ lit "x" ++ [QUOTE]))]).
Proof.
  split; [|reflexivity].
  intros l [<-|[<-|[]]]; reflexivity.
Qed.

Lemma empty_disk_artifacts (p r : str) :
  In (p, r) (artifacts sample_checked) ->
  (exists t, decode (empty_disk p) = Some t) /\ (exists b, encode r = Some b).
Proof.
  intros H. split; [now exists []|].
  vm_compute in H.
  repeat (destruct H as [H|H];
          [injection H as <- <-; eexists; vm_compute; reflexivity|]).
  destruct H.
Qed.

Lemma C9_sample_drift :
  exists news origs,
    _generate_new_contents sample_checked empty_disk = Ok (news, origs)
    /\ dget (json_path (lit "en")) news
       = Some (encoded (_generate_json (lit "en") sample_checked))
    /\ dget (json_path (lit "en")) origs = Some [].
Proof.
  destruct (C9_drift_records sample_checked empty_disk empty_disk_artifacts)
    as [_ [[news [origs [R [F _]]]] _]].
  exists news, origs. split; [exact R|].
  apply (F (json_path (lit "en")) (_generate_json (lit "en") sample_checked)
           (encoded (_generate_json (lit "en") sample_checked))).
  - right. right. left. reflexivity.
  - vm_compute. reflexivity.
  - vm_compute. discriminate.
Defined.

(** C9 as stated fails: the bytes on disk (0xFF) differ from the encoded
    rendering of the empty table (no byte), yet nothing is recorded: the
    detector raises. *)
Lemma C9_counterexample :
  In (lang_path (lit "en"), []) (artifacts [])
  /\ encode [] = Some []
  /\ corrupt_disk (lang_path (lit "en")) <> []
  /\ _generate_new_contents [] corrupt_disk = Raise UnicodeDecodeError
  /\ run_all (fun l => l) [] (fun _ => Raise JSONDecodeError) corrupt_disk
     = Raise UnicodeDecodeError.
Proof.
  split; [left; reflexivity|]. split; [reflexivity|].
  split; [discriminate|]. split; reflexivity.
Qed.

Lemma C10_duplicate_key :
  exists strings,
    _get_translated_strings duplicate_sources = Ok strings
    /\ lookup2 strings (lit "k") (lit "en") = Some (lit "b").
Proof.
  destruct (_get_translated_strings duplicate_sources) as [strings|e] eqn:E;
    [|vm_compute in E; discriminate].
  exists strings. split; [reflexivity|].
  apply (proj2 (C10_last_occurrence_wins duplicate_sources) strings E
           (lit "en") [removelast (kv_line (lit "k") (lit "a"))]
           (removelast (kv_line (lit "k") (lit "b"))) [] (lit "k") (lit "b"));
    try reflexivity.
  - left. reflexivity.
  - intros l' v' [].
Defined.

(** C10 as stated fails: the key badge_x occurs on two well-formed lines
    of the file of en, and the returned table has no entry for it. *)
Lemma C10_counterexample :
  file_lines (duplicate_badge_sources (lang_path (lit "en")))
  = [removelast (kv_line (lit "badge_x") (lit "a"));
     removelast (kv_line (lit "badge_x") (lit "b"))]
  /\ line_entry (removelast (kv_line (lit "badge_x") (lit "a")))
     = Some (lit "badge_x", lit "a")
  /\ line_entry (removelast (kv_line (lit "badge_x") (lit "b")))
     = Some (lit "badge_x", lit "b")
  /\ _get_translated_strings duplicate_badge_sources = Ok []
  /\ lookup2 [] (lit "badge_x") (lit "en") = None.
Proof. repeat split; reflexivity. Qed.

(** * Further properties *)

(** ** The transform, character by character *)

Lemma Forall2_concat {A B} (R : A -> B -> Prop) (l : list (list A))
  (l' : list (list B)) :
  Forall2 (Forall2 R) l l' -> Forall2 R (concat l) (concat l').
Proof.
  induction 1 as [|x y l l' H _ IH]; simpl; [constructor|].
  now apply Forall2_app.
Qed.

Lemma segment_image (t : str) :
  Forall2 (fun a b => b = a \/ b = subst_char a) t
    (if looks_like_token t then t else map subst_char t).
Proof.
  destruct (looks_like_token t).
  - induction t; constructor; auto.
  - induction t; simpl; constructor; auto.
Qed.

Lemma pseudoloc_images (s : str) :
  _pseudoloc s =
  lit "(" ++ concat (map (fun t => if looks_like_token t then t
                                   else map subst_char t)
                         (re_split_placeholder s))
  ++ lit ")".
Proof.
  unfold _pseudoloc. do 3 f_equal. apply map_ext. intros t.
  unfold looks_like_token. now rewrite translate_subst.
Qed.

(** The transform neither inserts nor deletes a character: between the
    two parentheses stands the input with each character either kept or
    replaced by its substitute. *)
Theorem pseudoloc_char_by_char (s : str) :
  exists s',
    _pseudoloc s = lit "(" ++ s' ++ lit ")"
    /\ Forall2 (fun a b => b = a \/ b = subst_char a) s s'
    /\ List.length (_pseudoloc s) = (List.length s + 2)%nat.
Proof.
  eexists. split; [apply pseudoloc_images|].
  assert (Forall2 (fun a b => b = a \/ b = subst_char a) s
            (concat (map (fun t => if looks_like_token t then t
                                   else map subst_char t)
                         (re_split_placeholder s)))) as F.
  { rewrite <- (split_concat s (re_split_placeholder s) (re_split_sound s))
      at 1.
    apply Forall2_concat.
    induction (re_split_placeholder s) as [|t l IH]; simpl; constructor;
      [apply segment_image | exact IH]. }
  split; [exact F|].
  rewrite pseudoloc_images. apply Forall2_length in F.
  rewrite !length_app, <- F. simpl. lia.
Qed.

(** ** Placeholders are preserved *)

Lemma take_ident_app (r x rest : str) :
  skip_ident r = 41 :: x -> take_ident (r ++ rest) = take_ident r.
Proof.
  induction r as [|c r IH]; simpl; [discriminate|].
  destruct (is_ident c) eqn:E.
  - intros H. now rewrite (IH H).
  - intros H. injection H as -> _. simpl. reflexivity.
Qed.

Lemma token_prefix_match (s tok : str) :
  token_prefix s tok -> match_placeholder s = Some tok.
Proof.
  intros [P [rest ->]]. unfold is_placeholder in P.
  destruct tok as [|a [|b [|c r]]]; try discriminate.
  apply andb_true_iff in P as [G K]. apply str_eqb_eq in K.
  cbn [app]. unfold match_placeholder. rewrite G.
  rewrite (skip_ident_app r [] rest K), (take_ident_app r [] rest K).
  change (41 =? 41) with true. cbv iota.
  rewrite <- (take_skip_ident r) at 2. now rewrite K.
Qed.

Lemma token_shape (tok : str) :
  is_placeholder tok = true ->
  exists body, tok = 37 :: body /\ ~ In 37 body /\ body <> [].
Proof.
  unfold is_placeholder.
  destruct tok as [|a [|b [|c r]]]; try discriminate.
  rewrite !andb_true_iff, !N.eqb_eq, str_eqb_eq.
  intros [[[-> ->] C] K].
  exists (40 :: c :: r). split; [reflexivity|]. split; [|discriminate].
  intros [H|[H|H]]; [discriminate | subst c; discriminate|].
  rewrite <- (take_skip_ident r), K in H.
  apply in_app_or in H as [H|[H|[]]]; [|discriminate].
  clear K. induction r as [|d r IH]; simpl in H; [destruct H|].
  destruct (is_ident d) eqn:E; [|destruct H].
  destruct H as [H|H]; [subst d; discriminate | now apply IH].
Qed.

Lemma token_prefix_unique (s tok tok' : str) :
  token_prefix s tok -> token_prefix s tok' -> tok = tok'.
Proof.
  intros H H'. apply token_prefix_match in H, H'. congruence.
Qed.

Lemma split_finds_token (s : str) (segs : list str) :
  split_at_tokens s segs ->
  forall pre tok post,
    s = pre ++ tok ++ post -> is_placeholder tok = true ->
    exists segs1 segs2,
      segs = segs1 ++ tok :: segs2
      /\ concat segs1 = pre /\ concat segs2 = post.
Proof.
  induction 1 as [t N|t tok1 rest segs P N S IH]; intros pre tok post E T.
  - exfalso. apply (N pre (tok ++ post) tok E).
    split; [exact T | now exists post].
  - assert (forall post', tok1 ++ rest = tok ++ post' ->
              tok1 = tok /\ rest = post') as Same.
    { intros post' E'.
      assert (tok1 = tok) as ->.
      { apply (token_prefix_unique (tok1 ++ rest));
          (split; [assumption|]); [now exists rest | now exists post']. }
      split; [reflexivity | now apply app_inv_head in E']. }
    assert (concat segs = rest) as C by now apply split_concat.
    apply app_eq_app in E as [l [[E1 E2]|[E1 E2]]].
    + (* the token starts inside t, or right after it *)
      destruct l as [|x l].
      * rewrite app_nil_r in E1. subst pre. cbn [app] in E2.
        symmetry in E2. destruct (Same post E2) as [-> ->].
        exists [t], segs. cbn [app concat]. rewrite app_nil_r. auto.
      * exfalso. apply (N pre (x :: l) tok E1); [discriminate|].
        split; [exact T|]. exists post. now symmetry.
    + destruct l as [|x l].
      * rewrite app_nil_r in E1. subst pre. cbn [app] in E2.
        destruct (Same post E2) as [-> ->].
        exists [t], segs. cbn [app concat]. rewrite app_nil_r. auto.
      * apply app_eq_app in E2 as [l2 [[E3 E4]|[E3 E4]]].
        -- (* the token would start inside tok1 *)
           destruct l2 as [|y l2].
           ++ rewrite app_nil_r in E3. cbn [app] in E4.
              destruct (IH [] tok post) as [s1 [s2 [-> [C1 C2]]]];
                [now symmetry | exact T|].
              exists (t :: tok1 :: s1), s2. cbn [app concat].
              rewrite C1, app_nil_r, E1, E3. auto.
           ++ exfalso.
              destruct (token_shape tok T) as [body [Eb _]].
              destruct (token_shape tok1 P) as [body1 [B1 [NI _]]].
              rewrite Eb in E4. cbn [app] in E4. injection E4 as Ey _.
              rewrite B1 in E3. cbn [app] in E3. injection E3 as _ E3.
              apply NI. rewrite E3. apply in_or_app. right. left.
              now symmetry.
        -- (* the token lies in what follows tok1 *)
           destruct (IH l2 tok post E4 T) as [s1 [s2 [-> [C1 C2]]]].
           exists (t :: tok1 :: s1), s2. cbn [app concat].
           rewrite C1, E1, E3. auto.
Qed.

Lemma image_length (t : str) :
  List.length (if looks_like_token t then t else map subst_char t)
  = List.length t.
Proof. destruct (looks_like_token t); [reflexivity | apply length_map]. Qed.

Lemma images_length (l : list str) :
  List.length (concat (map (fun t => if looks_like_token t then t
                                     else map subst_char t) l))
  = List.length (concat l).
Proof.
  induction l as [|t l IH]; [reflexivity|].
  cbn [map concat]. now rewrite !length_app, image_length, IH.
Qed.

(** Every placeholder token of the input, wherever it occurs, stands
    unchanged at the same position of the output. *)
Theorem pseudoloc_keeps_placeholders (pre tok post : str) :
  is_placeholder tok = true ->
  exists pre' post',
    _pseudoloc (pre ++ tok ++ post) = lit "(" ++ pre' ++ tok ++ post' ++ lit ")"
    /\ List.length pre' = List.length pre
    /\ List.length post' = List.length post.
Proof.
  intros T.
  destruct (split_finds_token _ _ (re_split_sound (pre ++ tok ++ post))
              pre tok post eq_refl T) as [s1 [s2 [E [C1 C2]]]].
  exists (concat (map (fun t => if looks_like_token t then t
                                else map subst_char t) s1)),
         (concat (map (fun t => if looks_like_token t then t
                                else map subst_char t) s2)).
  split; [|split].
  - rewrite pseudoloc_images, E, map_app. cbn [map].
    rewrite (placeholder_looks_like_token tok T).
    rewrite concat_app. cbn [concat]. now rewrite <- !app_assoc.
  - now rewrite images_length, C1.
  - now rewrite images_length, C2.
Qed.

Lemma pseudoloc_keeps_name_placeholder :
  exists pre' post',
    _pseudoloc (lit "Hello " ++ lit "%(name)" ++ lit " test")
    = lit "(" ++ pre' ++ lit "%(name)" ++ post' ++ lit ")"
    /\ List.length pre' = 6%nat /\ List.length post' = 5%nat.
Proof.
  exact (pseudoloc_keeps_placeholders (lit "Hello ") (lit "%(name)")
           (lit " test") eq_refl).
Defined.

(** ** The renderings do not depend on the insertion order *)

Lemma str_leb_refl (a : str) : str_leb a a = true.
Proof.
  induction a as [|x a IH]; simpl; [reflexivity|].
  now rewrite N.ltb_irrefl.
Qed.

Lemma str_leb_cons (x y : char) (a b : str) :
  str_leb (x :: a) (y :: b) = true <->
  x < y \/ (x = y /\ str_leb a b = true).
Proof.
  simpl. destruct (x <? y) eqn:L1.
  - apply N.ltb_lt in L1. tauto.
  - apply N.ltb_ge in L1. destruct (y <? x) eqn:L2.
    + apply N.ltb_lt in L2. split; [discriminate|]. intros [H|[H _]]; lia.
    + apply N.ltb_ge in L2. assert (x = y) as E by lia. split; [tauto|].
      intros [H|[_ H]]; [lia | exact H].
Qed.

Lemma str_leb_antisym (a b : str) :
  str_leb a b = true -> str_leb b a = true -> a = b.
Proof.
  revert b; induction a as [|x a IH]; intros [|y b]; try discriminate;
    try reflexivity.
  rewrite !str_leb_cons. intros [H1|[-> H1]] [H2|[H2 H3]]; try lia.
  f_equal. now apply IH.
Qed.

Lemma str_leb_trans (a b c : str) :
  str_leb a b = true -> str_leb b c = true -> str_leb a c = true.
Proof.
  revert b c; induction a as [|x a IH]; intros [|y b] [|z c];
    try discriminate; try reflexivity.
  rewrite !str_leb_cons. intros [H1|[-> H1]] [H2|[-> H2]].
  - left. lia.
  - now left.
  - now left.
  - right. split; [reflexivity|]. now apply (IH b).
Qed.

Lemma sorted_unique (l1 l2 : list str) :
  StronglySorted (fun a b => str_leb a b = true) l1 ->
  StronglySorted (fun a b => str_leb a b = true) l2 ->
  Permutation l1 l2 -> l1 = l2.
Proof.
  revert l2; induction l1 as [|a l1 IH]; intros l2 S1 S2 P.
  - apply Permutation_nil in P. now subst.
  - destruct l2 as [|b l2].
    { apply Permutation_sym, Permutation_nil in P. discriminate. }
    inversion S1 as [|? ? S1' F1]; inversion S2 as [|? ? S2' F2]; subst.
    assert (a = b) as ->.
    { assert (In a (b :: l2)) as Ha
          by (apply (Permutation_in _ P); now left).
      assert (In b (a :: l1)) as Hb
          by (apply (Permutation_in _ (Permutation_sym P)); now left).
      destruct Ha as [->|Ha]; [reflexivity|].
      destruct Hb as [->|Hb]; [reflexivity|].
      rewrite Forall_forall in F1, F2.
      apply str_leb_antisym; [now apply F1 | now apply F2]. }
    f_equal. apply IH; try assumption. now apply Permutation_cons_inv in P.
Qed.

Lemma sorted_StronglySorted (l : list str) :
  StronglySorted (fun a b => str_leb a b = true) (sorted l).
Proof.
  apply Sorted_StronglySorted; [|apply sorted_Sorted].
  intros a b c. apply str_leb_trans.
Qed.

Lemma sorted_permutation (l1 l2 : list str) :
  Permutation l1 l2 -> sorted l1 = sorted l2.
Proof.
  intros P. apply sorted_unique; try apply sorted_StronglySorted.
  rewrite !sorted_perm. exact P.
Qed.

Lemma dget_permutation {V} (k : str) (d1 d2 : dict V) :
  NoDup (dkeys d1) -> Permutation d1 d2 -> dget k d1 = dget k d2.
Proof.
  intros ND P.
  assert (NoDup (dkeys d2)) as ND2.
  { apply (Permutation_NoDup (l := dkeys d1)); [|assumption].
    unfold dkeys. now apply Permutation_map. }
  destruct (dget k d1) as [v|] eqn:G1.
  - symmetry. apply In_dget; [assumption|].
    apply (Permutation_in _ P). now apply dget_In.
  - destruct (dget k d2) as [v|] eqn:G2; [|reflexivity].
    apply dget_In in G2. apply (Permutation_in _ (Permutation_sym P)) in G2.
    apply (In_dget _ _ _ ND) in G2. congruence.
Qed.

(** Two tables with the same entries, inserted in different orders, have
    the same three renderings for every language. *)
Theorem renderings_ignore_insertion_order (lang : str)
  (strings strings' : table) :
  NoDup (dkeys strings) -> Permutation strings strings' ->
  _generate_sorted lang strings = _generate_sorted lang strings'
  /\ _generate_typescript lang strings = _generate_typescript lang strings'
  /\ _generate_json lang strings = _generate_json lang strings'.
Proof.
  intros ND P.
  assert (sorted (dkeys strings) = sorted (dkeys strings')) as K.
  { apply sorted_permutation. unfold dkeys. now apply Permutation_map. }
  assert (forall key, getitem2 strings key lang = getitem2 strings' key lang)
    as G.
  { intros key. unfold getitem2. now rewrite (dget_permutation key _ _ ND P). }
  unfold _generate_sorted, _generate_typescript, _generate_json.
  rewrite <- K. repeat split.
  - f_equal. apply map_ext. intros key. now rewrite G.
  - do 3 f_equal. apply map_ext. intros key. now rewrite G.
  - f_equal.
    assert (forall ks m,
              fold_left (fun m key =>
                           dset key (_unescape (getitem2 strings key lang)) m)
                        ks m
              = fold_left (fun m key =>
                             dset key (_unescape (getitem2 strings' key lang)) m)
                          ks m) as H; [|apply H].
    induction ks as [|k ks IH]; intros m; cbn [fold_left]; [reflexivity|].
    now rewrite G, IH.
Qed.

Lemma renderings_of_swapped_table :
  _generate_sorted (lit "es") sample_table
  = _generate_sorted (lit "es") (rev sample_table).
Proof.
  exact (proj1 (renderings_ignore_insertion_order (lit "es") sample_table
                  (rev sample_table) sample_table_NoDup
                  (Permutation_rev sample_table))).
Defined.

(** ** The renderings can be encoded *)

Lemma hexdigit_printable (d : N) :
  d < 16 -> 0x20 <= hexdigit d <= 0x7E.
Proof. intros H. unfold hexdigit. destruct (N.ltb_spec d 10); lia. Qed.

Lemma u_escape_printable (n : N) :
  Forall (fun c => 0x20 <= c <= 0x7E) (u_escape n).
Proof.
  unfold u_escape, BACKSLASH.
  repeat constructor; try lia; apply hexdigit_printable; lia.
Qed.

Lemma json_escape_char_printable (c : char) :
  Forall (fun c => 0x20 <= c <= 0x7E) (json_escape_char c).
Proof.
  unfold json_escape_char, QUOTE, BACKSLASH.
  repeat match goal with
         | |- context [if ?b then _ else _] =>
             destruct b eqn:?; [repeat constructor; lia|]
         end.
  - destruct ((0x20 <=? c) && (c <=? 0x7E)) eqn:E.
    + apply andb_true_iff in E as [E1 E2].
      apply N.leb_le in E1, E2. repeat constructor; lia.
    + destruct (c <? 0x10000); [apply u_escape_printable|].
      apply Forall_app. split; apply u_escape_printable.
Qed.

Lemma json_dumps_str_printable (s : str) :
  Forall (fun c => 0x20 <= c <= 0x7E) (json_dumps_str s).
Proof.
  unfold json_dumps_str, QUOTE. apply Forall_app. split;
    [repeat constructor; lia|].
  apply Forall_app. split; [|repeat constructor; lia].
  induction s as [|c s IH]; simpl; [constructor|].
  apply Forall_app. split; [apply json_escape_char_printable | exact IH].
Qed.

Lemma Forall_join (P : char -> Prop) (sep : str) (parts : list str) :
  Forall P sep -> Forall (Forall P) parts -> Forall P (join sep parts).
Proof.
  intros Hs. induction 1 as [|p parts Hp _ IH]; [constructor|].
  destruct parts as [|q parts]; [exact Hp|].
  change (join sep (p :: q :: parts)) with (p ++ sep ++ join sep (q :: parts)).
  apply Forall_app. split; [exact Hp|].
  apply Forall_app. split; [exact Hs | exact IH].
Qed.

Lemma Forall_weaken (s : str) :
  Forall (fun c => 0x20 <= c <= 0x7E) s ->
  Forall (fun c => c = 9 \/ c = LF \/ 0x20 <= c <= 0x7E) s.
Proof. apply Forall_impl. intros c H. tauto. Qed.

Lemma json_object_text_ascii (items : list (str * str)) :
  Forall (fun c => c = 9 \/ c = LF \/ 0x20 <= c <= 0x7E)
         (json_object_text items).
Proof.
  assert (forall s : str,
            forallb (fun c => (c =? 9) || (c =? 10)
                              || ((0x20 <=? c) && (c <=? 0x7E))) s = true ->
            Forall (fun c => c = 9 \/ c = LF \/ 0x20 <= c <= 0x7E) s) as K.
  { intros s H. apply Forall_forall. intros c Hc.
    rewrite forallb_forall in H. specialize (H c Hc). unfold LF.
    rewrite !orb_true_iff, andb_true_iff, !N.eqb_eq, !N.leb_le in H. tauto. }
  unfold json_object_text.
  destruct items as [|i items]; [now apply K|].
  apply Forall_app. split; [now apply K|].
  apply Forall_app. split; [now apply K|].
  apply Forall_app. split; [|now apply K].
  apply Forall_join; [now apply K|].
  apply Forall_forall. intros p Hp. apply in_map_iff in Hp as [kv [<- _]].
  apply Forall_app. split; [apply Forall_weaken, json_dumps_str_printable|].
  apply Forall_app. split; [now apply K|].
  apply Forall_weaken, json_dumps_str_printable.
Qed.

Lemma encode_ascii (s : str) :
  Forall (fun c => c < 0x80) s -> encode s = Some s.
Proof.
  induction 1 as [|c s Hc _ IH]; [reflexivity|].
  cbn [encode]. unfold encode_char.
  destruct (N.ltb_spec c 0x80); [|lia]. now rewrite IH.
Qed.

(** Whatever the texts of the table hold, the structured-map rendering
    consists of tabs, line feeds and printable ASCII characters only; it
    is its own UTF-8 encoding, so encoding it cannot fail. *)
Theorem json_rendering_is_ascii (lang : str) (strings : table) :
  Forall (fun c => c = 9 \/ c = LF \/ 0x20 <= c <= 0x7E)
         (_generate_json lang strings)
  /\ encode (_generate_json lang strings) = Some (_generate_json lang strings).
Proof.
  assert (Forall (fun c => c = 9 \/ c = LF \/ 0x20 <= c <= 0x7E)
                 (_generate_json lang strings)) as H
      by apply json_object_text_ascii.
  split; [exact H|]. apply encode_ascii.
  revert H. apply Forall_impl. unfold LF. intros c H. lia.
Qed.

Lemma encodable_concat (l : list str) :
  (forall s, In s l -> encodable s = true) -> encodable (concat l) = true.
Proof.
  induction l as [|s l IH]; intros H; [reflexivity|].
  cbn [concat]. rewrite encodable_app, (H s (or_introl eq_refl)), IH;
    [reflexivity|]. intros; apply H; now right.
Qed.

Lemma encodable_join (sep : str) (l : list str) :
  encodable sep = true -> (forall s, In s l -> encodable s = true) ->
  encodable (join sep l) = true.
Proof.
  intros Hs. induction l as [|p l IH]; intros H; [reflexivity|].
  destruct l as [|q l]; [apply H; now left|].
  change (join sep (p :: q :: l)) with (p ++ sep ++ join sep (q :: l)).
  rewrite !encodable_app, (H p (or_introl eq_refl)), Hs, IH; [reflexivity|].
  intros; apply H; now right.
Qed.

Lemma encodable_printable (s : str) :
  Forall (fun c => 0x20 <= c <= 0x7E) s -> encodable s = true.
Proof.
  intros H. unfold encodable. apply forallb_forall. intros c Hc.
  rewrite Forall_forall in H. specialize (H c Hc).
  unfold encode_char. destruct (N.ltb_spec c 0x80); [reflexivity | lia].
Qed.

(** When the keys of the table and their texts for the language have a
    UTF-8 encoding (as every decoded text has), so have the sorted-source
    and the typed-module renderings. *)
Theorem text_renderings_encodable (lang : str) (strings : table) :
  (forall key, In key (dkeys strings) ->
     encodable key = true /\ encodable (getitem2 strings key lang) = true) ->
  (exists b, encode (_generate_sorted lang strings) = Some b)
  /\ (exists b, encode (_generate_typescript lang strings) = Some b).
Proof.
  intros H.
  assert (forall key, In key (sorted (dkeys strings)) ->
            encodable key = true
            /\ encodable (getitem2 strings key lang) = true) as Hs.
  { intros key Hk. apply H. now apply (Permutation_in _ (sorted_perm _)). }
  split; apply encodable_encode.
  - unfold _generate_sorted. apply encodable_concat.
    intros s Hin. apply in_map_iff in Hin as [key [<- Hk]].
    destruct (Hs key Hk) as [E1 E2].
    now rewrite !encodable_app, E1, encodable_escape.
  - unfold _generate_typescript. apply encodable_join; [reflexivity|].
    intros s Hin. apply in_app_or in Hin as [Hin|Hin].
    { destruct Hin as [<-|[<-|[]]]; reflexivity. }
    apply in_app_or in Hin as [Hin|Hin].
    2:{ destruct Hin as [<-|[<-|[]]]; reflexivity. }
    apply in_map_iff in Hin as [key [<- Hk]].
    destruct (Hs key Hk) as [E1 _].
    rewrite !encodable_app, E1.
    now rewrite (encodable_printable _ (json_dumps_str_printable _)).
Qed.

Lemma sample_renderings_encodable :
  (exists b, encode (_generate_sorted (lit "pt") sample_table) = Some b)
  /\ (exists b, encode (_generate_typescript (lit "pt") sample_table) = Some b).
Proof.
  apply (text_renderings_encodable (lit "pt") sample_table).
  intros key [<-|[<-|[]]]; split; reflexivity.
Defined.

(** ** The merger copies the documents *)

Lemma badge_key_name_inj (a b : str) :
  badge_key_name a = badge_key_name b -> a = b.
Proof.
  unfold badge_key_name. intros H.
  apply app_inv_head in H. now apply app_inv_tail in H.
Qed.

Lemma badge_key_desc_inj (a b : str) :
  badge_key_desc a = badge_key_desc b -> a = b.
Proof.
  unfold badge_key_desc. intros H.
  apply app_inv_head in H. now apply app_inv_tail in H.
Qed.

Lemma badge_key_name_desc (a b : str) : badge_key_name a <> badge_key_desc b.
Proof.
  unfold badge_key_name, badge_key_desc. intros H.
  apply app_inv_head in H. apply (f_equal (@rev N)) in H.
  rewrite !rev_app_distr in H. discriminate.
Qed.

Lemma getitem_Ok {V} (k : str) (d : dict V) (v : V) :
  getitem k d = Ok v -> dget k d = Some v.
Proof. unfold getitem. destruct (dget k d); [|discriminate]. congruence. Qed.

Lemma add_badge_langs_values (kn kd : str) (contents : dict (dict str))
  (langs : list str) :
  kn <> kd -> NoDup langs ->
  forall s s', add_badge_langs kn kd contents langs s = Ok s' ->
  (forall l, In l langs ->
     exists name desc,
       badge_fields contents l name desc
       /\ lookup2 s' kn l = Some name /\ lookup2 s' kd l = Some desc)
  /\ (forall k l, (k <> kn /\ k <> kd) \/ ~ In l langs ->
        lookup2 s' k l = lookup2 s k l).
Proof.
  intros NE. induction langs as [|lang langs IH]; intros ND s s' H.
  - simpl in H. injection H as <-. split; [intros l []|reflexivity].
  - inversion ND as [|? ? NI ND']; subst.
    cbn [add_badge_langs] in H.
    apply bind_Ok in H as [entry [G1 H]]. apply bind_Ok in H as [name [G2 H]].
    apply bind_Ok in H as [entry' [G3 H]]. apply bind_Ok in H as [desc [G4 H]].
    apply getitem_Ok in G1, G2, G3, G4.
    assert (entry' = entry) as -> by congruence.
    destruct (IH ND' _ _ H) as [I1 I2].
    assert (forall k l, (k <> kn /\ k <> kd) \/ ~ In l (lang :: langs) ->
              lookup2 s' k l = lookup2 s k l) as U.
    { intros k l C. rewrite I2 by (simpl in C; tauto).
      rewrite !lookup2_setitem2.
      destruct (str_eqb k kd && str_eqb l lang) eqn:B1.
      { apply andb_true_iff in B1 as [B1 B2].
        apply str_eqb_eq in B1, B2. subst. simpl in C. tauto. }
      destruct (str_eqb k kn && str_eqb l lang) eqn:B2; [|reflexivity].
      apply andb_true_iff in B2 as [B2 B3].
      apply str_eqb_eq in B2, B3. subst. simpl in C. tauto. }
    split; [|exact U].
    intros l [<-|Hl]; [|now apply I1].
    exists name, desc. split; [now exists entry|].
    rewrite !I2 by now right. rewrite !lookup2_setitem2, !str_eqb_refl.
    cbn [andb]. split; [|reflexivity].
    destruct (str_eqb kn kd) eqn:E; [|reflexivity].
    apply str_eqb_eq in E. contradiction.
Qed.

Section MergerValues.

Variable scandir_dirs : list str.
Variable json_loads : str -> result (dict (dict str)).

Lemma add_badges_values (cb : str -> bytes) (aliases : list str) :
  NoDup aliases ->
  forall s s', add_badges json_loads cb aliases s = Ok s' ->
  (forall alias, In alias aliases ->
     exists doc contents,
       decode (cb (badge_path alias)) = Some doc
       /\ json_loads doc = Ok contents
       /\ forall l, In l _LANGS ->
            exists name desc,
              badge_fields contents l name desc
              /\ lookup2 s' (badge_key_name alias) l = Some name
              /\ lookup2 s' (badge_key_desc alias) l = Some desc)
  /\ (forall k l,
        (forall alias, In alias aliases ->
           k <> badge_key_name alias /\ k <> badge_key_desc alias)
        \/ ~ In l _LANGS ->
        lookup2 s' k l = lookup2 s k l).
Proof.
  assert (NoDup _LANGS) as NDl.
  { unfold _LANGS. repeat constructor; simpl; intuition discriminate. }
  induction aliases as [|alias aliases IH]; intros ND s s' H.
  - simpl in H. injection H as <-. split; [intros a []|reflexivity].
  - inversion ND as [|? ? NI ND']; subst.
    cbn [add_badges] in H. fold (badge_path alias) in H.
    destruct (decode (cb (badge_path alias))) as [doc|] eqn:D; [|discriminate].
    apply bind_Ok in H as [contents [J H]].
    apply bind_Ok in H as [s1 [H1 H]].
    destruct (add_badge_langs_values _ _ contents _LANGS
                (badge_key_name_desc alias alias) NDl _ _ H1) as [A1 A2].
    destruct (IH ND' _ _ H) as [I1 I2].
    split.
    + intros a [<-|Ha]; [|now apply I1].
      exists doc, contents. split; [exact D|]. split; [exact J|].
      intros l Hl. destruct (A1 l Hl) as [name [desc [F [L1 L2]]]].
      exists name, desc. split; [exact F|].
      rewrite !I2; [tauto|left..]; intros a Ha; split; intros E;
        first [ apply badge_key_desc_inj in E; now subst
              | apply badge_key_name_inj in E; now subst
              | now apply badge_key_name_desc in E
              | symmetry in E; now apply badge_key_name_desc in E ].
    + intros k l C. rewrite I2.
      * apply A2. destruct C as [C|C]; [left | now right].
        apply C. now left.
      * destruct C as [C|C]; [left | now right].
        intros a Ha. apply C. now right.
Qed.

(** When the merger returns a table: the document of every item was read
    and holds name and description for each of en, es, pt; the table maps
    the two derived keys of the item, for each language, to exactly these
    two texts; and it holds no text for any other language. *)
Theorem merger_copies_documents (cb : str -> bytes) (B : table) :
  NoDup scandir_dirs ->
  _add_badges_entries scandir_dirs json_loads cb = Ok B ->
  (forall alias, In alias scandir_dirs ->
     exists doc contents,
       decode (cb (badge_path alias)) = Some doc
       /\ json_loads doc = Ok contents
       /\ forall l, In l _LANGS ->
            exists name desc,
              badge_fields contents l name desc
              /\ lookup2 B (badge_key_name alias) l = Some name
              /\ lookup2 B (badge_key_desc alias) l = Some desc)
  /\ (forall k l, ~ In l _LANGS -> lookup2 B k l = None).
Proof.
  intros ND H. unfold _add_badges_entries in H.
  destruct (add_badges_values cb scandir_dirs ND _ _ H) as [A1 A2].
  split; [exact A1|]. intros k l NI. rewrite A2 by now right. reflexivity.
Qed.

End MergerValues.

Lemma merger_copies_sample_badge :
  exists B,
    _add_badges_entries [lit "x"] (fun _ => Ok sample_badge)
      stale_badge_sources = Ok B
    /\ lookup2 B (lit "badge_x_description") (lit "es") = Some (lit "Una x").
Proof.
  destruct (_add_badges_entries [lit "x"] (fun _ => Ok sample_badge)
              stale_badge_sources) as [B|e] eqn:HB;
    [|vm_compute in HB; discriminate].
  exists B. split; [reflexivity|].
  destruct (merger_copies_documents [lit "x"] (fun _ => Ok sample_badge)
              stale_badge_sources B) as [M _].
  - repeat constructor. simpl. tauto.
  - exact HB.
  - destruct (M (lit "x") (or_introl eq_refl))
      as [doc [contents [_ [J F]]]].
    injection J as <-.
    destruct (F (lit "es")) as [name [desc [[entry [G1 [G2 G3]]] [_ L]]]].
    { right. left. reflexivity. }
    vm_compute in G1. injection G1 as <-. vm_compute in G3.
    injection G3 as <-. exact L.
Defined.

(** ** The first incomplete document stops the merger *)

Lemma add_badge_langs_app (kn kd : str) (contents : dict (dict str))
  (l1 l2 : list str) :
  forall s,
    add_badge_langs kn kd contents (l1 ++ l2) s =
    (s1 <- add_badge_langs kn kd contents l1 s ;;
     add_badge_langs kn kd contents l2 s1).
Proof.
  induction l1 as [|l l1 IH]; intros s; [reflexivity|].
  cbn [app add_badge_langs].
  destruct (getitem l contents) as [entry|e]; [|reflexivity]. cbn [bind].
  destruct (getitem (lit "name") entry) as [name|e]; [|reflexivity].
  cbn [bind].
  destruct (getitem (lit "description") entry) as [desc|e]; [|reflexivity].
  cbn [bind]. apply IH.
Qed.

Lemma add_badge_langs_complete (kn kd : str) (contents : dict (dict str))
  (langs : list str) :
  (forall l, In l langs -> exists name desc, badge_fields contents l name desc) ->
  forall s, exists s', add_badge_langs kn kd contents langs s = Ok s'.
Proof.
  induction langs as [|l langs IH]; intros C s; [now exists s|].
  destruct (C l (or_introl eq_refl)) as [name [desc [entry [G1 [G2 G3]]]]].
  cbn [add_badge_langs]. unfold getitem at 1 2 3 4.
  rewrite G1. cbn [bind]. rewrite G2. cbn [bind]. rewrite G3. cbn [bind].
  apply IH. intros l' Hl'. apply C. now right.
Qed.

Lemma add_badges_app (json_loads : str -> result (dict (dict str)))
  (cb : str -> bytes) (a1 a2 : list str) :
  forall s,
    add_badges json_loads cb (a1 ++ a2) s =
    (s1 <- add_badges json_loads cb a1 s ;; add_badges json_loads cb a2 s1).
Proof.
  induction a1 as [|a a1 IH]; intros s; [reflexivity|].
  cbn [app add_badges].
  destruct (decode _) as [doc|]; [|reflexivity].
  destruct (json_loads doc) as [contents|e]; [|reflexivity]. cbn [bind].
  destruct (add_badge_langs _ _ contents _LANGS s) as [s1|e]; [|reflexivity].
  cbn [bind]. apply IH.
Qed.

(** The merger stops at the first item whose document is incomplete: when
    the items before it were merged, and its document lacks the language
    [l] while holding both fields for the languages that come before [l]
    in en, es, pt, then the call raises [KeyError] for [l]; when the
    document has the language but not the field name (or has name but not
    description), it raises [KeyError] for that field.  No table is
    returned, whatever the documents of the later items hold. *)
Theorem merger_stops_at_missing_key
  (json_loads : str -> result (dict (dict str))) (cb : str -> bytes)
  (pre post : list str) (alias doc : str) (contents : dict (dict str))
  (s1 : table) (lp ls : list str) (l : str) :
  add_badges json_loads cb pre [] = Ok s1 ->
  decode (cb (badge_path alias)) = Some doc ->
  json_loads doc = Ok contents ->
  _LANGS = lp ++ l :: ls ->
  (forall l', In l' lp -> exists name desc, badge_fields contents l' name desc) ->
  (dget l contents = None ->
   _add_badges_entries (pre ++ alias :: post) json_loads cb
   = Raise (KeyError l))
  /\ (forall entry, dget l contents = Some entry ->
        (dget (lit "name") entry = None ->
         _add_badges_entries (pre ++ alias :: post) json_loads cb
         = Raise (KeyError (lit "name")))
        /\ (dget (lit "name") entry <> None ->
            dget (lit "description") entry = None ->
            _add_badges_entries (pre ++ alias :: post) json_loads cb
            = Raise (KeyError (lit "description")))).
Proof.
  intros P D J L C.
  assert (forall e,
            (forall s, add_badge_langs (badge_key_name alias)
                         (badge_key_desc alias) contents (l :: ls) s
                       = Raise e) ->
            _add_badges_entries (pre ++ alias :: post) json_loads cb
            = Raise e) as K.
  { intros e E. unfold _add_badges_entries.
    rewrite add_badges_app, P. cbn [bind add_badges].
    fold (badge_path alias). rewrite D, J. cbn [bind].
    rewrite L, add_badge_langs_app.
    destruct (add_badge_langs_complete (badge_key_name alias)
                (badge_key_desc alias) contents lp C s1) as [s2 ->].
    cbn [bind]. now rewrite E. }
  split; [|intros entry G; split].
  - intros G. apply K. intros s. cbn [add_badge_langs]. unfold getitem at 1.
    now rewrite G.
  - intros G2. apply K. intros s. cbn [add_badge_langs].
    unfold getitem at 1 2. rewrite G. cbn [bind]. now rewrite G2.
  - intros G2 G3. apply K. intros s. cbn [add_badge_langs].
    unfold getitem at 1 2 3 4. rewrite G. cbn [bind].
    destruct (dget (lit "name") entry); [|congruence]. cbn [bind].
    now rewrite G3.
Qed.

Lemma merger_stops_at_missing_pt :
  _add_badges_entries [lit "x"; lit "y"] (fun _ => Ok two_language_badge)
    (fun _ => []) = Raise (KeyError (lit "pt")).
Proof.
  refine (proj1 (merger_stops_at_missing_key
                   (fun _ => Ok two_language_badge) (fun _ => [])
                   [] [lit "y"] (lit "x") [] two_language_badge []
                   [lit "en"; lit "es"] [] (lit "pt")
                   eq_refl eq_refl eq_refl eq_refl _) eq_refl).
  intros l' [<-|[<-|[]]].
  - exists (lit "X"), (lit "An x"). eexists. repeat split.
  - exists (lit "X"), (lit "Una x"). eexists. repeat split.
Defined.

(** ** What the check writes *)

Lemma dset_dset {V} (k : str) (v w : V) (d : dict V) :
  dset k v (dset k w d) = dset k v d.
Proof.
  induction d as [|[k' v'] d IH]; cbn [dset].
  - now rewrite str_eqb_refl.
  - destruct (str_eqb k k') eqn:E; cbn [dset].
    + now rewrite str_eqb_refl.
    + now rewrite E, IH.
Qed.

Lemma add_pseudo_idem (key : str) (values : dict str) :
  add_pseudo key (add_pseudo key values) = add_pseudo key values.
Proof.
  unfold add_pseudo. destruct (str_eqb key (lit "locale")).
  - apply dset_dset.
  - assert (lit "en" <> lit "pseudo") as NE by discriminate.
    unfold dd_getitem at 2.
    destruct (dget (lit "en") values) as [en|] eqn:G.
    + unfold dd_getitem. rewrite dget_dset_neq, G by exact NE.
      apply dset_dset.
    + unfold dd_getitem.
      rewrite dget_dset_neq, dget_dset_eq, G by exact NE. apply dset_dset.
Qed.

Lemma add_pseudo_other (key lang : str) (values : dict str) :
  lang <> lit "pseudo" -> dmem (lit "en") values = true ->
  dget lang (add_pseudo key values) = dget lang values.
Proof.
  intros NE M. unfold add_pseudo. destruct (str_eqb key (lit "locale")).
  - now apply dget_dset_neq.
  - apply dmem_dget in M as [en G]. unfold dd_getitem. rewrite G.
    now apply dget_dset_neq.
Qed.

Section CheckerWrites.

Variable set_iter : list str -> list str.
Hypothesis set_iter_perm : forall l, Permutation (set_iter l) l.

Lemma entry_checked_idem (languages : list str) (kv : str * dict str) :
  entry_checked set_iter languages (entry_checked set_iter languages kv)
  = entry_checked set_iter languages kv
  /\ entry_diagnostics set_iter languages
       (entry_checked set_iter languages kv)
     = entry_diagnostics set_iter languages kv.
Proof.
  destruct kv as [k v]. unfold entry_checked at 2 3 4. cbn [fst snd].
  destruct (missing_languages set_iter languages v) as [|m ms] eqn:M.
  - assert (missing_languages set_iter languages (add_pseudo k v) = []) as M'.
    { apply (missing_nil set_iter set_iter_perm). intros lang Hl.
      apply add_pseudo_keeps.
      now apply (proj1 (missing_nil set_iter set_iter_perm languages v) M). }
    unfold entry_checked, entry_diagnostics. cbn [fst snd].
    rewrite M', M, add_pseudo_idem. split; reflexivity.
  - unfold entry_checked. cbn [fst snd]. rewrite M. split; reflexivity.
Qed.

(** Checking the table a second time changes nothing: on the table that a
    first call leaves, the call leaves the same table and has the same
    outcome (the same diagnostics in the same order, or none). *)
Theorem check_is_idempotent (strings : table) (languages : list str) :
  _check_missing_entries set_iter
    (fst (_check_missing_entries set_iter strings languages)) languages
  = _check_missing_entries set_iter strings languages.
Proof.
  rewrite (surjective_pairing (_check_missing_entries set_iter strings _)).
  rewrite (surjective_pairing
             (_check_missing_entries set_iter (fst _) languages)).
  cbn [fst]. rewrite !check_fst, !check_snd. f_equal.
  - rewrite map_map. apply map_ext. intros kv.
    apply (entry_checked_idem languages kv).
  - rewrite flat_map_concat_map, map_map, <- flat_map_concat_map.
    replace (flat_map (fun x => entry_diagnostics set_iter languages
                                  (entry_checked set_iter languages x))
               strings)
      with (flat_map (entry_diagnostics set_iter languages) strings);
      [reflexivity|].
    apply flat_map_ext. intros kv. symmetry.
    apply (entry_checked_idem languages kv).
Qed.

(** The derived text is written even when the call fails for other keys:
    for a key whose entry holds en, es and pt, the table that the call
    leaves holds the entry with every text other than pseudo as it was,
    and, when the key is not locale, with the transform of its English
    text under pseudo. *)
Theorem check_writes_pseudo (strings : table) (key : str)
  (values : dict str) :
  dget key strings = Some values ->
  (forall lang, In lang _LANGS -> dmem lang values = true) ->
  exists en values',
    dget (lit "en") values = Some en
    /\ dget key (fst (_check_missing_entries set_iter strings _LANGS))
       = Some values'
    /\ (forall lang, lang <> lit "pseudo" ->
          dget lang values' = dget lang values)
    /\ (key <> lit "locale" ->
        dget (lit "pseudo") values' = Some (_pseudoloc en)).
Proof.
  intros G C.
  assert (dmem (lit "en") values = true) as Men by (apply C; now left).
  destruct (proj1 (dmem_dget _ _) Men) as [en Gen].
  exists en, (add_pseudo key values). split; [exact Gen|].
  rewrite check_fst, dget_checked, G. cbn [option_map].
  unfold entry_checked. cbn [fst snd].
  rewrite (proj2 (missing_nil set_iter set_iter_perm _LANGS values) C).
  cbn [snd]. split; [reflexivity|]. split.
  - intros lang NE. now apply add_pseudo_other.
  - intros NL. rewrite add_pseudo_pseudo.
    destruct (str_eqb key (lit "locale")) eqn:E.
    + apply str_eqb_eq in E. contradiction.
    + unfold dd_getitem. now rewrite Gen.
Qed.

End CheckerWrites.

Lemma check_twice_mixed_table :
  _check_missing_entries (fun l => l)
    (fst (_check_missing_entries (fun l => l) mixed_table _LANGS)) _LANGS
  = _check_missing_entries (fun l => l) mixed_table _LANGS.
Proof.
  exact (check_is_idempotent (fun l => l) (fun l => Permutation_refl l)
           mixed_table _LANGS).
Defined.

Lemma check_writes_pseudo_beside_failure :
  snd (_check_missing_entries (fun l => l) mixed_table _LANGS) <> Ok tt
  /\ exists en values',
       dget (lit "en") hi_values = Some en
       /\ dget (lit "hi")
            (fst (_check_missing_entries (fun l => l) mixed_table _LANGS))
          = Some values'
       /\ (forall lang, lang <> lit "pseudo" ->
             dget lang values' = dget lang hi_values)
       /\ (lit "hi" <> lit "locale" ->
           dget (lit "pseudo") values' = Some (_pseudoloc en)).
Proof.
  split; [vm_compute; discriminate|].
  apply (check_writes_pseudo (fun l => l) (fun l => Permutation_refl l)
           mixed_table (lit "hi") hi_values).
  - reflexivity.
  - intros lang [<-|[<-|[<-|[]]]]; reflexivity.
Defined.

(** ** The two maps of the drift detection *)

Lemma dkeys_dset_same {V W} (k : str) (v : V) (w : W) (d : dict V)
  (d' : dict W) :
  dkeys d = dkeys d' -> dkeys (dset k v d) = dkeys (dset k w d').
Proof.
  revert d'. induction d as [|[k1 v1] d IH]; intros [|[k2 v2] d'] H;
    try discriminate; [reflexivity|].
  cbn [dkeys map fst] in H. injection H as -> H. cbn [dset].
  destruct (str_eqb k k2).
  - cbn [dkeys map fst]. now f_equal.
  - cbn [dkeys map fst]. f_equal. now apply IH.
Qed.

Lemma content_entry_Ok (maps maps' : dict bytes * dict bytes)
  (path new_content : str) (cb : str -> bytes) :
  _generate_content_entry maps path new_content cb = Ok maps' ->
  (decode (cb path) = Some new_content /\ maps' = maps)
  \/ (exists t b,
        decode (cb path) = Some t /\ t <> new_content
        /\ encode new_content = Some b /\ cb path <> b
        /\ maps' = (dset path b (fst maps), dset path (cb path) (snd maps))).
Proof.
  unfold _generate_content_entry.
  destruct (decode (cb path)) as [t|] eqn:D; [|discriminate].
  destruct (str_eqb t new_content) eqn:E; cbn [negb].
  - apply str_eqb_eq in E. subst t. intros H. injection H as <-. now left.
  - destruct (encode new_content) as [b|] eqn:N; [|discriminate].
    intros H. injection H as <-. right. exists t, b.
    assert (t <> new_content) as NE.
    { intros ->. now rewrite str_eqb_refl in E. }
    repeat split; try assumption; try reflexivity.
    intros C. apply NE. apply str_eqb_eq.
    now apply (decoded_equal_iff (cb path) b t new_content D N).
Qed.

Lemma content_entries_Ok (cb : str -> bytes) (pairs : list (str * str)) :
  NoDup (map fst pairs) ->
  forall n0 o0 n o,
    content_entries cb pairs (n0, o0) = Ok (n, o) ->
    (forall p r, In (p, r) pairs ->
       (decode (cb p) = Some r /\ dget p n = dget p n0
        /\ dget p o = dget p o0)
       \/ (exists b, encode r = Some b /\ cb p <> b
                     /\ dget p n = Some b /\ dget p o = Some (cb p)))
    /\ (forall q, ~ In q (map fst pairs) ->
          dget q n = dget q n0 /\ dget q o = dget q o0)
    /\ (dkeys n0 = dkeys o0 -> dkeys n = dkeys o).
Proof.
  induction pairs as [|[p r] pairs IH]; intros ND n0 o0 n o H.
  - cbn [content_entries] in H. injection H as <- <-.
    split; [intros ? ? []|]. split; [tauto|tauto].
  - cbn [map fst] in ND. inversion ND as [|? ? NI ND']; subst.
    cbn [content_entries] in H. apply bind_Ok in H as [[n1 o1] [H1 H]].
    destruct (IH ND' _ _ _ _ H) as [I1 [I2 I3]].
    destruct (I2 p NI) as [Ep1 Ep2].
    apply content_entry_Ok in H1. cbn [fst snd] in H1.
    split; [|split].
    + intros p' r' [E|Hin].
      * injection E as <- <-.
        destruct H1 as [[D E]|[t [b [D [NE [N [C E]]]]]]];
          injection E as -> ->.
        -- left. tauto.
        -- right. exists b. rewrite Ep1, Ep2, !dget_dset_eq. tauto.
      * assert (p' <> p) as NP.
        { intros ->. apply NI. apply in_map_iff. now exists (p, r'). }
        destruct (I1 p' r' Hin) as [[D [E1 E2]]|K]; [left|now right].
        split; [exact D|]. rewrite E1, E2.
        destruct H1 as [[_ E]|[t [b [_ [_ [_ [_ E]]]]]]];
          injection E as -> ->; [tauto|].
        now rewrite !dget_dset_neq.
    + intros q NQ. cbn [map fst In] in NQ.
      destruct (I2 q) as [E1 E2]; [tauto|]. rewrite E1, E2.
      destruct H1 as [[_ E]|[t [b [_ [_ [_ [_ E]]]]]]];
        injection E as -> ->; [tauto|].
      rewrite !dget_dset_neq; [tauto|intros ->; tauto..].
    + intros K. apply I3.
      destruct H1 as [[_ E]|[t [b [_ [_ [_ [_ E]]]]]]];
        injection E as -> ->; [exact K|].
      now apply dkeys_dset_same.
Qed.

Lemma content_entries_fixed (cb : str -> bytes) (pairs : list (str * str))
  (maps : dict bytes * dict bytes) :
  (forall p r, In (p, r) pairs -> decode (cb p) = Some r) ->
  content_entries cb pairs maps = Ok maps.
Proof.
  induction pairs as [|[p r] pairs IH]; intros C; [reflexivity|].
  cbn [content_entries]. unfold _generate_content_entry.
  rewrite (C p r (or_introl eq_refl)), str_eqb_refl. cbn [negb bind].
  apply IH. intros p' r' H. apply C. now right.
Qed.

(** When the drift detection returns its two maps, they have the same
    paths in the same order; a path is in them exactly when it is the path
    of an artifact whose bytes on disk differ from the encoding of its
    rendering, and then the first map holds that encoding and the second
    the bytes on disk; the bytes on disk of every other artifact decode to
    its rendering. *)
Theorem drift_maps_agree (strings : table) (cb : str -> bytes)
  (news origs : dict bytes) :
  _generate_new_contents strings cb = Ok (news, origs) ->
  dkeys news = dkeys origs
  /\ (forall p r, In (p, r) (artifacts strings) ->
        (decode (cb p) = Some r /\ dget p news = None
         /\ dget p origs = None)
        \/ (exists b, encode r = Some b /\ cb p <> b
                      /\ dget p news = Some b
                      /\ dget p origs = Some (cb p)))
  /\ (forall q, ~ In q (map fst (artifacts strings)) ->
        dget q news = None /\ dget q origs = None).
Proof.
  intros H. unfold _generate_new_contents in H.
  destruct (content_entries_Ok cb (artifacts strings)
              (artifact_paths_NoDup strings) _ _ _ _ H) as [I1 [I2 I3]].
  split; [now apply I3|]. split; [exact I1|exact I2].
Qed.

Lemma drift_maps_of_empty_disk :
  dkeys (fst sample_drift) = dkeys (snd sample_drift)
  /\ List.length (dkeys (fst sample_drift)) = 12%nat.
Proof.
  split; [|vm_compute; reflexivity].
  apply (drift_maps_agree sample_checked empty_disk
           (fst sample_drift) (snd sample_drift)).
  vm_compute. reflexivity.
Defined.

(** Writing the replacement contents back settles the files: when the
    drift detection returns the map of replacement contents, a second
    detection on the files as they are after the replacements have been
    written finds nothing to replace. *)
Theorem drift_fix_is_stable (strings : table) (cb : str -> bytes)
  (news origs : dict bytes) :
  _generate_new_contents strings cb = Ok (news, origs) ->
  _generate_new_contents strings (overlay news cb) = Ok ([], []).
Proof.
  intros H. unfold _generate_new_contents in *.
  destruct (content_entries_Ok cb (artifacts strings)
              (artifact_paths_NoDup strings) _ _ _ _ H) as [I1 _].
  apply content_entries_fixed. intros p r Hin. unfold overlay.
  destruct (I1 p r Hin) as [[D [E _]]|[b [N [_ [E _]]]]]; rewrite E.
  - exact D.
  - now apply encode_decode.
Qed.

Lemma drift_fix_of_empty_disk :
  _generate_new_contents sample_checked
    (overlay (fst sample_drift) empty_disk) = Ok ([], []).
Proof.
  apply (drift_fix_is_stable sample_checked empty_disk
           (fst sample_drift) (snd sample_drift)).
  vm_compute. reflexivity.
Defined.

(** ** What the parser reads of a file *)

Lemma split_on_no_sep (sep : byte) (l : bytes) :
  ~ In sep l -> split_on sep l = [l].
Proof.
  induction l as [|b l IH]; intros NI; [reflexivity|].
  cbn [split_on]. destruct (b =? sep) eqn:E.
  - apply N.eqb_eq in E. subst b. exfalso. apply NI. now left.
  - rewrite IH; [reflexivity|]. intros H. apply NI. now right.
Qed.

Lemma file_lines_tail (ls : list bytes) (tail : bytes) :
  (forall l, In l ls -> ~ In LF l) -> ~ In LF tail ->
  file_lines (concat (map (fun l => l ++ [LF]) ls) ++ tail) = ls.
Proof.
  intros H T. unfold file_lines. unfold LF in *.
  assert (split_on 10 (concat (map (fun l => l ++ [10]) ls) ++ tail)
          = ls ++ [tail]) as ->.
  { induction ls as [|l ls IH].
    - cbn [map concat app]. now apply split_on_no_sep.
    - cbn [map concat]. rewrite <- !app_assoc. cbn [app].
      rewrite split_on_app_sep by (apply H; now left).
      rewrite IH; [reflexivity|]. intros; apply H; now right. }
  apply removelast_last.
Qed.

Lemma parse_files_ext (cb cb' : str -> bytes) (langs : list str) :
  (forall lang, In lang langs ->
     file_lines (cb (lang_path lang)) = file_lines (cb' (lang_path lang))) ->
  forall st, parse_files cb langs st = parse_files cb' langs st.
Proof.
  induction langs as [|lang langs IH]; intros H st; [reflexivity|].
  cbn [parse_files]. rewrite (H lang (or_introl eq_refl)).
  destruct (parse_lines _ _ _ _ _) as [st'|e]; [|reflexivity].
  cbn [bind]. apply IH. intros l Hl. apply H. now right.
Qed.

(** The parser reads the complete lines of the three source files and
    nothing else: two sets of contents whose source files hold the same
    lines ended by a line feed give the same result, whatever bytes follow
    the last line feed of a file and whatever the other files hold.  (So a
    last line without its line feed is not read.) *)
Theorem parser_reads_complete_lines (cb cb' : str -> bytes) :
  (forall lang, In lang _LANGS ->
     exists ls tail tail',
       (forall l, In l ls -> ~ In LF l)
       /\ ~ In LF tail /\ ~ In LF tail'
       /\ cb (lang_path lang)
          = concat (map (fun l => l ++ [LF]) ls) ++ tail
       /\ cb' (lang_path lang)
          = concat (map (fun l => l ++ [LF]) ls) ++ tail') ->
  _get_translated_strings cb = _get_translated_strings cb'.
Proof.
  intros H. unfold _get_translated_strings.
  rewrite (parse_files_ext cb cb'); [reflexivity|].
  intros lang Hl.
  destruct (H lang Hl) as [ls [tail [tail' [L [T [T' [-> ->]]]]]]].
  now rewrite !file_lines_tail.
Qed.

Lemma parser_skips_unterminated_line :
  _get_translated_strings
    (sources (kv_line (lit "a") (lit "x") ++ lit "b = ") [] [])
  = _get_translated_strings (sources (kv_line (lit "a") (lit "x")) [] []).
Proof.
  apply parser_reads_complete_lines.
  intros lang [<-|[<-|[<-|[]]]].
  - exists [lit "a = " ++ [QUOTE] ++ lit "x" ++ [QUOTE]], (lit "b = "), [].
    split; [|split; [|split; [|split]]]; try reflexivity.
    + intros l [<-|[]]. vm_compute. intuition discriminate.
    + vm_compute. intuition discriminate.
    + intros [].
  - exists [], [], [].
    repeat split; try reflexivity; first [intros ? [] | intros []].
  - exists [], [], [].
    repeat split; try reflexivity; first [intros ? [] | intros []].
Defined.

(** ** A line that does not decode *)

Lemma parse_line_undecoded (lang file : str) (st : pstate) (n : N)
  (l : bytes) :
  decode l = None ->
  parse_line lang file st n l =
  match p_row st with
  | None => Raise (UnboundLocalError (lit "row"))
  | Some row =>
      Ok (mkPstate (p_strings st)
            (p_diagnostics st
             ++ [mkDiagnostic (DecodeErrorText l) file (Some (n + 1))
                   (Some (strip row))])
            (p_row st))
  end.
Proof. intros D. unfold parse_line, on_exception. now rewrite D. Qed.

Lemma parse_lines_bound (lang file : str) (lines : list bytes) :
  forall st n, p_row st <> None ->
  exists st', parse_lines lang file st n lines = Ok st' /\ p_row st' <> None.
Proof.
  induction lines as [|l lines IH]; intros st n B; [now exists st|].
  cbn [parse_lines]. destruct (decode l) as [row|] eqn:D.
  - rewrite (parse_line_decoded _ _ _ _ _ _ D). cbn [bind].
    apply IH. cbn [p_row]. discriminate.
  - rewrite (parse_line_undecoded _ _ _ _ _ D).
    destruct (p_row st) as [r|] eqn:R; [|contradiction]. cbn [bind].
    apply IH. cbn [p_row]. discriminate.
Qed.

Lemma parse_files_bound (cb : str -> bytes) (langs : list str) :
  forall st, p_row st <> None ->
  exists st', parse_files cb langs st = Ok st' /\ p_row st' <> None.
Proof.
  induction langs as [|lang langs IH]; intros st B; [now exists st|].
  cbn [parse_files].
  destruct (parse_lines_bound lang (lang_path lang)
              (file_lines (cb (lang_path lang))) st 0 B) as [st1 [-> B1]].
  cbn [bind]. now apply IH.
Qed.

Lemma parse_files_first (cb : str -> bytes) (langs : list str)
  (l1 : bytes) (rest : list bytes) :
  forall st,
  flat_map (fun lang => file_lines (cb (lang_path lang))) langs = l1 :: rest ->
  (forall row, decode l1 = Some row ->
     exists st', parse_files cb langs st = Ok st')
  /\ (decode l1 = None -> p_row st = None ->
      parse_files cb langs st = Raise (UnboundLocalError (lit "row"))).
Proof.
  induction langs as [|lang langs IH]; intros st F; [discriminate|].
  cbn [flat_map] in F. cbn [parse_files].
  destruct (file_lines (cb (lang_path lang))) as [|x xs] eqn:FL.
  - cbn [parse_lines bind]. apply IH. exact F.
  - cbn [app] in F. injection F as -> _. cbn [parse_lines]. split.
    + intros row D. rewrite (parse_line_decoded _ _ _ _ _ _ D). cbn [bind].
      destruct (parse_lines_bound lang (lang_path lang) xs
                  (mkPstate (row_strings lang row (p_strings st))
                     (p_diagnostics st
                      ++ row_diagnostic (lang_path lang) 0 row) (Some row))
                  (0 + 1)) as [st1 [-> B1]]; [discriminate|].
      cbn [bind].
      destruct (parse_files_bound cb langs st1 B1) as [st' [E _]].
      now exists st'.
    + intros D R. rewrite (parse_line_undecoded _ _ _ _ _ D), R.
      reflexivity.
Qed.

Lemma parse_files_nil (cb : str -> bytes) (langs : list str) :
  forall st,
  flat_map (fun lang => file_lines (cb (lang_path lang))) langs = [] ->
  parse_files cb langs st = Ok st.
Proof.
  induction langs as [|lang langs IH]; intros st F; [reflexivity|].
  cbn [flat_map] in F. apply app_eq_nil in F as [F1 F2].
  cbn [parse_files]. rewrite F1. cbn [parse_lines bind]. now apply IH.
Qed.

(** The parser raises [UnboundLocalError] for its local [row] exactly
    when the first line it reads, over the three files in the order en,
    es, pt, is not valid UTF-8: the handler reads [row] before any line
    has been decoded. *)
Theorem parser_unbound_row (cb : str -> bytes) :
  _get_translated_strings cb = Raise (UnboundLocalError (lit "row"))
  <-> exists l rest, source_lines cb = l :: rest /\ decode l = None.
Proof.
  unfold _get_translated_strings, source_lines. split.
  - intros H.
    destruct (flat_map (fun lang => file_lines (cb (lang_path lang))) _LANGS)
      as [|l rest] eqn:F.
    + rewrite (parse_files_nil cb _LANGS _ F) in H. discriminate.
    + exists l, rest. split; [reflexivity|].
      destruct (decode l) as [row|] eqn:D; [|reflexivity].
      destruct (proj1 (parse_files_first cb _LANGS l rest
                         (mkPstate [] [] None) F) row D) as [st' E].
      rewrite E in H. cbn [bind] in H.
      destruct (p_diagnostics st'); discriminate.
  - intros [l [rest [F D]]].
    now rewrite (proj2 (parse_files_first cb _LANGS l rest
                          (mkPstate [] [] None) F) D eq_refl).
Qed.

Lemma parse_lines_stale (lang file : str) (pre : list bytes) :
  forall st st' n l0 l post row0,
  parse_lines lang file st n (pre ++ l0 :: l :: post) = Ok st' ->
  decode l0 = Some row0 -> decode l = None ->
  In (mkDiagnostic (DecodeErrorText l) file
        (Some (n + N.of_nat (List.length pre) + 2)) (Some (strip row0)))
     (p_diagnostics st').
Proof.
  induction pre as [|x pre IH]; intros st st' n l0 l post row0 H D0 D.
  - cbn [app parse_lines] in H.
    rewrite (parse_line_decoded _ _ _ _ _ _ D0) in H. cbn [bind] in H.
    rewrite (parse_line_undecoded _ _ _ _ _ D) in H.
    cbn [p_row bind p_strings p_diagnostics] in H.
    apply parse_lines_Ok in H as [extra [E _]]. rewrite E.
    cbn [p_diagnostics].
    change (N.of_nat (List.length (@nil (list N)))) with 0.
    replace (n + 0 + 2) with (n + 1 + 1) by lia.
    apply in_or_app. left. apply in_or_app. right. now left.
  - cbn [app parse_lines] in H. apply bind_Ok in H as [st1 [_ H]].
    specialize (IH _ _ _ _ _ _ _ H D0 D).
    replace (n + N.of_nat (List.length (x :: pre)) + 2)
      with (n + 1 + N.of_nat (List.length pre) + 2); [exact IH|].
    cbn [List.length]. lia.
Qed.

Lemma parse_files_stale (cb : str -> bytes) (langs : list str) :
  forall st st' lang pre l0 l post row0,
  parse_files cb langs st = Ok st' -> In lang langs ->
  file_lines (cb (lang_path lang)) = pre ++ l0 :: l :: post ->
  decode l0 = Some row0 -> decode l = None ->
  In (mkDiagnostic (DecodeErrorText l) (lang_path lang)
        (Some (N.of_nat (List.length pre) + 2)) (Some (strip row0)))
     (p_diagnostics st').
Proof.
  induction langs as [|x langs IH];
    intros st st' lang pre l0 l post row0 H Hin FL D0 D; [destruct Hin|].
  cbn [parse_files] in H. apply bind_Ok in H as [st1 [H1 H]].
  destruct Hin as [->|Hin].
  - rewrite FL in H1.
    apply (parse_lines_stale _ _ _ _ _ _ _ _ _ _ H1 D0) in D.
    apply parse_files_Ok in H as [extra [E _]]. rewrite E.
    apply in_or_app. left. exact D.
  - now apply (IH _ _ _ _ _ _ _ _ H Hin FL D0 D).
Qed.

(** A line that is not valid UTF-8 is reported with the text of an
    earlier line: when the first line read decodes (so that the parser
    does not stop with [UnboundLocalError]), and a file holds a line that
    decodes to [row0] directly followed by a line [l] that does not
    decode, the parser raises the exception with its diagnostics, and one
    of them carries the decoding error of [l] and the number of [l]
    together with the stripped text of [row0]. *)
Theorem parser_stale_row (cb : str -> bytes) (l1 : bytes)
  (rest : list bytes) (lang : str) (pre post : list bytes) (l0 l : bytes)
  (row0 : str) :
  source_lines cb = l1 :: rest -> decode l1 <> None ->
  In lang _LANGS ->
  file_lines (cb (lang_path lang)) = pre ++ l0 :: l :: post ->
  decode l0 = Some row0 -> decode l = None ->
  exists ds,
    _get_translated_strings cb
    = Raise (LinterException (lit "Invalid i18n files") (Some false) ds)
    /\ In (mkDiagnostic (DecodeErrorText l) (lang_path lang)
             (Some (N.of_nat (List.length pre) + 2)) (Some (strip row0))) ds.
Proof.
  intros F D1 Hin FL D0 D. unfold _get_translated_strings.
  destruct (decode l1) as [row1|] eqn:E1; [|contradiction].
  destruct (proj1 (parse_files_first cb _LANGS l1 rest
                     (mkPstate [] [] None) F) row1 E1) as [st' E].
  rewrite E. cbn [bind].
  pose proof (parse_files_stale cb _LANGS _ _ _ _ _ _ _ _ E Hin FL D0 D)
    as I.
  destruct (p_diagnostics st') as [|d ds]; [destruct I|].
  exists (d :: ds). split; [reflexivity|exact I].
Qed.

Lemma parser_unbound_row_first_line :
  _get_translated_strings (sources [255; LF] [] [])
  = Raise (UnboundLocalError (lit "row")).
Proof.
  apply (proj2 (parser_unbound_row (sources [255; LF] [] []))).
  exists [255], []. split; reflexivity.
Defined.

Lemma parser_stale_row_second_line :
  exists ds,
    _get_translated_strings undecodable_sources
    = Raise (LinterException (lit "Invalid i18n files") (Some false) ds)
    /\ In (mkDiagnostic (DecodeErrorText [255]) (lang_path (lit "en"))
             (Some 2)
             (Some (lit "a = " ++ [QUOTE] ++ lit "x" ++ [QUOTE]))) ds.
Proof.
  apply (parser_stale_row undecodable_sources
           (lit "a = " ++ [QUOTE] ++ lit "x" ++ [QUOTE]) [[255]]
           (lit "en") [] []
           (lit "a = " ++ [QUOTE] ++ lit "x" ++ [QUOTE]) [255]
           (lit "a = " ++ [QUOTE] ++ lit "x" ++ [QUOTE])).
  - reflexivity.
  - vm_compute. discriminate.
  - now left.
  - reflexivity.
  - reflexivity.
  - reflexivity.
Defined.

(** ** The table that the parser returns *)

Lemma row_strings_keys (lang row k0 v0 : str) (s : table) :
  row_entry row = Some (k0, v0) ->
  (forall k, In k (dkeys (row_strings lang row s)) <->
             k = k0 \/ In k (dkeys s))
  /\ (NoDup (dkeys s) -> NoDup (dkeys (row_strings lang row s))).
Proof.
  unfold row_entry, row_strings.
  destruct (re_split_sep (strip row)) as [|key [|value [|x y]]];
    try discriminate.
  destruct (match_value value) as [g|]; [|discriminate].
  intros H. injection H as -> <-. split.
  - intros k. rewrite dkeys_setitem2.
    destruct (dmem k0 s) eqn:M; [tauto|]. rewrite dkeys_dset. tauto.
  - intros ND. apply setitem2_NoDup.
    destruct (dmem k0 s); [exact ND|now apply dset_NoDup].
Qed.

Lemma lines_strings_keys (lang : str) (lines : list bytes) :
  (forall y, In y lines -> line_entry y <> None) ->
  forall s,
    (forall k, In k (dkeys (lines_strings lang lines s)) ->
       In k (dkeys s)
       \/ exists y v, In y lines /\ line_entry y = Some (k, v))
    /\ (NoDup (dkeys s) -> NoDup (dkeys (lines_strings lang lines s)))
    /\ ((forall k, In k (dkeys s) -> exists l v, lookup2 s k l = Some v) ->
        forall k, In k (dkeys (lines_strings lang lines s)) ->
                  exists l v,
                    lookup2 (lines_strings lang lines s) k l = Some v).
Proof.
  induction lines as [|x lines IH]; intros W s.
  - cbn [lines_strings]. repeat split; auto.
  - cbn [lines_strings].
    assert (line_entry x <> None) as Wx by (apply W; now left).
    unfold line_entry in Wx.
    destruct (decode x) as [row|] eqn:D; [|contradiction].
    destruct (row_entry row) as [[k0 v0]|] eqn:R; [|contradiction].
    destruct (row_strings_keys lang row k0 v0 s R) as [K1 K2].
    destruct (IH (fun y Hy => W y (or_intror Hy))
                (row_strings lang row s)) as [I1 [I2 I3]].
    split; [|split].
    + intros k Hk. destruct (I1 k Hk) as [Hk'|[y [v [Hy E]]]].
      * apply K1 in Hk' as [->|Hk']; [|now left].
        right. exists x, v0. split; [now left|].
        unfold line_entry. now rewrite D.
      * right. exists y, v. split; [now right|exact E].
    + intros ND. apply I2. now apply K2.
    + intros T. apply I3. intros k Hk.
      apply K1 in Hk as [->|Hk].
      * exists lang, v0. rewrite lookup2_row_strings, R, !str_eqb_refl.
        reflexivity.
      * destruct (T k Hk) as [l [v E]].
        destruct (str_eqb k k0 && str_eqb l lang) eqn:B.
        -- exists l, v0. now rewrite lookup2_row_strings, R, B.
        -- exists l, v. now rewrite lookup2_row_strings, R, B.
Qed.

Lemma lines_strings_lookup (lang : str) (lines : list bytes) :
  forall s k l v,
    lookup2 (lines_strings lang lines s) k l = Some v ->
    lookup2 s k l = Some v
    \/ (l = lang /\ exists y, In y lines /\ line_entry y = Some (k, v)).
Proof.
  induction lines as [|x lines IH]; intros s k l v H; [now left|].
  cbn [lines_strings] in H. apply IH in H as [H|[-> [y [Hy E]]]].
  - destruct (decode x) as [row|] eqn:D; [|now left].
    rewrite lookup2_row_strings in H.
    destruct (row_entry row) as [[k0 v0]|] eqn:R; [|now left].
    destruct (str_eqb k k0 && str_eqb l lang) eqn:B; [|now left].
    apply andb_true_iff in B as [B1 B2].
    apply str_eqb_eq in B1, B2. subst. injection H as ->.
    right. split; [reflexivity|]. exists x. split; [now left|].
    unfold line_entry. now rewrite D.
  - right. split; [reflexivity|]. exists y. split; [now right|exact E].
Qed.

Lemma parsed_strings_shape (cb : str -> bytes) (all langs : list str) :
  (forall lang, In lang langs -> In lang all) ->
  (forall lang y, In lang langs -> In y (file_lines (cb (lang_path lang))) ->
                  line_entry y <> None) ->
  forall s,
    NoDup (dkeys s) ->
    (forall k, In k (dkeys s) -> exists l v, lookup2 s k l = Some v) ->
    (forall k l v, lookup2 s k l = Some v ->
       In l all /\ exists y, In y (file_lines (cb (lang_path l)))
                             /\ line_entry y = Some (k, v)) ->
    let s' := fold_left (fun strings lang =>
                           lines_strings lang
                             (file_lines (cb (lang_path lang))) strings)
                langs s in
    NoDup (dkeys s')
    /\ (forall k, In k (dkeys s') -> exists l v, lookup2 s' k l = Some v)
    /\ (forall k l v, lookup2 s' k l = Some v ->
          In l all /\ exists y, In y (file_lines (cb (lang_path l)))
                                /\ line_entry y = Some (k, v)).
Proof.
  induction langs as [|lang langs IH]; intros A W s ND T P.
  - cbn [fold_left]. auto.
  - cbn [fold_left].
    destruct (lines_strings_keys lang (file_lines (cb (lang_path lang)))
                (fun y Hy => W lang y (or_introl eq_refl) Hy) s)
      as [_ [K2 K3]].
    apply IH.
    + intros l Hl. apply A. now right.
    + intros l y Hl. apply W. now right.
    + now apply K2.
    + now apply K3.
    + intros k l v H.
      apply lines_strings_lookup in H as [H|[-> [y [Hy E]]]];
        [now apply P|].
      split; [apply A; now left|]. now exists y.
Qed.

Lemma NoDup_dkeys_filter {V} (f : str * V -> bool) (d : dict V) :
  NoDup (dkeys d) -> NoDup (dkeys (filter f d)).
Proof.
  induction d as [|[k v] d IH]; intros ND; [constructor|].
  cbn [dkeys map fst] in ND. inversion ND as [|? ? NI ND']; subst.
  cbn [filter]. destruct (f (k, v)); [|now apply IH].
  cbn [dkeys map fst]. constructor; [|now apply IH].
  intros H. apply NI. unfold dkeys in *. apply in_map_iff in H.
  destruct H as [[k' v'] [E H]]. apply filter_In in H as [H _].
  apply in_map_iff. now exists (k', v').
Qed.

Lemma filtered_table_shape (cb : str -> bytes) :
  (forall l, In l (source_lines cb) -> line_entry l <> None) ->
  let T := filter (fun kv => negb (startswith (fst kv) (lit "badge_")))
             (parsed_strings cb) in
  NoDup (dkeys T)
  /\ (forall k, In k (dkeys T) -> exists lang v, lookup2 T k lang = Some v)
  /\ (forall k lang v, lookup2 T k lang = Some v ->
        In lang _LANGS /\ startswith k (lit "badge_") = false
        /\ exists l, In l (file_lines (cb (lang_path lang)))
                     /\ line_entry l = Some (k, v)).
Proof.
  intros W T.
  destruct (parsed_strings_shape cb _LANGS _LANGS (fun l Hl => Hl)
              (fun lang y Hl Hy =>
                 W y (proj2 (source_lines_In cb y)
                        (ex_intro _ lang (conj Hl Hy))))
              [] (NoDup_nil _) (fun k (Hk : In k []) => match Hk with end))
    as [S1 [S2 S3]]; [discriminate|].
  fold (parsed_strings cb) in S1, S2, S3.
  assert (forall k, startswith k (lit "badge_") = false ->
            forall l, lookup2 T k l = lookup2 (parsed_strings cb) k l) as L.
  { intros k B l. unfold lookup2, T. now rewrite dget_without_badges. }
  split; [now apply NoDup_dkeys_filter|]. split.
  - intros k Hk. unfold dkeys in Hk. apply in_map_iff in Hk.
    destruct Hk as [[k' vs] [E Hk]]. cbn [fst] in E. subst k'.
    apply filter_In in Hk as [Hk B]. cbn [fst] in B.
    apply negb_true_iff in B.
    destruct (S2 k) as [l [v E]].
    { unfold dkeys. apply in_map_iff. now exists (k, vs). }
    exists l, v. now rewrite L.
  - intros k lang v E.
    destruct (startswith k (lit "badge_")) eqn:B.
    + unfold lookup2, T in E. now rewrite dget_badge_filtered in E.
    + rewrite L in E by exact B. destruct (S3 k lang v E) as [A Y].
      split; [exact A|]. split; [reflexivity|exact Y].
Qed.

(** Everything in the table that the parser returns was read from a
    line: the keys are distinct, none starts with badge_, every key has a
    text for at least one language, and every text of a key for a language
    is the stored value of a well-formed line of that key in the file of
    that language, which is one of en, es, pt. *)
Theorem parser_table_from_lines (cb : str -> bytes) (T : table) :
  _get_translated_strings cb = Ok T ->
  NoDup (dkeys T)
  /\ (forall k, In k (dkeys T) -> exists lang v, lookup2 T k lang = Some v)
  /\ (forall k lang v, lookup2 T k lang = Some v ->
        In lang _LANGS /\ startswith k (lit "badge_") = false
        /\ exists l, In l (file_lines (cb (lang_path lang)))
                     /\ line_entry l = Some (k, v)).
Proof.
  intros H.
  pose proof (parser_Ok_well_formed cb T H) as W.
  rewrite (parser_well_formed cb W) in H. injection H as <-.
  exact (filtered_table_shape cb W).
Qed.

Lemma parser_table_of_stale_badge_sources :
  exists T,
    _get_translated_strings stale_badge_sources = Ok T
    /\ NoDup (dkeys T)
    /\ forall k lang v, lookup2 T k lang = Some v ->
          In lang _LANGS /\ startswith k (lit "badge_") = false
          /\ exists l,
               In l (file_lines (stale_badge_sources (lang_path lang)))
               /\ line_entry l = Some (k, v).
Proof.
  destruct (_get_translated_strings stale_badge_sources) as [T|e] eqn:H;
    [|vm_compute in H; discriminate].
  exists T. split; [reflexivity|].
  destruct (parser_table_from_lines stale_badge_sources T H) as [S1 [_ S3]].
  split; [exact S1|exact S3].
Defined.

(** ** The keys of the table that the parser returns *)

(** A key of the table that the parser returns is not empty and has no
    white space at either end: the separator match is the leftmost one in
    the stripped line, and it starts with white space. *)
Theorem parser_key_shape (cb : str -> bytes) (T : table) (k : str) :
  _get_translated_strings cb = Ok T -> In k (dkeys T) ->
  k <> [] /\ strip k = k.
Proof.
  intros H Hk.
  pose proof (parser_Ok_well_formed cb T H) as W.
  rewrite (parser_well_formed cb W) in H. injection H as <-.
  destruct (filtered_table_shape cb W) as [_ [S2 S3]].
  destruct (S2 k Hk) as [l [v E]].
  destruct (S3 k l v E) as [_ [_ [y [_ Y]]]].
  unfold line_entry in Y. destruct (decode y) as [row|]; [|discriminate].
  now apply (row_entry_key_shape row k v).
Qed.

Lemma parser_key_shape_hi :
  exists T,
    _get_translated_strings stale_badge_sources = Ok T
    /\ In (lit "hi") (dkeys T)
    /\ lit "hi" <> [] /\ strip (lit "hi") = lit "hi".
Proof.
  destruct (_get_translated_strings stale_badge_sources) as [T|e] eqn:H;
    [|vm_compute in H; discriminate].
  exists T. split; [reflexivity|].
  assert (In (lit "hi") (dkeys T)) as K.
  { vm_compute in H. injection H as <-. vm_compute. now left. }
  split; [exact K|].
  exact (parser_key_shape stale_badge_sources T (lit "hi") H K).
Defined.

(** ** A line of the table rendered again *)

Lemma lstrip_In (c : char) (s : str) : In c (lstrip s) -> In c s.
Proof.
  induction s as [|a s IH]; [tauto|]. cbn [lstrip].
  destruct (isspace a); [|tauto]. intros H. right. now apply IH.
Qed.

Lemma strip_In (c : char) (s : str) : In c (strip s) -> In c s.
Proof.
  unfold strip, rstrip. intros H. apply in_rev in H.
  apply lstrip_In in H. apply in_rev in H. now apply lstrip_In in H.
Qed.

Lemma find_sep_prefix (s k v : str) :
  find_sep s = Some (k, v) ->
  exists y, s = k ++ y /\ match_sep y = Some v.
Proof.
  revert k v. induction s as [|c r IH]; intros k v H; [discriminate|].
  rewrite find_sep_cons in H.
  destruct (match_sep (c :: r)) as [rest|] eqn:M.
  - injection H as <- <-. now exists (c :: r).
  - destruct (find_sep r) as [[k1 v1]|] eqn:F; [|discriminate].
    injection H as <- <-. destruct (IH k1 v1 eq_refl) as [y [-> My]].
    now exists y.
Qed.

Lemma match_sep_In (c : char) (y v : str) :
  match_sep y = Some v -> In c v -> In c y.
Proof.
  destruct y as [|a r]; [discriminate|]. cbn [match_sep].
  destruct (isspace a); [|discriminate].
  destruct (lstrip r) as [|e [|w r']] eqn:L; try discriminate.
  destruct ((e =? 61) && isspace w); [|discriminate].
  intros H Hin. injection H as <-. right. apply lstrip_In. rewrite L.
  right. right. now apply lstrip_In.
Qed.

Lemma match_value_parts (value g : str) :
  match_value value = Some g ->
  payload_ok g = true /\ forall c, In c g -> In c value.
Proof.
  unfold match_value.
  set (v0 := match rev value with
             | c :: r => if c =? LF then rev r else value
             | [] => value
             end).
  assert (forall c, In c v0 -> In c value) as S.
  { intros c. unfold v0. destruct (rev value) as [|a r] eqn:R; [tauto|].
    destruct (a =? LF); [|tauto]. intros H. apply in_rev in H.
    apply in_rev. rewrite R. now right. }
  destruct v0 as [|q t]; [discriminate|].
  destruct (rev t) as [|q' m] eqn:R; [discriminate|].
  destruct ((q =? QUOTE) && (q' =? QUOTE) && payload_ok (rev m)) eqn:B;
    [|discriminate].
  intros H. injection H as <-.
  apply andb_true_iff in B as [_ B]. split; [exact B|].
  intros c Hc. apply S. right. apply in_rev. rewrite R. right.
  now apply in_rev.
Qed.

Lemma replace2_In (a b q c : char) (s : str) :
  In c (replace2 a b [q] s) -> c = q \/ In c s.
Proof.
  remember (List.length s) as n eqn:Hn. revert s Hn.
  induction n as [n IH] using lt_wf_ind. intros s Hn H.
  destruct s as [|x [|y r]].
  - destruct H.
  - right. exact H.
  - rewrite replace2_cons2 in H.
    destruct ((x =? a) && (y =? b)).
    + destruct H as [<-|H]; [now left|].
      apply (IH (List.length r)) in H; [|cbn [List.length] in Hn; lia
                                        |reflexivity].
      destruct H; [now left|]. right. right. now right.
    + destruct H as [<-|H]; [right; now left|].
      apply (IH (List.length (y :: r))) in H;
        [|cbn [List.length] in *; lia|reflexivity].
      destruct H; [now left|]. right. now right.
Qed.

Lemma replace1_In (q c : char) (new s : str) :
  In c (replace1 q new s) -> In c new \/ In c s.
Proof.
  unfold replace1. intros H. apply in_flat_map in H as [x [Hx H]].
  destruct (x =? q); [now left|]. destruct H as [<-|[]]. now right.
Qed.

(** The characters of the key and of the stored value of a well-formed
    row are characters of the row, the quote apart. *)
Lemma row_entry_In (row k v : str) (c : char) :
  row_entry row = Some (k, v) ->
  (In c k -> In c row) /\ (In c v -> c = QUOTE \/ In c row).
Proof.
  unfold row_entry, re_split_sep.
  destruct (find_sep (strip row)) as [[k1 v1]|] eqn:F; [|discriminate].
  destruct (match_value v1) as [g|] eqn:M; [|discriminate].
  intros H. injection H as <- <-.
  apply find_sep_prefix in F as [y [E My]].
  apply match_value_parts in M as [_ Mg].
  split.
  - intros H. apply strip_In. rewrite E. apply in_or_app. now left.
  - intros H. apply replace2_In in H as [->|H]; [now left|]. right.
    apply strip_In. rewrite E. apply in_or_app. right.
    apply (match_sep_In c y v1 My). now apply Mg.
Qed.

Lemma lstrip_app_last (r y : str) (d : char) (x : str) :
  r = x ++ [d] -> isspace d = false ->
  lstrip (r ++ y) = lstrip r ++ y /\ lstrip r <> [].
Proof.
  revert x. induction r as [|a r IH]; intros x E Ed.
  - now destruct x.
  - cbn [app lstrip]. destruct (isspace a) eqn:Ea.
    + destruct x as [|a' x]; cbn [app] in E; injection E as <- E.
      * congruence.
      * now apply (IH x).
    + split; [reflexivity|discriminate].
Qed.

(** Whether the separator matches at a position inside the key does not
    depend on what follows the key, as long as it starts with white
    space. *)
Lemma match_sep_inside (x : str) (d : char) (y y' : str) (w w' : char)
  (t t' : str) :
  isspace d = false -> y = w :: t -> y' = w' :: t' ->
  isspace w = true -> isspace w' = true ->
  match_sep ((x ++ [d]) ++ y) = None ->
  match_sep ((x ++ [d]) ++ y') = None.
Proof.
  intros Ed -> -> Ew Ew'.
  destruct x as [|a r]; cbn [app match_sep].
  - now rewrite Ed.
  - destruct (isspace a); [|reflexivity].
    destruct (lstrip_app_last (r ++ [d]) (w :: t) d r eq_refl Ed) as [-> N].
    destruct (lstrip_app_last (r ++ [d]) (w' :: t') d r eq_refl Ed)
      as [-> _].
    destruct (lstrip (r ++ [d])) as [|e [|w0 r']]; [contradiction| |].
    + cbn [app]. rewrite Ew, Ew'.
      destruct (e =? 61); cbn [andb]; [discriminate|reflexivity].
    + cbn [app].
      destruct ((e =? 61) && isspace w0); [discriminate|reflexivity].
Qed.

Lemma find_sep_transfer (k y y' v v' : str) (w w' : char) (t t' : str) :
  y = w :: t -> y' = w' :: t' -> isspace w = true -> isspace w' = true ->
  (k = [] \/ exists k0 d, k = k0 ++ [d] /\ isspace d = false) ->
  find_sep (k ++ y) = Some (k, v) -> match_sep y' = Some v' ->
  find_sep (k ++ y') = Some (k, v').
Proof.
  intros Ey Ey' Ew Ew'. revert v.
  induction k as [|c k IH]; intros v L F M.
  - cbn [app]. subst y'. rewrite find_sep_cons, M. reflexivity.
  - destruct L as [L|[k0 [d [E Ed]]]]; [discriminate|].
    cbn [app] in *. rewrite find_sep_cons in F.
    destruct (match_sep (c :: k ++ y)) as [rest|] eqn:M0; [discriminate|].
    destruct (find_sep (k ++ y)) as [[k1 v1]|] eqn:F1; [|discriminate].
    injection F as -> ->.
    rewrite find_sep_cons.
    assert (match_sep (c :: k ++ y') = None) as ->.
    { change (c :: k ++ y') with ((c :: k) ++ y'). rewrite E.
      apply (match_sep_inside k0 d y y' w w' t t' Ed Ey Ey' Ew Ew').
      rewrite <- E. exact M0. }
    assert (k = [] \/ exists k0 d, k = k0 ++ [d] /\ isspace d = false)
      as L.
    { destruct k0 as [|c0 k0]; cbn [app] in E; injection E as -> E.
      - left. exact E.
      - right. now exists k0, d. }
    now rewrite (IH v L eq_refl M).
Qed.

(** A well-formed row, rendered again from its key and stored value, is
    well formed and yields the same key and value. *)
Lemma row_entry_rerendered (row k v : str) (lang : str) (strings : table) :
  row_entry row = Some (k, v) -> getitem2 strings k lang = v ->
  row_entry (sorted_row lang strings k) = Some (k, v).
Proof.
  intros R G.
  destruct (row_entry_key_shape row k v R) as [NE SK].
  revert R. unfold row_entry at 1, re_split_sep.
  destruct (find_sep (strip row)) as [[k1 v1]|] eqn:F; [|discriminate].
  destruct (match_value v1) as [g|] eqn:M; [|discriminate].
  intros H. injection H as -> Ev.
  destruct (find_sep_key_shape _ _ _ F)
    as [[-> _]|[[c [k' [Ek [r S]]]] L]]; [contradiction|].
  assert (isspace c = false) as Ec.
  { destruct (strip_head row) as [N|[c' [r' [S' Ec']]]]; congruence. }
  destruct (find_sep_prefix _ _ _ F) as [y [E My]].
  destruct (match_sep_space y v1 My) as [w [t [Ey Ew]]].
  apply match_value_parts in M as [Pg _].
  unfold sorted_row. rewrite G, <- Ev, (escape_unescape g Pg).
  unfold row_entry, re_split_sep.
  assert (strip (k ++ lit " = " ++ [QUOTE] ++ g ++ [QUOTE])
          = k ++ lit " = " ++ [QUOTE] ++ g ++ [QUOTE]) as ->.
  { rewrite Ek.
    replace ((c :: k') ++ lit " = " ++ [QUOTE] ++ g ++ [QUOTE])
      with (c :: (k' ++ lit " = " ++ [QUOTE] ++ g) ++ [QUOTE]).
    - now apply strip_id.
    - cbn [app]. now rewrite <- !app_assoc. }
  change ([QUOTE] ++ g ++ [QUOTE]) with (QUOTE :: g ++ [QUOTE]).
  rewrite (find_sep_transfer k y (lit " = " ++ QUOTE :: g ++ [QUOTE])
             v1 (QUOTE :: g ++ [QUOTE]) w 32 t
             (61 :: 32 :: QUOTE :: g ++ [QUOTE]) Ey eq_refl Ew eq_refl
             (or_intror L)).
  - now rewrite (match_value_quoted g Pg).
  - rewrite <- E. exact F.
  - apply match_sep_plain.
Qed.

(** ** Lines without line feed *)

Lemma split_on_In (sep : byte) (data l : bytes) :
  In l (split_on sep data) -> ~ In sep l.
Proof.
  revert l. induction data as [|b r IH]; intros l H.
  - destruct H as [<-|[]]. tauto.
  - cbn [split_on] in H. destruct (b =? sep) eqn:E.
    + destruct H as [<-|H]; [intros []|now apply IH].
    + destruct (split_on sep r) as [|first others]; cbn [In] in H.
      * destruct H as [<-|[]]. intros [->|[]].
        now rewrite N.eqb_refl in E.
      * destruct H as [<-|H].
        -- intros [->|H]; [now rewrite N.eqb_refl in E|].
           apply (IH first); [now left|exact H].
        -- apply IH. now right.
Qed.

Lemma removelast_In {A} (x : A) (l : list A) :
  In x (removelast l) -> In x l.
Proof.
  induction l as [|a l IH]; [intros []|].
  destruct l as [|b l]; [intros []|]. intros [<-|H]; [now left|].
  right. now apply IH.
Qed.

Lemma file_lines_In (content l : bytes) :
  In l (file_lines content) -> ~ In LF l.
Proof.
  unfold file_lines. intros H. apply removelast_In in H.
  now apply split_on_In in H.
Qed.

Lemma encode_In (s : str) (b : bytes) (c : char) :
  encode s = Some b -> c < 0x80 -> In c s -> In c b.
Proof.
  revert b. induction s as [|a s IH]; intros b H Hc Hin; [destruct Hin|].
  cbn [encode] in H.
  destruct (encode_char a) as [bs|] eqn:E; [|discriminate].
  destruct (encode s) as [r|]; [|discriminate].
  apply Some_inj in H. subst b. apply in_or_app.
  destruct Hin as [->|Hin]; [left | right; now apply IH].
  unfold encode_char in E. destruct (N.ltb_spec c 0x80); [|lia].
  apply Some_inj in E. subst bs. now left.
Qed.

Lemma decode_LF (l : bytes) (row : str) :
  decode l = Some row -> ~ In LF l -> ~ In LF row.
Proof.
  intros D NI H. apply NI. apply decode_sound in D.
  apply (encode_In row l LF D); [unfold LF; lia|exact H].
Qed.

Lemma line_entry_LF (l : bytes) (k v : str) :
  line_entry l = Some (k, v) -> ~ In LF l -> ~ In LF k /\ ~ In LF v.
Proof.
  unfold line_entry. destruct (decode l) as [row|] eqn:D; [|discriminate].
  intros R NI. pose proof (decode_LF l row D NI) as NR.
  destruct (row_entry_In row k v LF R) as [I1 I2]. split.
  - intros H. now apply NR, I1.
  - intros H. destruct (I2 H) as [E|H']; [discriminate|now apply NR].
Qed.

Lemma encode_Some_encodable (s : str) (b : bytes) :
  encode s = Some b -> encodable s = true.
Proof.
  revert b. induction s as [|a s IH]; intros b H; [reflexivity|].
  cbn [encode] in H. unfold encodable. cbn [forallb].
  destruct (encode_char a); [|discriminate].
  destruct (encode s) as [r|]; [|discriminate]. cbn [andb].
  now apply (IH r).
Qed.

Lemma encodable_concat_In (l : list str) (s : str) :
  encodable (concat l) = true -> In s l -> encodable s = true.
Proof.
  induction l as [|a l IH]; intros H Hin; [destruct Hin|].
  cbn [concat] in H. rewrite encodable_app in H.
  apply andb_true_iff in H as [H1 H2].
  destruct Hin as [<-|Hin]; [exact H1|now apply IH].
Qed.

Lemma sorted_row_LF (lang : str) (strings : table) (k : str) :
  ~ In LF k -> ~ In LF (getitem2 strings k lang) ->
  ~ In LF (sorted_row lang strings k).
Proof.
  intros Nk Nv H. unfold sorted_row in H.
  apply in_app_or in H as [H|H]; [tauto|].
  apply in_app_or in H as [H|H]; [cbn in H; intuition discriminate|].
  apply in_app_or in H as [H|H]; [cbn in H; intuition discriminate|].
  apply in_app_or in H as [H|H]; [|cbn in H; intuition discriminate].
  apply replace1_In in H as [H|H]; [cbn in H; intuition discriminate|tauto].
Qed.

(** The lines of the encoded sorted rendering are the encoded rows. *)
Lemma sorted_file_lines (lang : str) (strings : table) (b : bytes) :
  encode (_generate_sorted lang strings) = Some b ->
  (forall k, In k (dkeys strings) -> ~ In LF (sorted_row lang strings k)) ->
  file_lines b
  = map (fun k => encoded (sorted_row lang strings k))
        (sorted (dkeys strings))
    /\ forall k, In k (dkeys strings) ->
         decode (encoded (sorted_row lang strings k))
         = Some (sorted_row lang strings k).
Proof.
  intros E NL.
  assert (forall r,
            In r (map (sorted_row lang strings) (sorted (dkeys strings))) ->
            encodable r = true) as ER.
  { intros r Hr. pose proof (encode_Some_encodable _ _ E) as E'.
    rewrite generate_sorted_rows in E'.
    assert (encodable (r ++ [LF]) = true) as H.
    { apply (encodable_concat_In _ _ E').
      now apply (in_map (fun r => r ++ [LF])). }
    rewrite encodable_app in H. now apply andb_true_iff in H as [H _]. }
  assert (forall k, In k (sorted (dkeys strings)) -> In k (dkeys strings))
    as SK.
  { intros k. apply (Permutation_in _ (sorted_perm (dkeys strings))). }
  rewrite generate_sorted_rows, (encode_rows _ ER) in E.
  apply Some_inj in E. subst b. split.
  - rewrite file_lines_concat; [now rewrite map_map|].
    intros l Hl. rewrite map_map in Hl. apply in_map_iff in Hl.
    destruct Hl as [k [<- Hk]]. intros H.
    apply (NL k (SK k Hk)).
    destruct (encodable_encode (sorted_row lang strings k)) as [b Eb].
    { apply ER. now apply in_map. }
    unfold encoded in H. rewrite Eb in H. now apply (encode_LF _ _ Eb).
  - intros k Hk.
    destruct (encodable_encode (sorted_row lang strings k)) as [b Eb].
    { apply ER. apply in_map.
      now apply (Permutation_in _ (Permutation_sym
                                    (sorted_perm (dkeys strings)))). }
    unfold encoded. rewrite Eb. now apply encode_decode.
Qed.

(** ** Tables with the same texts *)

Lemma getitem2_of_lookup2 (s : table) (k l : str) :
  getitem2 s k l = match lookup2 s k l with Some v => v | None => [] end.
Proof.
  unfold getitem2, lookup2, dd_getitem.
  destruct (dget k s) as [values|]; [|reflexivity].
  now destruct (dget l values).
Qed.

Lemma lookup2_In_dkeys (s : table) (k l v : str) :
  lookup2 s k l = Some v -> In k (dkeys s).
Proof.
  unfold lookup2. destruct (dget k s) as [values|] eqn:G; [|discriminate].
  intros _. apply dget_In in G. unfold dkeys. apply in_map_iff.
  now exists (k, values).
Qed.

Lemma dupdate_NoDup {V} (d other : dict V) :
  NoDup (dkeys d) -> NoDup (dkeys (dupdate d other)).
Proof.
  unfold dupdate. revert d. induction other as [|[k v] other IH]; intros d ND.
  - exact ND.
  - cbn [fold_left fst snd]. apply IH. now apply dset_NoDup.
Qed.

Lemma lookup2_dupdate (d other : table) (k l : str) :
  NoDup (dkeys other) ->
  lookup2 (dupdate d other) k l
  = if dmem k other then lookup2 other k l else lookup2 d k l.
Proof.
  intros ND. unfold lookup2. destruct (dmem k other) eqn:M.
  - rewrite dget_dupdate_in; [reflexivity|exact ND|].
    apply dmem_dget in M as [v G]. apply dget_In in G.
    unfold dkeys. apply in_map_iff. now exists (k, v).
  - rewrite dget_dupdate_notin; [reflexivity|].
    intros H. apply dmem_false_dget in M.
    unfold dkeys in H. apply in_map_iff in H as [[k' v] [E H]].
    cbn [fst] in E. subst k'. apply (In_dget _ _ _ ND) in H. congruence.
Qed.

(** The three renderings depend on the table through its set of keys and
    its texts only. *)
Lemma renderings_ext (lang : str) (s s' : table) :
  sorted (dkeys s) = sorted (dkeys s') ->
  (forall k, In k (dkeys s) -> getitem2 s k lang = getitem2 s' k lang) ->
  _generate_sorted lang s = _generate_sorted lang s'
  /\ _generate_typescript lang s = _generate_typescript lang s'
  /\ _generate_json lang s = _generate_json lang s'.
Proof.
  intros K G.
  assert (forall k, In k (sorted (dkeys s)) ->
                    getitem2 s k lang = getitem2 s' k lang) as G'.
  { intros k Hk. apply G.
    now apply (Permutation_in _ (sorted_perm (dkeys s))). }
  unfold _generate_sorted, _generate_typescript, _generate_json.
  rewrite <- K. repeat split.
  - f_equal. apply map_ext_in. intros key Hk. now rewrite G'.
  - do 3 f_equal. apply map_ext_in. intros key Hk. now rewrite G'.
  - f_equal. revert G'. generalize (sorted (dkeys s)) as ks.
    generalize (@nil (str * str)) as m.
    intros m ks. revert m. induction ks as [|k ks IH]; intros m G';
      cbn [fold_left]; [reflexivity|].
    rewrite (G' k (or_introl eq_refl)). apply IH.
    intros k' Hk'. apply G'. now right.
Qed.

Section CheckedTexts.

Variable set_iter : list str -> list str.
Hypothesis set_iter_perm : forall l, Permutation (set_iter l) l.

Lemma check_Ok_complete (U S : table) :
  _check_missing_entries set_iter U _LANGS = (S, Ok tt) ->
  S = map (entry_checked set_iter _LANGS) U
  /\ forall k values, In (k, values) U ->
       forall lang, In lang _LANGS -> dmem lang values = true.
Proof.
  intros H.
  pose proof (check_fst set_iter U _LANGS) as F.
  pose proof (check_snd set_iter U _LANGS) as N.
  rewrite H in F, N. cbn [fst snd] in F, N. split; [exact F|].
  intros k values Hin.
  apply (missing_nil set_iter set_iter_perm).
  destruct (flat_map (entry_diagnostics set_iter _LANGS) U) as [|d ds] eqn:D;
    [|discriminate].
  assert (entry_diagnostics set_iter _LANGS (k, values) = []) as E.
  { destruct (entry_diagnostics set_iter _LANGS (k, values)) as [|x xs] eqn:X;
      [reflexivity|].
    assert (In x (flat_map (entry_diagnostics set_iter _LANGS) U)) as I.
    { apply in_flat_map. exists (k, values). split; [exact Hin|].
      rewrite X. now left. }
    rewrite D in I. destruct I. }
  unfold entry_diagnostics in E. cbn [fst snd] in E.
  now apply map_eq_nil in E.
Qed.

Lemma check_complete_Ok (U : table) :
  (forall k values, In (k, values) U ->
     forall lang, In lang _LANGS -> dmem lang values = true) ->
  _check_missing_entries set_iter U _LANGS
  = (map (entry_checked set_iter _LANGS) U, Ok tt).
Proof.
  intros C.
  rewrite (surjective_pairing (_check_missing_entries set_iter U _LANGS)).
  rewrite check_fst, check_snd. f_equal.
  assert (flat_map (entry_diagnostics set_iter _LANGS) U = []) as ->;
    [|reflexivity].
  induction U as [|[k values] U IH]; [reflexivity|].
  cbn [flat_map]. rewrite IH by (intros k' vs H; apply (C k' vs); now right).
  unfold entry_diagnostics. cbn [fst snd].
  now rewrite (proj2 (missing_nil set_iter set_iter_perm _LANGS values)
                 (C k values (or_introl eq_refl))).
Qed.

Lemma checked_getitem2 (U : table) (k l : str) (values : dict str) :
  dget k U = Some values ->
  (forall lang, In lang _LANGS -> dmem lang values = true) ->
  getitem2 (map (entry_checked set_iter _LANGS) U) k l =
  if str_eqb l (lit "pseudo")
  then (if str_eqb k (lit "locale") then lit "pseudo"
        else _pseudoloc (getitem2 U k (lit "en")))
  else getitem2 U k l.
Proof.
  intros G C. unfold getitem2 at 1. rewrite dget_checked, G.
  cbn [option_map]. unfold entry_checked. cbn [fst snd].
  rewrite (proj2 (missing_nil set_iter set_iter_perm _LANGS values) C).
  cbn [snd]. unfold getitem2. rewrite G.
  destruct (str_eqb l (lit "pseudo")) eqn:E.
  - apply str_eqb_eq in E. subst l. unfold dd_getitem at 1.
    now rewrite add_pseudo_pseudo.
  - unfold dd_getitem. rewrite add_pseudo_other.
    + now destruct (dget l values).
    + intros ->. now rewrite str_eqb_refl in E.
    + apply C. now left.
Qed.

End CheckedTexts.

(** ** A second run after the fix *)

Lemma endswith_path_join (a b : str) : endswith (path_join a b) b = true.
Proof.
  unfold path_join. destruct (startswith b (lit "/")).
  - apply (endswith_app [] b).
  - destruct a as [|c a]; [apply (endswith_app [] b)|].
    destruct (endswith (c :: a) (lit "/")).
    + apply endswith_app.
    + rewrite app_assoc. apply endswith_app.
Qed.

Lemma badge_path_not_artifact (alias : str) (strings : table) :
  ~ In (badge_path alias) (map fst (artifacts strings)).
Proof.
  rewrite artifact_paths. intros H.
  pose proof (endswith_path_join (path_join _BADGES_PATH alias)
                (lit "localizations.json")) as E.
  fold (badge_path alias) in E.
  remember (badge_path alias) as p eqn:Hp. clear Hp.
  cbn [flat_map app _LANGS In] in H.
  repeat (destruct H as [H|H];
          [rewrite <- H in E; vm_compute in E; discriminate|]).
  destruct H.
Qed.

Lemma add_badges_ext (json_loads : str -> result (dict (dict str)))
  (cb cb' : str -> bytes) (aliases : list str) :
  (forall alias, In alias aliases ->
     cb' (badge_path alias) = cb (badge_path alias)) ->
  forall s, add_badges json_loads cb' aliases s
            = add_badges json_loads cb aliases s.
Proof.
  induction aliases as [|alias aliases IH]; intros H s; [reflexivity|].
  cbn [add_badges]. fold (badge_path alias).
  rewrite (H alias (or_introl eq_refl)).
  destruct (decode (cb (badge_path alias))) as [doc|]; [|reflexivity].
  destruct (json_loads doc) as [contents|e]; [|reflexivity]. cbn [bind].
  destruct (add_badge_langs _ _ contents _LANGS s) as [s1|e]; [|reflexivity].
  cbn [bind]. apply IH. intros a Ha. apply H. now right.
Qed.

Lemma badge_key_plain (alias k : str) :
  forallb (fun c => negb (isspace c)) alias = true ->
  k = badge_key_name alias \/ k = badge_key_desc alias ->
  k <> [] /\ forallb (fun c => negb (isspace c)) k = true /\ ~ In LF k.
Proof.
  intros A K.
  assert (forallb (fun c => negb (isspace c)) k = true) as P.
  { destruct K as [-> | ->]; unfold badge_key_name, badge_key_desc;
      rewrite !forallb_app, A; reflexivity. }
  split; [|split; [exact P|]].
  - destruct K as [-> | ->]; discriminate.
  - intros H. rewrite forallb_forall in P. specialize (P LF H).
    discriminate.
Qed.

Lemma lang_not_pseudo (lang : str) :
  In lang _LANGS -> str_eqb lang (lit "pseudo") = false.
Proof. intros [<-|[<-|[<-|[]]]]; reflexivity. Qed.

Section SecondRun.

Variable set_iter : list str -> list str.
Variable scandir_dirs : list str.
Variable json_loads : str -> result (dict (dict str)).
Hypothesis set_iter_perm : forall l, Permutation (set_iter l) l.

Variable cb : str -> bytes.
Variables T B S : table.
Variables news origs : dict bytes.

Hypothesis parsed : _get_translated_strings cb = Ok T.
Hypothesis merged : _add_badges_entries scandir_dirs json_loads cb = Ok B.
Hypothesis checked :
  _check_missing_entries set_iter (dupdate T B) _LANGS = (S, Ok tt).
Hypothesis detected : _generate_new_contents S cb = Ok (news, origs).
Hypothesis plain_aliases :
  forall alias, In alias scandir_dirs ->
    forallb (fun c => negb (isspace c)) alias = true.
Hypothesis plain_texts :
  forall k l v, lookup2 B k l = Some v -> ~ In LF v.

(** The files after the fix, and the tables of the second run. *)
Variable cb' : str -> bytes.
Variables T' S' : table.
Hypothesis written : cb' = overlay news cb.
Hypothesis reparsed :
  T' = filter (fun kv => negb (startswith (fst kv) (lit "badge_")))
         (parsed_strings cb').
Hypothesis rechecked :
  S' = map (entry_checked set_iter _LANGS) (dupdate T' B).

Lemma first_sources_well_formed :
  forall l, In l (source_lines cb) -> line_entry l <> None.
Proof. exact (parser_Ok_well_formed cb T parsed). Qed.

Lemma first_table :
  T = filter (fun kv => negb (startswith (fst kv) (lit "badge_")))
        (parsed_strings cb).
Proof.
  pose proof parsed as H.
  rewrite (parser_well_formed cb first_sources_well_formed) in H.
  now injection H as <-.
Qed.

Lemma first_table_shape :
  NoDup (dkeys T)
  /\ (forall k lang v, lookup2 T k lang = Some v ->
        In lang _LANGS /\ startswith k (lit "badge_") = false
        /\ exists l, In l (file_lines (cb (lang_path lang)))
                     /\ line_entry l = Some (k, v))
  /\ (forall k, In k (dkeys T) -> exists lang v, lookup2 T k lang = Some v).
Proof.
  rewrite first_table.
  destruct (filtered_table_shape cb first_sources_well_formed)
    as [S1 [S2 S3]].
  split; [exact S1|]. split; [exact S3|exact S2].
Qed.

Lemma badges_shape :
  NoDup (dkeys B)
  /\ forall k, In k (dkeys B) ->
       exists alias, In alias scandir_dirs
                     /\ (k = badge_key_name alias \/ k = badge_key_desc alias).
Proof.
  pose proof merged as H. unfold _add_badges_entries in H.
  destruct (add_badges_spec json_loads cb scandir_dirs [] B H)
    as [K [N _]].
  split; [apply N; constructor|].
  intros k Hk. destruct (K k Hk) as [[]|A]. exact A.
Qed.

Lemma badge_keys_prefixed (k : str) :
  In k (dkeys B) -> startswith k (lit "badge_") = true.
Proof.
  intros Hk. destruct (proj2 badges_shape k Hk) as [alias [_ [-> | ->]]];
    apply startswith_app.
Qed.

Lemma first_complete :
  S = map (entry_checked set_iter _LANGS) (dupdate T B)
  /\ forall k, In k (dkeys (dupdate T B)) ->
       exists values,
         dget k (dupdate T B) = Some values
         /\ forall lang, In lang _LANGS -> dmem lang values = true.
Proof.
  destruct (check_Ok_complete set_iter set_iter_perm _ _ checked) as [E C].
  split; [exact E|]. intros k Hk.
  unfold dkeys in Hk. apply in_map_iff in Hk as [[k' values] [Ek Hin]].
  cbn [fst] in Ek. subst k'. exists values. split.
  - apply In_dget; [|exact Hin]. apply dupdate_NoDup.
    apply first_table_shape.
  - now apply (C k values).
Qed.

Lemma keys_checked : dkeys S = dkeys (dupdate T B).
Proof.
  rewrite (proj1 first_complete). unfold dkeys. rewrite map_map.
  apply map_ext. intros kv. apply entry_checked_fst.
Qed.

(** The text of a key for a language of en, es, pt in the checked
    table. *)
Lemma checked_text (k lang : str) :
  In k (dkeys S) -> In lang _LANGS ->
  exists v,
    getitem2 S k lang = v
    /\ lookup2 (dupdate T B) k lang = Some v.
Proof.
  intros Hk Hl. rewrite keys_checked in Hk.
  destruct (proj2 first_complete k Hk) as [values [G C]].
  destruct (proj1 (dmem_dget lang values) (C lang Hl)) as [v Gv].
  exists v. split.
  - rewrite (proj1 first_complete).
    rewrite (checked_getitem2 set_iter set_iter_perm _ k lang values G C).
    rewrite (lang_not_pseudo lang Hl).
    rewrite getitem2_of_lookup2. unfold lookup2. now rewrite G, Gv.
  - unfold lookup2. now rewrite G.
Qed.

(** Every row of the sorted rendering of the checked table is one line,
    and is well formed. *)
Lemma checked_rows (k lang : str) :
  In k (dkeys S) -> In lang _LANGS ->
  ~ In LF (sorted_row lang S k)
  /\ row_entry (sorted_row lang S k) = Some (k, getitem2 S k lang).
Proof.
  intros Hk Hl. destruct (checked_text k lang Hk Hl) as [v [G L]].
  rewrite G. rewrite (lookup2_dupdate T B k lang (proj1 badges_shape)) in L.
  destruct (dmem k B) eqn:M.
  - assert (In k (dkeys B)) as HB.
    { apply dmem_dget in M as [vs Gk]. apply dget_In in Gk.
      unfold dkeys. apply in_map_iff. now exists (k, vs). }
    destruct (proj2 badges_shape k HB) as [alias [Ha K]].
    destruct (badge_key_plain alias k (plain_aliases alias Ha) K)
      as [NE [P NL]].
    split.
    + apply sorted_row_LF; [exact NL|]. rewrite G.
      now apply (plain_texts k lang v).
    + rewrite (row_entry_sorted_row lang S k NE P). now rewrite G.
  - destruct (proj1 (proj2 first_table_shape) k lang v L)
      as [_ [_ [l [Hin E]]]].
    destruct (line_entry_LF l k v E (file_lines_In _ l Hin)) as [Nk Nv].
    split.
    + apply sorted_row_LF; [exact Nk|]. now rewrite G.
    + unfold line_entry in E.
      destruct (decode l) as [row|]; [|discriminate].
      now apply (row_entry_rerendered row k v lang S E G).
Qed.

Lemma decoded_after_fix (p r : str) :
  In (p, r) (artifacts S) -> decode (cb' p) = Some r.
Proof.
  intros Hin. pose proof detected as H. unfold _generate_new_contents in H.
  destruct (content_entries_Ok cb (artifacts S) (artifact_paths_NoDup S)
              _ _ _ _ H) as [I1 _].
  rewrite written. unfold overlay.
  destruct (I1 p r Hin) as [[D [E _]]|[b [N [_ [E _]]]]]; rewrite E.
  - exact D.
  - now apply encode_decode.
Qed.

Lemma untouched_after_fix (q : str) :
  ~ In q (map fst (artifacts S)) -> cb' q = cb q.
Proof.
  intros NI. pose proof detected as H. unfold _generate_new_contents in H.
  destruct (content_entries_Ok cb (artifacts S) (artifact_paths_NoDup S)
              _ _ _ _ H) as [_ [I2 _]].
  rewrite written. unfold overlay. now rewrite (proj1 (I2 q NI)).
Qed.

Lemma second_lines (lang : str) :
  In lang _LANGS ->
  file_lines (cb' (lang_path lang))
  = map (fun k => encoded (sorted_row lang S k)) (sorted (dkeys S)).
Proof.
  intros Hl.
  assert (In (lang_path lang, _generate_sorted lang S) (artifacts S)) as A.
  { unfold artifacts. apply in_flat_map. exists lang. split.
    - apply in_or_app. now left.
    - now left. }
  pose proof (decode_sound _ _ (decoded_after_fix _ _ A)) as E.
  apply (sorted_file_lines lang S _ E).
  intros k Hk. now apply checked_rows.
Qed.

Lemma second_line_entry (k lang : str) :
  In k (dkeys S) -> In lang _LANGS ->
  line_entry (encoded (sorted_row lang S k))
  = Some (k, getitem2 S k lang).
Proof.
  intros Hk Hl.
  assert (In (lang_path lang, _generate_sorted lang S) (artifacts S)) as A.
  { unfold artifacts. apply in_flat_map. exists lang. split.
    - apply in_or_app. now left.
    - now left. }
  pose proof (decode_sound _ _ (decoded_after_fix _ _ A)) as E.
  destruct (sorted_file_lines lang S _ E) as [_ D].
  { intros k' Hk'. now apply checked_rows. }
  unfold line_entry. rewrite (D k Hk). now apply checked_rows.
Qed.

Lemma sorted_keys_In (k : str) : In k (sorted (dkeys S)) <-> In k (dkeys S).
Proof.
  split; intros H.
  - now apply (Permutation_in _ (sorted_perm (dkeys S))).
  - now apply (Permutation_in _ (Permutation_sym (sorted_perm (dkeys S)))).
Qed.

Lemma second_line_In (lang : str) (y : bytes) :
  In lang _LANGS -> In y (file_lines (cb' (lang_path lang))) ->
  exists k, In k (dkeys S)
            /\ line_entry y = Some (k, getitem2 S k lang).
Proof.
  intros Hl Hy. rewrite (second_lines lang Hl) in Hy.
  apply in_map_iff in Hy as [k [<- Hk]]. apply sorted_keys_In in Hk.
  exists k. split; [exact Hk|now apply second_line_entry].
Qed.

Lemma second_sources_well_formed :
  forall l, In l (source_lines cb') -> line_entry l <> None.
Proof.
  intros l Hl. apply source_lines_In in Hl as [lang [Hlang Hin]].
  destruct (second_line_In lang l Hlang Hin) as [k [_ E]]. now rewrite E.
Qed.

Lemma checked_keys_distinct : NoDup (dkeys S).
Proof.
  rewrite keys_checked. apply dupdate_NoDup. apply first_table_shape.
Qed.

Lemma second_lookup (k lang : str) :
  In k (dkeys S) -> In lang _LANGS ->
  lookup2 (parsed_strings cb') k lang = Some (getitem2 S k lang).
Proof.
  intros Hk Hl.
  destruct (in_split k (sorted (dkeys S)) (proj2 (sorted_keys_In k) Hk))
    as [a [b E]].
  pose proof (sorted_NoDup _ checked_keys_distinct) as ND. rewrite E in ND.
  apply NoDup_remove_2 in ND.
  apply (parsed_lookup_last cb' lang
           (map (fun k => encoded (sorted_row lang S k)) a)
           (map (fun k => encoded (sorted_row lang S k)) b)
           (encoded (sorted_row lang S k))).
  - exact Hl.
  - rewrite (second_lines lang Hl), E, map_app. reflexivity.
  - now apply second_line_entry.
  - intros y w Hy. apply in_map_iff in Hy as [k' [<- Hk']].
    rewrite second_line_entry.
    + intros H. injection H as -> _. apply ND. apply in_or_app. now right.
    + apply sorted_keys_In. rewrite E. apply in_or_app. right. now right.
    + exact Hl.
Qed.

Lemma second_parse : _get_translated_strings cb' = Ok T'.
Proof.
  rewrite reparsed.
  exact (parser_well_formed cb' second_sources_well_formed).
Qed.

Lemma not_badge_key (k : str) :
  startswith k (lit "badge_") = false -> dmem k B = false.
Proof.
  intros P. destruct (dmem k B) eqn:M; [|reflexivity].
  apply dmem_dget in M as [vs G]. apply dget_In in G.
  assert (In k (dkeys B)) as H.
  { unfold dkeys. apply in_map_iff. now exists (k, vs). }
  apply badge_keys_prefixed in H. congruence.
Qed.

Lemma second_table_lookup (k l : str) : lookup2 T' k l = lookup2 T k l.
Proof.
  destruct (filtered_table_shape cb' second_sources_well_formed)
    as [_ [_ S3]]. rewrite <- reparsed in S3.
  destruct (lookup2 T' k l) as [v|] eqn:E1.
  - destruct (S3 k l v E1) as [Hl [P [y [Hy Ey]]]].
    destruct (second_line_In l y Hl Hy) as [k' [Hk' Ey']].
    rewrite Ey in Ey'. injection Ey' as <- ->.
    destruct (checked_text k l Hk' Hl) as [v [G L]].
    rewrite (lookup2_dupdate T B k l (proj1 badges_shape)) in L.
    rewrite (not_badge_key k P) in L. now rewrite G.
  - destruct (lookup2 T k l) as [v|] eqn:E2; [|reflexivity].
    destruct (proj1 (proj2 first_table_shape) k l v E2) as [Hl [P _]].
    assert (In k (dkeys S)) as Hk.
    { rewrite keys_checked. apply (proj2 (dkeys_dupdate json_loads k T B)). left.
      now apply (lookup2_In_dkeys T k l v). }
    pose proof (second_lookup k l Hk Hl) as L.
    rewrite reparsed in E1. unfold lookup2 in E1.
    rewrite dget_without_badges in E1 by exact P.
    unfold lookup2 in L. congruence.
Qed.

Lemma second_table_keys (k : str) : In k (dkeys T') <-> In k (dkeys T).
Proof.
  destruct (filtered_table_shape cb' second_sources_well_formed)
    as [_ [S2 _]]. rewrite <- reparsed in S2.
  split; intros H.
  - destruct (S2 k H) as [l [v E]]. rewrite second_table_lookup in E.
    now apply (lookup2_In_dkeys T k l v).
  - destruct (proj2 (proj2 first_table_shape) k H) as [l [v E]].
    rewrite <- second_table_lookup in E.
    now apply (lookup2_In_dkeys T' k l v).
Qed.

Lemma second_table_distinct : NoDup (dkeys T').
Proof.
  destruct (filtered_table_shape cb' second_sources_well_formed)
    as [S1 _]. now rewrite reparsed.
Qed.

Lemma second_merge :
  _add_badges_entries scandir_dirs json_loads cb' = Ok B.
Proof.
  unfold _add_badges_entries.
  rewrite (add_badges_ext json_loads cb cb'); [exact merged|].
  intros alias _. apply untouched_after_fix. apply badge_path_not_artifact.
Qed.

Lemma merged_lookup (k l : str) :
  lookup2 (dupdate T' B) k l = lookup2 (dupdate T B) k l.
Proof.
  rewrite !(lookup2_dupdate _ B k l (proj1 badges_shape)).
  now rewrite second_table_lookup.
Qed.

Lemma merged_keys (k : str) :
  In k (dkeys (dupdate T' B)) <-> In k (dkeys (dupdate T B)).
Proof.
  rewrite !(dkeys_dupdate json_loads), second_table_keys. tauto.
Qed.

Lemma second_complete (k : str) (values : dict str) :
  In (k, values) (dupdate T' B) ->
  forall lang, In lang _LANGS -> dmem lang values = true.
Proof.
  intros Hin lang Hl.
  assert (dget k (dupdate T' B) = Some values) as G.
  { apply In_dget; [|exact Hin]. apply dupdate_NoDup.
    apply second_table_distinct. }
  assert (In k (dkeys (dupdate T B))) as Hk.
  { apply merged_keys. unfold dkeys. apply in_map_iff.
    now exists (k, values). }
  destruct (proj2 first_complete k Hk) as [values0 [G0 C0]].
  apply dmem_dget.
  destruct (proj1 (dmem_dget lang values0) (C0 lang Hl)) as [v Gv].
  exists v. pose proof (merged_lookup k lang) as L.
  unfold lookup2 in L. rewrite G, G0 in L. congruence.
Qed.

Lemma second_check :
  _check_missing_entries set_iter (dupdate T' B) _LANGS = (S', Ok tt).
Proof.
  rewrite rechecked.
  apply (check_complete_Ok set_iter set_iter_perm). exact second_complete.
Qed.

Lemma second_texts (k l : str) :
  In k (dkeys S') -> getitem2 S' k l = getitem2 S k l.
Proof.
  intros Hk.
  assert (dkeys S' = dkeys (dupdate T' B)) as K.
  { rewrite rechecked. unfold dkeys. rewrite map_map. apply map_ext.
    intros kv.
    apply entry_checked_fst. }
  rewrite K in Hk.
  assert (exists values, In (k, values) (dupdate T' B)) as [values Hin].
  { unfold dkeys in Hk. apply in_map_iff in Hk as [[k' vs] [E H]].
    cbn [fst] in E. subst k'. now exists vs. }
  assert (dget k (dupdate T' B) = Some values) as G.
  { apply In_dget; [|exact Hin]. apply dupdate_NoDup.
    apply second_table_distinct. }
  destruct (proj2 first_complete k (proj1 (merged_keys k) Hk))
    as [values0 [G0 C0]].
  rewrite rechecked, (proj1 first_complete).
  rewrite (checked_getitem2 set_iter set_iter_perm _ k l values G
             (second_complete k values Hin)).
  rewrite (checked_getitem2 set_iter set_iter_perm _ k l values0 G0 C0).
  now rewrite !getitem2_of_lookup2, !merged_lookup.
Qed.

Lemma second_artifacts : artifacts S' = artifacts S.
Proof.
  assert (sorted (dkeys S') = sorted (dkeys S)) as K.
  { apply sorted_permutation. apply NoDup_Permutation.
    - rewrite rechecked. unfold dkeys. rewrite map_map.
      rewrite (map_ext _ fst (fun kv => entry_checked_fst set_iter _ kv)).
      apply dupdate_NoDup. apply second_table_distinct.
    - exact checked_keys_distinct.
    - intros k. rewrite keys_checked, <- merged_keys.
      rewrite rechecked. unfold dkeys. rewrite map_map.
      now rewrite (map_ext _ fst
                     (fun kv => entry_checked_fst set_iter _ kv)). }
  unfold artifacts. apply flat_map_ext. intros lang.
  unfold artifacts_of.
  destruct (renderings_ext lang S' S K (fun k Hk => second_texts k lang Hk))
    as [-> [-> ->]].
  reflexivity.
Qed.

Lemma second_detection : _generate_new_contents S' cb' = Ok ([], []).
Proof.
  unfold _generate_new_contents. rewrite second_artifacts.
  apply content_entries_fixed. exact decoded_after_fix.
Qed.

Lemma second_run :
  run_all set_iter scandir_dirs json_loads cb'
  = Ok (mkMultipleResults [] [] [lit "i18n"]).
Proof.
  unfold run_all. rewrite second_parse. cbn [bind].
  rewrite second_merge. cbn [bind]. rewrite second_check. cbn [bind].
  rewrite second_detection. reflexivity.
Qed.

End SecondRun.

(** After the replacement contents of a successful run have been
    written, a second run finds nothing to replace.  The source files are
    then the sorted renderings of the checked table: as long as no
    directory name of the auxiliary source holds white space and no text
    of its documents holds a line feed, they parse to the same texts, the
    auxiliary entries are merged as before, the check passes, every
    artifact equals its rendering, and both maps of the result are
    empty. *)
Theorem second_run_finds_nothing (set_iter : list str -> list str)
  (scandir_dirs : list str)
  (json_loads : str -> result (dict (dict str))) (cb : str -> bytes)
  (res : MultipleResults) :
  (forall l, Permutation (set_iter l) l) ->
  (forall alias, In alias scandir_dirs ->
     forallb (fun c => negb (isspace c)) alias = true) ->
  (forall B k l v,
     _add_badges_entries scandir_dirs json_loads cb = Ok B ->
     lookup2 B k l = Some v -> ~ In LF v) ->
  run_all set_iter scandir_dirs json_loads cb = Ok res ->
  run_all set_iter scandir_dirs json_loads (overlay (new_contents res) cb)
  = Ok (mkMultipleResults [] [] [lit "i18n"]).
Proof.
  intros P A L H. unfold run_all in H.
  apply bind_Ok in H as [T [HT H]]. apply bind_Ok in H as [B [HB H]].
  destruct (_check_missing_entries set_iter (dupdate T B) _LANGS)
    as [S chk] eqn:C.
  apply bind_Ok in H as [u [Hu H]]. destruct u. subst chk.
  apply bind_Ok in H as [[news origs] [HD H]].
  injection H as <-. cbn [new_contents fst].
  exact (second_run set_iter scandir_dirs json_loads P cb T B S news origs
           HT HB C HD A (fun k l v => L B k l v HB)
           _ _ _ eq_refl eq_refl eq_refl).
Qed.

Lemma second_run_on_sample :
  run_all (fun l => l) [lit "x"] (fun _ => Ok sample_badge)
    (overlay (new_contents sample_run) stale_badge_sources)
  = Ok (mkMultipleResults [] [] [lit "i18n"]).
Proof.
  apply (second_run_finds_nothing (fun l => l) [lit "x"]
           (fun _ => Ok sample_badge) stale_badge_sources sample_run).
  - intros l. apply Permutation_refl.
  - intros alias [<-|[]]. reflexivity.
  - intros B k l v HB Lk. vm_compute in HB. injection HB as <-.
    unfold lookup2 in Lk.
    repeat (cbn [dget] in Lk;
            match type of Lk with
            | context [if ?b then _ else _] => destruct b
            end);
      try discriminate; injection Lk as <-; intros H; vm_compute in H;
      intuition discriminate.
  - vm_compute. reflexivity.
Defined.
